(** * multicache: the S3-FIFO memory engine and its singleflight layer

    A shallow embedding of [s3fifo] (shards, intrusive queues, ghost
    filters, death row) and of [Cache.getSet], followed by the properties
    of the specification that were checked against it.

    Conventions.
    - A [*entry] is an index into the arena of the shard that allocated
      it ([heap]); entries never move between shards.  [nil] is [None].
    - Go [int]/[int64] values are [Z]; [atomic.Uint32] counters are [N]
      with the wrap-around of [Add] written out; array indices are [nat].
    - A function returns [None] where the Go code panics (nil dereference,
      index out of range) or where a loop exceeds the bound computed for
      it; the totality lemmas show that neither happens on a well-formed
      shard.
    - Keys are Go [int]s (the [keyIsInt] fast path of the engine). *)

From Stdlib Require Import ZArith NArith Lia.
From stdpp Require Import gmap strings.

Local Open Scope Z_scope.

Abbreviation ptr := nat (only parsing).

(** ** Constants *)

Definition maxShards : Z := 2048.
Definition maxFreq : N := 7.
Definition smallQueueRatio : Z := 247.
Definition deathRowSize : nat := 8.

(** The parts of the program that the engine uses but that are not part of
    the engine: the zero value of the value type, the hash of an integer
    key and the bit positions a bloom filter probes for a hash. *)
Class Env (V : Type) := {
  zero : V;
  hashInt64 : Z → Z;
  bloom_probes : Z → list N
}.

(** ** Bloom filter *)

Module bloomFilter.
(** Modelled from the spec: the [bloomFilter] type and its methods are
    missing from the sources.  "A fixed-size bit array [...].  Operations:
    add(hash), contains(hash) → bool, reset(), and an entries count used to
    decide when to rotate."  The set bits are kept as a finite set of
    positions; the positions probed for a hash are [bloom_probes]. *)
Record t := mk { bits : gset N; entries : Z }.

(** Modelled from the spec: a new filter has no bit set and counts no entry. *)
Definition new : t := {| bits := ∅; entries := 0 |}.

(** Modelled from the spec: [contains(hash)], every probed bit is set. *)
Definition Contains `{Env V} (b : t) (h : Z) : bool :=
  forallb (λ i, bool_decide (i ∈ bits b)) (bloom_probes h).

(** Modelled from the spec: [add(hash)] sets the probed bits and counts the
    entry. *)
Definition Add `{Env V} (b : t) (h : Z) : t :=
  {| bits := bits b ∪ list_to_set (bloom_probes h); entries := entries b + 1 |}.

(** Modelled from the spec: [reset()]. *)
Definition Reset (b : t) : t := new.
End bloomFilter.

(** ** Ghost frequency ring *)

Record ghostFreqRing := GhostFreqRing {
  hashes : list Z;      (* [256]uint64 *)
  freqs : list N;       (* [256]uint32 *)
  pos : nat             (* uint8 *)
}.

Definition ghostFreqRing_zero : ghostFreqRing :=
  {| hashes := replicate 256 0; freqs := replicate 256 0%N; pos := 0 |}.

Module ring.
(** [r.hashes[r.pos] = h; r.freqs[r.pos] = freq; r.pos++], a [uint8] that
    wraps at 256. *)
Definition add (r : ghostFreqRing) (h : Z) (freq : N) : ghostFreqRing :=
  {| hashes := <[pos r := h]> (hashes r);
     freqs := <[pos r := freq]> (freqs r);
     pos := (pos r + 1) mod 256 |}.

(** [for i := range r.hashes { if r.hashes[i] == h { return r.freqs[i], true } }] *)
Fixpoint scan (hs : list Z) (fs : list N) (h : Z) : N * bool :=
  match hs, fs with
  | x :: hs', f :: fs' => if bool_decide (x = h) then (f, true) else scan hs' fs' h
  | _, _ => (0%N, false)
  end.

Definition lookup (r : ghostFreqRing) (h : Z) : N * bool :=
  scan (hashes r) (freqs r) h.
End ring.

(** ** Entries and the intrusive list *)

Record entry (V : Type) := Entry {
  key : Z;
  value : V;
  prev : option ptr;
  next : option ptr;
  hash : Z;
  expiryNano : Z;
  freq : N;
  peakFreq : N;
  inSmall : bool;
  onDeathRow : bool
}.
Arguments Entry {V}.
Arguments key {V}.
Arguments value {V}.
Arguments prev {V}.
Arguments next {V}.
Arguments hash {V}.
Arguments expiryNano {V}.
Arguments freq {V}.
Arguments peakFreq {V}.
Arguments inSmall {V}.
Arguments onDeathRow {V}.

Section EntryUpdates.
Context {V : Type}.
Implicit Types e : entry V.

Definition set_value (v : V) e : entry V :=
  Entry (key e) v (prev e) (next e) (hash e) (expiryNano e) (freq e) (peakFreq e) (inSmall e) (onDeathRow e).
Definition set_prev (p : option ptr) e : entry V :=
  Entry (key e) (value e) p (next e) (hash e) (expiryNano e) (freq e) (peakFreq e) (inSmall e) (onDeathRow e).
Definition set_next (p : option ptr) e : entry V :=
  Entry (key e) (value e) (prev e) p (hash e) (expiryNano e) (freq e) (peakFreq e) (inSmall e) (onDeathRow e).
Definition set_expiryNano (x : Z) e : entry V :=
  Entry (key e) (value e) (prev e) (next e) (hash e) x (freq e) (peakFreq e) (inSmall e) (onDeathRow e).
Definition set_freq (f : N) e : entry V :=
  Entry (key e) (value e) (prev e) (next e) (hash e) (expiryNano e) f (peakFreq e) (inSmall e) (onDeathRow e).
Definition set_peakFreq (f : N) e : entry V :=
  Entry (key e) (value e) (prev e) (next e) (hash e) (expiryNano e) (freq e) f (inSmall e) (onDeathRow e).
Definition set_inSmall (b : bool) e : entry V :=
  Entry (key e) (value e) (prev e) (next e) (hash e) (expiryNano e) (freq e) (peakFreq e) b (onDeathRow e).
Definition set_onDeathRow (b : bool) e : entry V :=
  Entry (key e) (value e) (prev e) (next e) (hash e) (expiryNano e) (freq e) (peakFreq e) (inSmall e) b.

(** [&entry{key: key, value: value, expiryNano: expiryNano}] *)
Definition new_entry (k : Z) (v : V) (expiry : Z) : entry V :=
  Entry k v None None 0 expiry 0%N 0%N false false.
Definition set_hash (h : Z) e : entry V :=
  Entry (key e) (value e) (prev e) (next e) h (expiryNano e) (freq e) (peakFreq e) (inSmall e) (onDeathRow e).

(** Field update through a pointer. *)
Definition modify (p : ptr) (f : entry V → entry V) (h : list (entry V)) : option (list (entry V)) :=
  match h !! p with
  | Some e => Some (<[p := f e]> h)
  | None => None
  end.
End EntryUpdates.

Module entryList.
Record t := mk { head : option ptr; tail : option ptr; len : Z }.

(** The zero value is the empty list. *)
Definition empty : t := {| head := None; tail := None; len := 0 |}.

Section Ops.
Context {V : Type}.

(** [e.prev = l.tail; e.next = nil;
     if l.tail != nil { l.tail.next = e } else { l.head = e };
     l.tail = e; l.len++] *)
Definition pushBack (h : list (entry V)) (l : t) (e : ptr) : option (list (entry V) * t) :=
  h1 ← modify e (set_prev (tail l)) h;
  h2 ← modify e (set_next None) h1;
  '(h3, hd) ← match tail l with
              | Some tl => h' ← modify tl (set_next (Some e)) h2; Some (h', head l)
              | None => Some (h2, Some e)
              end;
  Some (h3, {| head := hd; tail := Some e; len := len l + 1 |}).

(** [if e.prev != nil { e.prev.next = e.next } else { l.head = e.next };
     if e.next != nil { e.next.prev = e.prev } else { l.tail = e.prev };
     e.prev = nil; e.next = nil; l.len--] *)
Definition remove (h : list (entry V)) (l : t) (e : ptr) : option (list (entry V) * t) :=
  e0 ← h !! e;
  '(h1, hd) ← match prev e0 with
              | Some p => h' ← modify p (set_next (next e0)) h; Some (h', head l)
              | None => Some (h, next e0)
              end;
  e1 ← h1 !! e;
  '(h2, tl) ← match next e1 with
              | Some n => h' ← modify n (set_prev (prev e1)) h1; Some (h', tail l)
              | None => Some (h1, prev e1)
              end;
  h3 ← modify e (set_prev None) h2;
  h4 ← modify e (set_next None) h3;
  Some (h4, {| head := hd; tail := tl; len := len l - 1 |}).
End Ops.
End entryList.

(** ** Shards *)

Record shard (V : Type) := Shard {
  heap : list (entry V);            (* the entries this shard allocated *)
  entries : gmap Z ptr;             (* xsync.Map[K, *entry] *)
  small : entryList.t;
  main : entryList.t;
  ghostActive : bloomFilter.t;
  ghostAging : bloomFilter.t;
  ghostFreqRng : ghostFreqRing;
  ghostCap : Z;
  deathRow : list (option ptr);     (* [deathRowSize]*entry *)
  deathRowPos : nat;
  capacity : Z;
  smallThresh : Z;
  warmupComplete : bool
}.
Arguments Shard {V}.
Arguments heap {V}.
Arguments entries {V}.
Arguments small {V}.
Arguments main {V}.
Arguments ghostActive {V}.
Arguments ghostAging {V}.
Arguments ghostFreqRng {V}.
Arguments ghostCap {V}.
Arguments deathRow {V}.
Arguments deathRowPos {V}.
Arguments capacity {V}.
Arguments smallThresh {V}.
Arguments warmupComplete {V}.

(** Which of the two queues of a shard a list operation works on. *)
Inductive queue := Small | Main.

Section ShardUpdates.
Context {V : Type}.
Implicit Types s : shard V.

Definition set_heap (h : list (entry V)) s : shard V :=
  Shard h (entries s) (small s) (main s) (ghostActive s) (ghostAging s) (ghostFreqRng s)
        (ghostCap s) (deathRow s) (deathRowPos s) (capacity s) (smallThresh s) (warmupComplete s).
Definition set_entries (m : gmap Z ptr) s : shard V :=
  Shard (heap s) m (small s) (main s) (ghostActive s) (ghostAging s) (ghostFreqRng s)
        (ghostCap s) (deathRow s) (deathRowPos s) (capacity s) (smallThresh s) (warmupComplete s).
Definition set_small (l : entryList.t) s : shard V :=
  Shard (heap s) (entries s) l (main s) (ghostActive s) (ghostAging s) (ghostFreqRng s)
        (ghostCap s) (deathRow s) (deathRowPos s) (capacity s) (smallThresh s) (warmupComplete s).
Definition set_main (l : entryList.t) s : shard V :=
  Shard (heap s) (entries s) (small s) l (ghostActive s) (ghostAging s) (ghostFreqRng s)
        (ghostCap s) (deathRow s) (deathRowPos s) (capacity s) (smallThresh s) (warmupComplete s).
Definition set_ghost (a g : bloomFilter.t) (r : ghostFreqRing) s : shard V :=
  Shard (heap s) (entries s) (small s) (main s) a g r
        (ghostCap s) (deathRow s) (deathRowPos s) (capacity s) (smallThresh s) (warmupComplete s).
Definition set_deathRow (d : list (option ptr)) (p : nat) s : shard V :=
  Shard (heap s) (entries s) (small s) (main s) (ghostActive s) (ghostAging s) (ghostFreqRng s)
        (ghostCap s) d p (capacity s) (smallThresh s) (warmupComplete s).
Definition set_warmupComplete (b : bool) s : shard V :=
  Shard (heap s) (entries s) (small s) (main s) (ghostActive s) (ghostAging s) (ghostFreqRng s)
        (ghostCap s) (deathRow s) (deathRowPos s) (capacity s) (smallThresh s) b.

Definition getq (q : queue) s : entryList.t :=
  match q with Small => small s | Main => main s end.
Definition setq (q : queue) (l : entryList.t) s : shard V :=
  match q with Small => set_small l s | Main => set_main l s end.

(** [s.small.pushBack(e)] / [s.main.pushBack(e)] *)
Definition q_pushBack (q : queue) (e : ptr) s : option (shard V) :=
  '(h, l) ← entryList.pushBack (heap s) (getq q s) e;
  Some (setq q l (set_heap h s)).

(** [s.small.remove(e)] / [s.main.remove(e)] *)
Definition q_remove (q : queue) (e : ptr) s : option (shard V) :=
  '(h, l) ← entryList.remove (heap s) (getq q s) e;
  Some (setq q l (set_heap h s)).

(** A store through an entry pointer. *)
Definition modify_entry (p : ptr) (f : entry V → entry V) s : option (shard V) :=
  h ← modify p f (heap s);
  Some (set_heap h s).

(** [&entry{...}]: a fresh entry at the end of the arena. *)
Definition alloc (e : entry V) s : ptr * shard V :=
  (length (heap s), set_heap (heap s ++ [e]) s).

(** The frequency bump shared by [get] and [setWithHash]:
    [if ent.freq.Load() < maxFreq { if newFreq := ent.freq.Add(1);
     newFreq > ent.peakFreq.Load() { ent.peakFreq.Store(newFreq) } }] *)
Definition bump (e : entry V) : entry V :=
  if (freq e <? maxFreq)%N then
    let newFreq := ((freq e + 1) mod 2 ^ 32)%N in
    let e1 := set_freq newFreq e in
    if (peakFreq e1 <? newFreq)%N then set_peakFreq newFreq e1 else e1
  else e.

(** [for i := range s.deathRow { if s.deathRow[i] == ent { s.deathRow[i] = nil; break } }] *)
Fixpoint clear_slot (p : ptr) (d : list (option ptr)) : list (option ptr) :=
  match d with
  | [] => []
  | x :: d' => if bool_decide (x = Some p) then None :: d' else x :: clear_slot p d'
  end.
End ShardUpdates.

Section ShardOps.
Context {V : Type} `{!Env V}.
Implicit Types s : shard V.

(** Shard methods read and update [s.parent.totalEntries]; the counter is
    threaded through them as [tot], and [s.parent.capacity] is [pcap]. *)

Definition resurrectFromDeathRow (k : Z) s (tot : Z) : option (V * bool * shard V * Z) :=
  match entries s !! k with
  | None => Some (zero, false, s, tot)
  | Some p =>
      ent ← heap s !! p;
      if negb (onDeathRow ent) then Some (zero, true, s, tot)
      else
        let s1 := set_deathRow (clear_slot p (deathRow s)) (deathRowPos s) s in
        s2 ← modify_entry p (set_onDeathRow false) s1;
        s3 ← modify_entry p (set_inSmall false) s2;
        s4 ← modify_entry p (set_freq 3) s3;
        s5 ← modify_entry p (set_peakFreq 3) s4;
        s6 ← q_pushBack Main p s5;
        ent' ← heap s6 !! p;
        Some (value ent', true, s6, tot + 1)
  end.

Definition shard_get (k : Z) (now : Z) s (tot : Z) : option (V * bool * shard V * Z) :=
  match entries s !! k with
  | None => Some (zero, false, s, tot)
  | Some p =>
      ent ← heap s !! p;
      if onDeathRow ent then resurrectFromDeathRow k s tot
      else if negb (expiryNano ent =? 0) && (expiryNano ent <? now) then
        Some (zero, false, s, tot)
      else
        s1 ← modify_entry p bump s;
        ent' ← heap s1 !! p;
        Some (value ent', true, s1, tot)
  end.

Definition addToGhost (h : Z) (peak : N) s : shard V :=
  let s1 :=
    if negb (bloomFilter.Contains (ghostActive s) h) then
      set_ghost (bloomFilter.Add (ghostActive s) h) (ghostAging s)
                (if (2 <=? peak)%N then ring.add (ghostFreqRng s) h peak else ghostFreqRng s) s
    else s in
  if ghostCap s1 <=? bloomFilter.entries (ghostActive s1) then
    set_ghost (bloomFilter.Reset (ghostAging s1)) (ghostActive s1) (ghostFreqRng s1) s1
  else s1.

Definition sendToDeathRow (e : ptr) s (tot : Z) : option (shard V * Z) :=
  old ← deathRow s !! deathRowPos s;
  s1 ← match old with
       | Some o =>
           oe ← heap s !! o;
           let s' := set_entries (delete (key oe) (entries s)) s in
           let s'' := addToGhost (hash oe) (peakFreq oe) s' in
           modify_entry o (set_onDeathRow false) s''
       | None => Some s
       end;
  s2 ← modify_entry e (set_onDeathRow true) s1;
  Some (set_deathRow (<[deathRowPos s2 := Some e]> (deathRow s2))
                     ((deathRowPos s2 + 1) mod deathRowSize)%nat s2,
        tot - 1).

(** One iteration of the loop of [evictFromMain] per unit of [fuel]. *)
Fixpoint evictFromMain_loop (fuel : nat) s (tot : Z) : option (shard V * Z) :=
  match fuel with
  | O => None
  | S fuel' =>
      if 0 <? entryList.len (main s) then
        e ← entryList.head (main s);
        ent ← heap s !! e;
        let f := freq ent in
        if (f =? 0)%N then
          s1 ← q_remove Main e s;
          ent1 ← heap s1 !! e;
          if (4 <=? peakFreq ent1)%N then
            s2 ← modify_entry e (set_freq 1) s1;
            s3 ← modify_entry e (set_inSmall true) s2;
            s4 ← q_pushBack Small e s3;
            Some (s4, tot)
          else sendToDeathRow e s1 tot
        else
          s1 ← q_remove Main e s;
          s2 ← modify_entry e (set_freq (f - 1)) s1;
          s3 ← q_pushBack Main e s2;
          evictFromMain_loop fuel' s3 tot
      else Some (s, tot)
  end.

(** Every iteration that does not return lowers one frequency by one. *)
Definition freq_sum (h : list (entry V)) : nat :=
  foldr (λ e n, (N.to_nat (freq e) + n)%nat) 0%nat h.

Definition evictFromMain s (tot : Z) : option (shard V * Z) :=
  evictFromMain_loop (S (freq_sum (heap s))) s tot.

Fixpoint evictFromSmall_loop (fuel : nat) s (tot : Z) : option (shard V * Z) :=
  match fuel with
  | O => None
  | S fuel' =>
      let mcap := Z.quot (capacity s * 9) 10 in
      if 0 <? entryList.len (small s) then
        e ← entryList.head (small s);
        ent ← heap s !! e;
        let f := freq ent in
        if (f <? 2)%N then
          s1 ← q_remove Small e s;
          sendToDeathRow e s1 tot
        else
          s1 ← q_remove Small e s;
          s2 ← modify_entry e (set_freq 0) s1;
          s3 ← modify_entry e (set_inSmall false) s2;
          s4 ← q_pushBack Main e s3;
          '(s5, tot5) ← (if mcap <? entryList.len (main s4) then evictFromMain s4 tot
                         else Some (s4, tot));
          evictFromSmall_loop fuel' s5 tot5
      else Some (s, tot)
  end.

(** Every iteration that does not return resets one frequency of at least
    two to zero, and [evictFromMain] creates none. *)
Definition warm_count (h : list (entry V)) : nat :=
  length (filter (λ e, (2 ≤ freq e)%N) h).

Definition evictFromSmall s (tot : Z) : option (shard V * Z) :=
  evictFromSmall_loop (S (warm_count (heap s))) s tot.

Definition setWithHash (pcap : Z) (k : Z) (v : V) (expiry : Z) (hash0 : Z) s (tot : Z)
  : option (shard V * Z) :=
  match entries s !! k with
  | Some p =>
      s1 ← modify_entry p (set_value v) s;
      s2 ← modify_entry p (set_expiryNano expiry) s1;
      s3 ← modify_entry p bump s2;
      Some (s3, tot)
  | None =>
      let h := if hash0 =? 0 then hashInt64 k else hash0 in
      let '(ent, s0) := alloc (set_hash h (new_entry k v expiry)) s in
      let full := pcap <=? tot in
      if negb (warmupComplete s0) && negb full then
        s1 ← modify_entry ent (set_inSmall true) s0;
        s2 ← q_pushBack Small ent s1;
        Some (set_entries (<[k := ent]> (entries s2)) s2, tot + 1)
      else
        let s1 := set_warmupComplete true s0 in
        '(s4, tot4) ←
          (if full then
             let inGhost := bloomFilter.Contains (ghostActive s1) h
                            || bloomFilter.Contains (ghostAging s1) h in
             s2 ← modify_entry ent (set_inSmall (negb inGhost)) s1;
             s3 ← (if inGhost then
                     match ring.lookup (ghostFreqRng s2) h with
                     | (peak, true) =>
                         s' ← modify_entry ent (set_freq peak) s2;
                         modify_entry ent (set_peakFreq peak) s'
                     | (_, false) => Some s2
                     end
                   else Some s2);
             if (0 <? entryList.len (main s3))
                && (entryList.len (small s3) <=? smallThresh s3) then evictFromMain s3 tot
             else if 0 <? entryList.len (small s3) then evictFromSmall s3 tot
             else Some (s3, tot)
           else
             s2 ← modify_entry ent (set_inSmall true) s1;
             Some (s2, tot));
        e ← heap s4 !! ent;
        s5 ← (if inSmall e then q_pushBack Small ent s4 else q_pushBack Main ent s4);
        Some (set_entries (<[k := ent]> (entries s5)) s5, tot4 + 1)
  end.

Definition shard_delete (k : Z) s (tot : Z) : option (shard V * Z) :=
  match entries s !! k with
  | None => Some (s, tot)
  | Some p =>
      ent ← heap s !! p;
      s1 ← (if inSmall ent then q_remove Small p s else q_remove Main p s);
      Some (set_entries (delete k (entries s1)) s1, tot - 1)
  end.

Definition shard_flush s : Z * shard V :=
  (Z.of_nat (size (entries s)),
   Shard (heap s) ∅ entryList.empty entryList.empty
         (bloomFilter.Reset (ghostActive s)) (bloomFilter.Reset (ghostAging s))
         ghostFreqRing_zero (ghostCap s)
         (replicate (length (deathRow s)) None) 0%nat
         (capacity s) (smallThresh s) (warmupComplete s)).
End ShardOps.

(** ** The engine: the sharded dispatcher *)

Record s3fifo (V : Type) := S3fifo {
  shards : list (shard V);
  numShards : Z;
  shardMask : Z;
  totalEntries : Z;
  s3fifo_capacity : Z               (* the field [capacity] of [s3fifo] *)
}.
Arguments S3fifo {V}.
Arguments shards {V}.
Arguments numShards {V}.
Arguments shardMask {V}.
Arguments totalEntries {V}.
Arguments s3fifo_capacity {V}.

Section Engine.
Context {V : Type} `{!Env V}.
Implicit Types c : s3fifo V.

Definition new_shard (scap : Z) : shard V :=
  {| heap := []; entries := ∅;
     small := entryList.empty; main := entryList.empty;
     ghostActive := bloomFilter.new; ghostAging := bloomFilter.new;
     ghostFreqRng := ghostFreqRing_zero; ghostCap := scap;
     deathRow := replicate deathRowSize None; deathRowPos := 0%nat;
     capacity := scap; smallThresh := Z.quot (scap * smallQueueRatio) 1000;
     warmupComplete := false |}.

(** [newS3FIFO]; [procs] is [runtime.GOMAXPROCS(0)].  For [n ≥ 1],
    [1 << (bits.Len(uint(n)) - 1)] is [2 ^ Z.log2 n]. *)
Definition newS3FIFO (cfg_size procs : Z) : s3fifo V :=
  let size := if cfg_size <=? 0 then 16384 else cfg_size in
  let n := Z.min (Z.min (Z.max (procs * 16) (Z.quot size 256)) (Z.max 1 (Z.quot size 1024)))
                 maxShards in
  let n := 2 ^ Z.log2 n in
  let scap := Z.quot (size + n - 1) n in
  {| shards := replicate (Z.to_nat n) (new_shard scap);
     numShards := n; shardMask := n - 1; totalEntries := 0; s3fifo_capacity := size |}.

(** [uint64(k)] for an [int] key. *)
Definition uint64 (k : Z) : Z := k mod 2 ^ 64.

Definition shardIdx c (h : Z) : nat := Z.to_nat (Z.land h (shardMask c)).

Definition with_shard (i : nat) (s : shard V) (tot : Z) c : s3fifo V :=
  {| shards := <[i := s]> (shards c); numShards := numShards c; shardMask := shardMask c;
     totalEntries := tot; s3fifo_capacity := s3fifo_capacity c |}.

Definition get c (k : Z) (now : Z) : option (V * bool * s3fifo V) :=
  let i := shardIdx c (uint64 k) in
  s ← shards c !! i;
  '(v, ok, s', tot) ← shard_get k now s (totalEntries c);
  Some (v, ok, with_shard i s' tot c).

Definition set c (k : Z) (v : V) (expiry : Z) : option (s3fifo V) :=
  let i := shardIdx c (uint64 k) in
  s ← shards c !! i;
  '(s', tot) ← setWithHash (s3fifo_capacity c) k v expiry 0 s (totalEntries c);
  Some (with_shard i s' tot c).

Definition del c (k : Z) : option (s3fifo V) :=
  let i := shardIdx c (uint64 k) in
  s ← shards c !! i;
  '(s', tot) ← shard_delete k s (totalEntries c);
  Some (with_shard i s' tot c).

Definition len c : Z :=
  foldr (λ s total, Z.of_nat (size (entries s)) + total) 0 (shards c).

Definition flush c : Z * s3fifo V :=
  (foldr (λ s total, (shard_flush s).1 + total) 0 (shards c),
   {| shards := (λ s, (shard_flush s).2) <$> shards c;
      numShards := numShards c; shardMask := shardMask c;
      totalEntries := 0; s3fifo_capacity := s3fifo_capacity c |}).
End Engine.

(** ** The cache and its singleflight layer *)

Record flightCall (V E : Type) := FlightCall {
  wg : Z;                           (* the counter of the sync.WaitGroup *)
  val : V;
  err : option E
}.
Arguments FlightCall {V E}.
Arguments wg {V E}.
Arguments val {V E}.
Arguments err {V E}.

Record Cache (V E : Type) := MkCache {
  flights : gmap Z ptr;             (* xsync.Map[K, *flightCall[V]] *)
  calls : list (flightCall V E);    (* the call records allocated so far *)
  memory : s3fifo V;
  defaultTTL : Z
}.
Arguments MkCache {V E}.
Arguments flights {V E}.
Arguments calls {V E}.
Arguments memory {V E}.
Arguments defaultTTL {V E}.

(** What a call of the loader does: it returns a value and an error
    ([None] is Go's [nil]), or it panics. *)
Inductive loader_result (V E : Type) :=
| Loaded (v : V) (e : option E)
| LoaderPanic.
Arguments Loaded {V E}.
Arguments LoaderPanic {V E}.

(** What the caller of [getSet] observes: a returned pair, the panic of its
    loader unwinding through it, or [wg.Wait()] on a latch that is not
    signalled. *)
Inductive fetch_result (V E : Type) :=
| Returned (v : V) (e : option E)
| Panicked
| Blocked.
Arguments Returned {V E}.
Arguments Panicked {V E}.
Arguments Blocked {V E}.

(** The outcome of [LoadOrCompute] after the first cache read. *)
Inductive role (V : Type) :=
| Hit (v : V)
| Leader (call : ptr)
| Follower (call : ptr).
Arguments Hit {V}.
Arguments Leader {V}.
Arguments Follower {V}.

Section CacheOps.
Context {V E : Type} `{!Env V}.
Implicit Types c : Cache V E.

Definition set_memory (m : s3fifo V) c : Cache V E :=
  MkCache (flights c) (calls c) m (defaultTTL c).
Definition set_flights (f : gmap Z ptr) c : Cache V E :=
  MkCache f (calls c) (memory c) (defaultTTL c).
Definition set_calls (l : list (flightCall V E)) c : Cache V E :=
  MkCache (flights c) l (memory c) (defaultTTL c).

Definition New (cfg_size procs ttl : Z) : Cache V E :=
  {| flights := ∅; calls := []; memory := newS3FIFO cfg_size procs; defaultTTL := ttl |}.

(** [uint32(time.Now().Add(ttl).Unix())], with [now] and [ttl] in nanoseconds. *)
Definition expiry_after (now ttl : Z) : Z := ((now + ttl) `div` 1000000000) mod 2 ^ 32.

Definition SetTTL c (k : Z) (v : V) (ttl now : Z) : option (Cache V E) :=
  m ← set (memory c) k v (if ttl <=? 0 then 0 else expiry_after now ttl);
  Some (set_memory m c).

Definition Set_ c (k : Z) (v : V) (now : Z) : option (Cache V E) :=
  SetTTL c k v (defaultTTL c) now.

(** [getSet] up to and including [LoadOrCompute]. *)
Definition getSet_enter c (k now : Z) : option (role V * Cache V E) :=
  '(v, ok, m) ← get (memory c) k now;
  let c1 := set_memory m c in
  if (ok : bool) then Some (Hit v, c1)
  else match flights c1 !! k with
       | Some call => Some (Follower call, c1)
       | None =>
           let call := length (calls c1) in
           Some (Leader call,
                 set_flights (<[k := call]> (flights c1))
                   (set_calls (calls c1 ++ [FlightCall 1 zero None]) c1))
       end.

(** [call.wg.Wait(); return call.val, call.err] *)
Definition getSet_follower c (call : ptr) : option (fetch_result V E) :=
  fc ← calls c !! call;
  Some (if wg fc =? 0 then Returned (val fc) (err fc) else Blocked).

Definition modify_call (call : ptr) (f : flightCall V E → flightCall V E) c
  : option (Cache V E) :=
  fc ← calls c !! call;
  Some (set_calls (<[call := f fc]> (calls c)) c).

(** [c.flights.Delete(key); call.wg.Done()] *)
Definition finish (k : Z) (call : ptr) c : option (Cache V E) :=
  modify_call call (λ fc, FlightCall (wg fc - 1) (val fc) (err fc))
              (set_flights (delete k (flights c)) c).

(** The leader's part of [getSet], after [LoadOrCompute]. *)
Definition getSet_leader c (k : Z) (call : ptr) (loader : loader_result V E) (ttl now : Z)
  : option (fetch_result V E * Cache V E) :=
  '(v, ok, m) ← get (memory c) k now;
  let c1 := set_memory m c in
  if (ok : bool) then
    c2 ← modify_call call (λ fc, FlightCall (wg fc) v (err fc)) c1;
    c3 ← finish k call c2;
    Some (Returned v None, c3)
  else
    match loader with
    | LoaderPanic => Some (Panicked, c1)
    | Loaded v e =>
        c2 ← (match e with
              | None => if ttl <=? 0 then Set_ c1 k v now else SetTTL c1 k v ttl now
              | Some _ => Some c1
              end);
        c3 ← modify_call call (λ fc, FlightCall (wg fc) v e) c2;
        c4 ← finish k call c3;
        Some (Returned v e, c4)
    end.

Definition getSet c (k : Z) (loader : loader_result V E) (ttl now : Z)
  : option (fetch_result V E * Cache V E) :=
  '(r, c1) ← getSet_enter c k now;
  match r with
  | Hit v => Some (Returned v None, c1)
  | Follower call => res ← getSet_follower c1 call; Some (res, c1)
  | Leader call => getSet_leader c1 k call loader ttl now
  end.


Definition FetchTTL c (k : Z) (ttl : Z) (loader : loader_result V E) (now : Z) :=
  getSet c k loader ttl now.

(** Sequences of operations on one cache. *)
Inductive op :=
| OpSet (k : Z) (v : V) (expiry : Z)
| OpGet (k : Z) (now : Z)
| OpDelete (k : Z)
| OpFetch (k : Z) (ttl : Z) (loader : loader_result V E) (now : Z)
| OpFlush.

Definition step (o : op) c : option (Cache V E) :=
  match o with
  | OpSet k v expiry => m ← set (memory c) k v expiry; Some (set_memory m c)
  | OpGet k now => '(_, _, m) ← get (memory c) k now; Some (set_memory m c)
  | OpDelete k => m ← del (memory c) k; Some (set_memory m c)
  | OpFetch k ttl loader now => '(_, c') ← getSet c k loader ttl now; Some c'
  | OpFlush => Some (set_memory (flush (memory c)).2 c)
  end.

Fixpoint run (ops : list op) c : option (Cache V E) :=
  match ops with
  | [] => Some c
  | o :: ops' => c' ← step o c; run ops' c'
  end.
End CacheOps.

(** * Well-formedness of shards and engines *)

Section Predicates.
Context {V : Type}.

(** An entry without its list links: what the list operations never change. *)
Definition strip (e : entry V) : entry V := set_prev None (set_next None e).

Definition links (e : entry V) : option ptr * option ptr := (prev e, next e).

(** [seg h p xs n]: in heap [h] the entries [xs] are linked to each other in
    this order, the first one having predecessor [p] and the last one
    successor [n]. *)
Fixpoint seg (h : list (entry V)) (p : option ptr) (xs : list ptr) (n : option ptr) : Prop :=
  match xs with
  | [] => True
  | x :: xs' =>
      ∃ e, h !! x = Some e ∧ prev e = p ∧ next e = from_option Some n (head xs')
           ∧ seg h (Some x) xs' n
  end.

(** [dll h l xs]: the intrusive list [l] holds exactly the entries [xs]. *)
Definition dll (h : list (entry V)) (l : entryList.t) (xs : list ptr) : Prop :=
  entryList.len l = Z.of_nat (length xs) ∧
  entryList.head l = head xs ∧
  entryList.tail l = last xs ∧
  NoDup xs ∧
  seg h None xs None.

(** The entries held in the death-row ring. *)
Definition occupants (d : list (option ptr)) : list ptr := omap id d.

(** The entry at [p] without its links. *)
Definition dat (h : list (entry V)) (p : ptr) : option (entry V) := strip <$> (h !! p).

(** The choice between the small and the main queue of a pair. *)
Definition qsel {A} (q : queue) (a b : A) : A :=
  match q with Small => a | Main => b end.

(** The entries a shard knows: those in its queues, those on death row, and
    those an operation has taken out of a queue and not yet put elsewhere
    ([F], empty between operations). *)
Definition members (s : shard V) (xs ms F : list ptr) : list ptr :=
  xs ++ ms ++ occupants (deathRow s) ++ F.

(** The invariant of a shard whose small queue holds [xs] and whose main
    queue holds [ms]. *)
Record shard_inv (s : shard V) (xs ms F : list ptr) : Prop := {
  inv_small : dll (heap s) (small s) xs;
  inv_main : dll (heap s) (main s) ms;
  inv_dr_len : length (deathRow s) = deathRowSize;
  inv_dr_pos : (deathRowPos s < deathRowSize)%nat;
  inv_dr_uniq : NoDup (occupants (deathRow s));
  inv_float : NoDup F ∧
    ∀ p, p ∈ F → (p ∉ xs) ∧ (p ∉ ms) ∧ (p ∉ occupants (deathRow s));
  inv_map : ∀ k p, entries s !! k = Some p →
    ∃ d, dat (heap s) p = Some d ∧ key d = k ∧ p ∈ members s xs ms F;
  inv_member : ∀ p, p ∈ members s xs ms F →
    ∃ d, dat (heap s) p = Some d ∧ entries s !! key d = Some p;
  inv_flag_small : ∀ p d, p ∈ xs → dat (heap s) p = Some d →
    inSmall d = true ∧ onDeathRow d = false;
  inv_flag_main : ∀ p d, p ∈ ms → dat (heap s) p = Some d →
    inSmall d = false ∧ onDeathRow d = false;
  inv_flag_dr : ∀ p d, p ∈ occupants (deathRow s) → dat (heap s) p = Some d →
    onDeathRow d = true;
  inv_size : size (entries s) = length (members s xs ms F)
}.

(** The stores through an entry pointer that leave its links and its key
    alone. *)
Definition data_fn (f : entry V → entry V) : Prop :=
  ∀ x, links (f x) = links x ∧ strip (f x) = f (strip x) ∧ key (f x) = key x.

(** A sum over the frequencies of a heap. *)
Definition msum (g : N → nat) (l : list N) : nat :=
  foldr (λ x n, (g x + n)%nat) 0%nat l.

Definition warm (x : N) : nat := if decide (2 ≤ x)%N then 1%nat else 0%nat.

(** What one round of eviction does to a shard, seen from outside: the
    counter follows the queues, entries that the shard did not know are left
    alone, and no key is added. *)
Definition evolves (s : shard V) (xs ms : list ptr) (tot : Z)
    (s' : shard V) (xs' ms' : list ptr) (tot' : Z) : Prop :=
  tot' - Z.of_nat (length xs' + length ms') = tot - Z.of_nat (length xs + length ms) ∧
  (∀ p, p ∉ members s xs ms [] →
        dat (heap s') p = dat (heap s) p ∧ p ∉ members s' xs' ms' []) ∧
  entries s' ⊆ entries s ∧
  (msum warm (freq <$> heap s') ≤ msum warm (freq <$> heap s))%nat ∧
  capacity s' = capacity s.

Definition shard_wf (s : shard V) : Prop := ∃ xs ms, shard_inv s xs ms [].

(** The fields of a shard that the list operations and the stores through
    entry pointers leave alone. *)
Definition rest (s : shard V) :=
  (entries s, ghostActive s, ghostAging s, ghostFreqRng s, ghostCap s,
   deathRow s, deathRowPos s, capacity s, smallThresh s, warmupComplete s).

(** The entries of a shard that are in one of its two queues, as the
    [len] fields count them. *)
Definition queued (s : shard V) : Z :=
  entryList.len (small s) + entryList.len (main s).

Definition occupied (s : shard V) : Z :=
  Z.of_nat (length (occupants (deathRow s))).

Definition sum_shards (f : shard V → Z) (l : list (shard V)) : Z :=
  foldr (λ s t, f s + t) 0 l.

Definition engine_inv (c : s3fifo V) : Prop :=
  Forall shard_wf (shards c) ∧
  totalEntries c = sum_shards queued (shards c) ∧
  0 ≤ shardMask c ∧
  (Z.to_nat (shardMask c) < length (shards c))%nat ∧
  numShards c = Z.of_nat (length (shards c)).

(** Is the entry of key [k] waiting on death row? *)
Definition on_death_row (c : s3fifo V) (k : Z) : bool :=
  match shards c !! shardIdx c (uint64 k) with
  | Some s =>
      match entries s !! k with
      | Some p => from_option onDeathRow false (heap s !! p)
      | None => false
      end
  | None => false
  end.

(** What the invariant reads from a shard. *)
Definition core (s : shard V) :=
  (heap s, entries s, small s, main s, deathRow s, deathRowPos s).

(** What [setWithHash] knows about the new entry when it reaches the final
    [pushBack]. *)
Record pending (s : shard V) (xs ms : list ptr) (tot : Z) (k : Z) (v : V) (exp : Z)
    (ent : ptr) (to_small : bool) (s4 : shard V) (xs4 ms4 : list ptr) (tot4 : Z) : Prop := {
  pd_inv : shard_inv s4 xs4 ms4 [];
  pd_fresh : ent ∉ members s4 xs4 ms4 [];
  pd_key : entries s4 !! k = None;
  pd_tot : tot4 - Z.of_nat (length xs4 + length ms4)
           = tot - Z.of_nat (length xs + length ms);
  pd_dat : ∃ d, dat (heap s4) ent = Some d ∧ key d = k ∧ value d = v
                ∧ expiryNano d = exp ∧ onDeathRow d = false ∧ inSmall d = to_small
}.
End Predicates.

Section Ghost.
Context {V : Type} `{!Env V}.

(** [s.ghostActive.Contains(h) || s.ghostAging.Contains(h)] *)
Definition ghost_hit (s : shard V) (h : Z) : bool :=
  bloomFilter.Contains (ghostActive s) h || bloomFilter.Contains (ghostAging s) h.
End Ghost.

Section Reachability.
Context {V E : Type} `{!Env V}.

(** Every registered flight has its call record. *)
Definition cache_inv (c : Cache V E) : Prop :=
  engine_inv (memory c) ∧
  ∀ k call, flights c !! k = Some call → (call < length (calls c))%nat.

(** Operations other than the deletion of a key whose entry is on death row. *)
Definition admissible (o : op (V:=V) (E:=E)) (c : Cache V E) : bool :=
  match o with
  | OpDelete k => negb (on_death_row (memory c) k)
  | _ => true
  end.

(** A run of admissible operations. *)
Fixpoint run_adm (ops : list (op (V:=V) (E:=E))) (c : Cache V E) : option (Cache V E) :=
  match ops with
  | [] => Some c
  | o :: ops' =>
      if admissible o c then c' ← step o c; run_adm ops' c' else None
  end.
End Reachability.

(** * hashString

    A Go string is its sequence of bytes.  The loads through [unsafe.Pointer]
    are little-endian, as on amd64 and arm64. *)

Definition wyp0 : Z := 0xa0761d6478bd642f.
Definition wyp1 : Z := 0xe7037ed1a0b428db.

(** The byte at offset [i] from the string's data pointer. *)
Definition byte_at (s : list Byte.byte) (i : nat) : Z :=
  from_option (λ b, Z.of_N (Byte.to_N b)) 0 (s !! i).

(** A little-endian load of [w] bytes at offset [i]. *)
Fixpoint load (w : nat) (s : list Byte.byte) (i : nat) : Z :=
  match w with
  | O => 0
  | S w' => Z.lor (byte_at s i) (Z.shiftl (load w' s (S i)) 8)
  end.

(** [bits.Mul64(x, y)]: the high and the low 64 bits of the product. *)
Definition Mul64 (x y : Z) : Z * Z := ((x * y) `div` 2 ^ 64, (x * y) `mod` 2 ^ 64).

Definition hashString (s : list Byte.byte) : Z :=
  let n := length s in
  if decide (n = 0%nat) then 0
  else
    let '(a, b) :=
      if decide (n ≤ 8)%nat then
        if decide (4 ≤ n)%nat then (load 4 s 0, load 4 s (n - 4))
        else (Z.lor (Z.lor (Z.shiftl (byte_at s 0) 16)
                           (Z.shiftl (byte_at s (Nat.shiftr n 1)) 8))
                    (byte_at s (n - 1)),
              0)
      else (load 8 s 0, load 8 s (n - 8)) in
    let '(hi, lo) := Mul64 (Z.lxor a wyp0) (Z.lxor (Z.lxor b (Z.of_nat n)) wyp1) in
    Z.lxor hi lo.

(** * Expiry and counters *)

(** [ent.expiryNano != 0 && now > ent.expiryNano] *)
Definition expired_at (exp now : Z) : bool := negb (exp =? 0) && (exp <? now).

Section CounterPredicates.
Context {V : Type}.

(** The frequency of an entry is at most its peak frequency, which is at
    most [maxFreq]. *)
Definition freq_ok (e : entry V) : Prop := (freq e ≤ peakFreq e ∧ peakFreq e ≤ maxFreq)%N.

(** The counters of a shard: those of its entries and the frequencies kept
    in its ghost ring. *)
Definition counters_ok (s : shard V) : Prop :=
  Forall freq_ok (heap s) ∧ Forall (λ f, (f ≤ maxFreq)%N) (freqs (ghostFreqRng s)).
End CounterPredicates.

(** * The caches built on the engine

    [MemoryCache] and [TieredCache] of package [sfcache].  A [time.Time] is
    [None] for the zero time and [Some n] for the instant whose [UnixNano()]
    is [n]; [time.Now()] is the argument [now]; a [time.Duration] is its
    number of nanoseconds. *)

Definition Time : Type := option Z.

(** [if t.IsZero() { return 0 }; return t.UnixNano()] *)
Definition timeToNano (t : Time) : Z :=
  match t with
  | None => 0
  | Some n => n
  end.

Module persist.
(** The persistence backend: the methods of the [Store] interface that
    [TieredCache] calls.  A method may change the store, so each one returns
    the store it leaves; [None] is the [nil] error. *)
Class Store (St V Err : Type) := {
  ValidateKey : St → Z → St * option Err;
  Get : St → Z → St * (V * Time * bool * option Err);
  Set_ : St → Z → V → Time → St * option Err;
  Delete : St → Z → St * option Err;
  Flush : St → St * (Z * option Err);
  Close : St → St * option Err
}.
End persist.

Module sfcache.

Record config := Config { size : Z; defaultTTL : Z }.

(** [&config{size: 16384}] *)
Definition defaultConfig : config := {| size := 16384; defaultTTL := 0 |}.

(** An option updates the [config] it is given. *)
Definition Option : Type := config → config.


(** [cfg := defaultConfig(); for _, opt := range opts { opt(cfg) }] *)
Definition configure (opts : list Option) : config :=
  foldl (λ cfg opt, opt cfg) defaultConfig opts.

(** [if ttl <= 0 { ttl = defaultTTL }; if ttl <= 0 { return time.Time{} };
     return time.Now().Add(ttl)], the body of both [expiry] methods. *)
Definition expiry_of (dflt ttl now : Z) : Time :=
  let ttl := if ttl <=? 0 then dflt else ttl in
  if ttl <=? 0 then None else Some (now + ttl).

(** [var t time.Duration; if len(ttl) > 0 { t = ttl[0] }] *)
Definition first_ttl (ttl : list Z) : Z :=
  match ttl with
  | [] => 0
  | t :: _ => t
  end.

(** ** MemoryCache *)

Record MemoryCache (V : Type) := MkMemoryCache {
  mc_memory : s3fifo V;
  mc_defaultTTL : Z
}.
Arguments MkMemoryCache {V}.
Arguments mc_memory {V}.
Arguments mc_defaultTTL {V}.

Section Memory.
Context {V : Type} `{!Env V}.
Implicit Types c : MemoryCache V.

Definition New (procs : Z) (opts : list Option) : MemoryCache V :=
  let cfg := configure opts in
  {| mc_memory := newS3FIFO (size cfg) procs; mc_defaultTTL := defaultTTL cfg |}.

Definition expiry c (ttl now : Z) : Time := expiry_of (mc_defaultTTL c) ttl now.

Definition Get c (k : Z) (now : Z) : option (V * bool * MemoryCache V) :=
  '(v, ok, m) ← get (mc_memory c) k now;
  Some (v, ok, MkMemoryCache m (mc_defaultTTL c)).

Definition Set_ c (k : Z) (v : V) (ttl : list Z) (now : Z) : option (MemoryCache V) :=
  m ← set (mc_memory c) k v (timeToNano (expiry c (first_ttl ttl) now));
  Some (MkMemoryCache m (mc_defaultTTL c)).

Definition Delete c (k : Z) : option (MemoryCache V) :=
  m ← del (mc_memory c) k;
  Some (MkMemoryCache m (mc_defaultTTL c)).

Definition Len c : Z := len (mc_memory c).

Definition Flush c : Z * MemoryCache V :=
  ((flush (mc_memory c)).1, MkMemoryCache (flush (mc_memory c)).2 (mc_defaultTTL c)).
End Memory.

(** ** TieredCache *)

(** The errors [TieredCache] returns: an error of the store as it is, one
    wrapped by [fmt.Errorf] under a message, or a message alone. *)
Inductive error (Err : Type) :=
| Raw (e : Err)
| Wrapped (msg : string) (e : Err)
| Message (msg : string).
Arguments Raw {Err}.
Arguments Wrapped {Err}.
Arguments Message {Err}.

Record TieredCache (St V : Type) := MkTieredCache {
  Store : St;
  memory : s3fifo V;
  tc_defaultTTL : Z
}.
Arguments MkTieredCache {St V}.
Arguments Store {St V}.
Arguments memory {St V}.
Arguments tc_defaultTTL {St V}.

Section Tiered.
Context {St V Err : Type} `{!Env V} `{!persist.Store St V Err}.
Implicit Types c : TieredCache St V.

(** [store] is [None] for a [nil] store. *)
Definition NewTiered (store : option St) (procs : Z) (opts : list Option)
  : TieredCache St V + error Err :=
  let cfg := configure opts in
  match store with
  | None => inr (Message "store cannot be nil")
  | Some st =>
      inl {| Store := st; memory := newS3FIFO (size cfg) procs;
             tc_defaultTTL := defaultTTL cfg |}
  end.

Definition tc_expiry c (ttl now : Z) : Time := expiry_of (tc_defaultTTL c) ttl now.

Definition tc_Get c (k : Z) (now : Z)
  : option (V * bool * option (error Err) * TieredCache St V) :=
  '(val, ok, m) ← get (memory c) k now;
  if (ok : bool) then Some (val, true, None, MkTieredCache (Store c) m (tc_defaultTTL c))
  else
    let '(st1, verr) := persist.ValidateKey (Store c) k in
    match verr with
    | Some err =>
        Some (zero, false, Some (Wrapped "invalid key" err),
              MkTieredCache st1 m (tc_defaultTTL c))
    | None =>
        let '(st2, (val, exp, found, err)) := persist.Get st1 k in
        match err with
        | Some err =>
            Some (zero, false, Some (Wrapped "persistence load" err),
                  MkTieredCache st2 m (tc_defaultTTL c))
        | None =>
            if negb found then
              Some (zero, false, None, MkTieredCache st2 m (tc_defaultTTL c))
            else
              m' ← set m k val (timeToNano exp);
              Some (val, true, None, MkTieredCache st2 m' (tc_defaultTTL c))
        end
    end.

Definition tc_Set c (k : Z) (v : V) (ttl : list Z) (now : Z)
  : option (option (error Err) * TieredCache St V) :=
  let exp := tc_expiry c (first_ttl ttl) now in
  let '(st1, verr) := persist.ValidateKey (Store c) k in
  match verr with
  | Some err => Some (Some (Raw err), MkTieredCache st1 (memory c) (tc_defaultTTL c))
  | None =>
      m ← set (memory c) k v (timeToNano exp);
      let '(st2, serr) := persist.Set_ st1 k v exp in
      Some (match serr with
            | Some err => Some (Wrapped "persistence store failed" err)
            | None => None
            end,
            MkTieredCache st2 m (tc_defaultTTL c))
  end.

Definition tc_Delete c (k : Z) : option (option (error Err) * TieredCache St V) :=
  m ← del (memory c) k;
  let '(st1, verr) := persist.ValidateKey (Store c) k in
  match verr with
  | Some err =>
      Some (Some (Wrapped "invalid key" err), MkTieredCache st1 m (tc_defaultTTL c))
  | None =>
      let '(st2, derr) := persist.Delete st1 k in
      Some (match derr with
            | Some err => Some (Wrapped "persistence delete" err)
            | None => None
            end,
            MkTieredCache st2 m (tc_defaultTTL c))
  end.

Definition tc_Flush c : Z * option (error Err) * TieredCache St V :=
  let memoryRemoved := (flush (memory c)).1 in
  let '(st1, (persistRemoved, err)) := persist.Flush (Store c) in
  let c' := MkTieredCache st1 (flush (memory c)).2 (tc_defaultTTL c) in
  match err with
  | Some err => (memoryRemoved, Some (Wrapped "persistence flush" err), c')
  | None => (memoryRemoved + persistRemoved, None, c')
  end.

Definition tc_Len c : Z := len (memory c).

Definition tc_Close c : option (error Err) * TieredCache St V :=
  let '(st1, err) := persist.Close (Store c) in
  (match err with
   | Some err => Some (Wrapped "close persistence" err)
   | None => None
   end,
   MkTieredCache st1 (memory c) (tc_defaultTTL c)).
End Tiered.
End sfcache.

(** * A concrete cache for the examples

    Integer values, integer errors, an arbitrary injective hash and a bloom
    filter that probes one bit. *)

#[export] Instance demo_env : Env Z :=
  {| zero := 0; hashInt64 := λ k, k + 1000; bloom_probes := λ h, [Z.to_N (h mod 64)] |}.

Definition demo_cache (size : Z) : Cache Z Z := New size 1 0.

(** [set(k, 10 * k)] without expiry for each key of the list. *)
Definition demo_sets (ks : list Z) : list (op (V:=Z) (E:=Z)) :=
  (λ k, OpSet k (10 * k) 0) <$> ks.

(** One key set, then each new key set and the key before it read back
    from death row. *)
Definition resurrect_ops : list (op (V:=Z) (E:=Z)) :=
  OpSet 1 10 0 ::
  flat_map (λ k, [OpSet k (10 * k) 0; OpGet (k - 1) 0]) [2; 3; 4; 5; 6; 7; 8; 9; 10; 11].

(** A key is deleted while its entry is on death row; later sets reuse its
    slot. *)
Definition stale_slot_ops : list (op (V:=Z) (E:=Z)) :=
  demo_sets [1; 2] ++ [OpDelete 1] ++ demo_sets [3; 4; 5; 6; 7; 8; 9; 10; 11].

(** Ten sets evict key 1 for good (it is then in the ghost filters); a
    delete brings the cache below its capacity. *)
Definition ghost_ops : list (op (V:=Z) (E:=Z)) :=
  demo_sets [1; 2; 3; 4; 5; 6; 7; 8; 9; 10] ++ [OpDelete 10].

(** Twenty keys fill a cache of capacity 20, key 1 is read [n] times, key 21
    promotes it to the main queue. *)
Definition promote_ops (n : nat) : list (op (V:=Z) (E:=Z)) :=
  demo_sets (seqZ 1 20) ++ replicate n (OpGet 1 0) ++ demo_sets [21].

(** With capacity 2, keys 1 and 2 are sent to death row, key 2 is read back
    into the main queue, and key 1 is deleted while its entry is on death
    row. *)
Definition nil_head_ops : list (op (V:=Z) (E:=Z)) :=
  demo_sets [1; 2; 3; 4] ++ [OpGet 2 0; OpDelete 1].

(** With capacity 1, key 1 is read back from death row into the main queue
    and key 2 is sent to death row. *)
Definition main_tail_ops : list (op (V:=Z) (E:=Z)) :=
  demo_sets [1; 2] ++ [OpGet 1 0] ++ demo_sets [3].

(** The first shard of a cache. *)
Definition shard0 (c : Cache Z Z) : option (shard Z) := shards (memory c) !! 0%nat.

(** A fresh cache just after a [Fetch] of key 1 has registered its call
    record: the state in which the leader calls the loader. *)
Definition demo_leader : Cache Z Z :=
  set_flights {[1 := 0%nat]} (set_calls [FlightCall 1 0 None] (demo_cache 1)).

(** A store for the examples: a map from keys to values and expiry times.
    It refuses negative keys with error 1 and fails to store negative
    values with error 2. *)
#[export] Instance demo_store : persist.Store (gmap Z (Z * Time)) Z Z := {|
  persist.ValidateKey st k := (st, if k <? 0 then Some 1 else None);
  persist.Get st k :=
    (st, match st !! k with
         | Some (v, t) => (v, t, true, None)
         | None => (0, None, false, None)
         end);
  persist.Set_ st k v t := if v <? 0 then (st, Some 2) else (<[k := (v, t)]> st, None);
  persist.Delete st k := (delete k st, None);
  persist.Flush st := (∅, (Z.of_nat (size st), None));
  persist.Close st := (st, None)
|}.

(** A tiered cache with an empty memory layer of capacity 4 over a store
    that holds key 7. *)
Definition demo_tiered : sfcache.TieredCache (gmap Z (Z * Time)) Z :=
  sfcache.MkTieredCache {[7 := (70, None)]} (newS3FIFO 4 1) 0.


(** Key 1 set with an expiry of 5 ns after the epoch. *)
Definition expiring_ops : list (op (V:=Z) (E:=Z)) := [OpSet 1 10 5].

Definition bytes_of (l : list N) : list Byte.byte := omap Byte.of_N l.

(** The keys [user:0001:profile] and [user:0002:profile]. *)
Definition long_key_a : list Byte.byte :=
  bytes_of [117; 115; 101; 114; 58; 48; 48; 48; 49; 58; 112; 114; 111; 102; 105; 108; 101]%N.
Definition long_key_b : list Byte.byte :=
  bytes_of [117; 115; 101; 114; 58; 48; 48; 48; 50; 58; 112; 114; 111; 102; 105; 108; 101]%N.

(** Two entries that are in no list. *)
Definition demo_heap : list (entry Z) := [new_entry 1 10 0; new_entry 2 20 0].

(** * The intrusive list *)

Section HeapLemmas.
Context {V : Type}.
Implicit Types (h : list (entry V)) (e : entry V) (l : entryList.t).

Lemma modify_Some h p f e :
  h !! p = Some e → modify p f h = Some (<[p := f e]> h).
Proof. intros H. unfold modify. by rewrite H. Qed.

Lemma modify_inv h p f h' :
  modify p f h = Some h' → ∃ e, h !! p = Some e ∧ h' = <[p := f e]> h.
Proof. unfold modify. destruct (h !! p) eqn:?; naive_solver. Qed.

Lemma lookup_insert_heap h p q x e :
  h !! p = Some e →
  <[p := x]> h !! q = if decide (p = q) then Some x else h !! q.
Proof.
  intros H. destruct (decide (p = q)) as [->|Hne].
  - apply list_lookup_insert_eq. by eapply lookup_lt_Some.
  - by apply list_lookup_insert_ne.
Qed.

Lemma strip_fields e e' :
  strip e' = strip e →
  key e' = key e ∧ value e' = value e ∧ hash e' = hash e ∧
  expiryNano e' = expiryNano e ∧ freq e' = freq e ∧ peakFreq e' = peakFreq e ∧
  inSmall e' = inSmall e ∧ onDeathRow e' = onDeathRow e.
Proof. destruct e, e'. unfold strip. simpl. intros [=]. by subst. Qed.

Lemma seg_frame h h' p xs n :
  (∀ x, x ∈ xs → links <$> (h' !! x) = links <$> (h !! x)) →
  seg h p xs n → seg h' p xs n.
Proof.
  revert p. induction xs as [|x xs IH]; intros p Hf; simpl; [done|].
  intros (e & He & Hp & Hn & Hs).
  pose proof (Hf x ltac:(left)) as Hx. rewrite He in Hx.
  destruct (h' !! x) as [e'|] eqn:He'; [|done].
  injection Hx as Hl1 Hl2. exists e'. split_and!; [done|congruence|congruence|].
  apply IH; [|done]. intros y Hy. apply Hf. by right.
Qed.

Lemma seg_lookup h p xs n x :
  seg h p xs n → x ∈ xs → is_Some (h !! x).
Proof.
  revert p. induction xs as [|y xs IH]; intros p; simpl; [by intros _ ?%elem_of_nil|].
  intros (e & He & _ & _ & Hs) [->|Hx]%elem_of_cons; eauto.
Qed.

Lemma seg_app h p xs ys n :
  seg h p (xs ++ ys) n ↔
  seg h p xs (from_option Some n (head ys)) ∧ seg h (from_option Some p (last xs)) ys n.
Proof.
  revert p. induction xs as [|x xs IH]; intros p; simpl; [naive_solver|].
  rewrite last_cons. setoid_rewrite IH.
  assert (from_option Some n (head (xs ++ ys))
          = from_option Some (from_option Some n (head ys)) (head xs)) as -> by by destruct xs.
  assert (from_option Some p (match last xs with Some y => Some y | None => Some x end)
          = from_option Some (Some x) (last xs)) as -> by by destruct (last xs).
  naive_solver.
Qed.

(** Redirecting the successor of the last entry of a segment. *)
Lemma seg_set_last_next h p xs x n n' ex :
  NoDup (xs ++ [x]) → h !! x = Some ex →
  seg h p (xs ++ [x]) n →
  seg (<[x := set_next n' ex]> h) p (xs ++ [x]) n'.
Proof.
  intros Hnd Hx. rewrite !seg_app. simpl. intros [Hs (e & He & Hp & Hn & _)].
  apply NoDup_app in Hnd as (_ & Hdisj & _).
  split.
  - eapply seg_frame; [|done]. intros y Hy.
    rewrite list_lookup_insert_ne; [done|]. intros ->. eapply Hdisj; [done|]. by left.
  - exists (set_next n' ex). rewrite (lookup_insert_heap _ _ _ _ _ Hx).
    rewrite decide_True by done. simplify_eq. by destruct ex.
Qed.

(** Redirecting the predecessor of the first entry of a segment. *)
Lemma seg_set_first_prev h p p' x xs n ex :
  NoDup (x :: xs) → h !! x = Some ex →
  seg h p (x :: xs) n →
  seg (<[x := set_prev p' ex]> h) p' (x :: xs) n.
Proof.
  intros Hnd Hx. simpl. intros (e & He & Hp & Hn & Hs).
  apply NoDup_cons in Hnd as [Hnin _].
  exists (set_prev p' ex). rewrite (lookup_insert_heap _ _ _ _ _ Hx).
  rewrite decide_True by done. simplify_eq. split_and!; [done|by destruct ex|by destruct ex|].
  eapply seg_frame; [|done]. intros y Hy.
  rewrite list_lookup_insert_ne; [done|]. by intros ->.
Qed.
End HeapLemmas.

Section ListOps.
Context {V : Type}.
Implicit Types (h : list (entry V)) (e : ptr) (l : entryList.t).

Lemma modify_links h p f h' :
  modify p f h = Some h' → (∀ x, strip (f x) = strip x) →
  (∀ q, strip <$> (h' !! q) = strip <$> (h !! q)) ∧ (∀ q, q ≠ p → h' !! q = h !! q).
Proof.
  intros (x & Hx & ->)%modify_inv Hf. split; intros q.
  - rewrite (lookup_insert_heap _ _ _ _ _ Hx). case_decide; [|done].
    subst. rewrite Hx. simpl. by rewrite Hf.
  - intros ?. by rewrite list_lookup_insert_ne.
Qed.

Lemma strip_set_prev (x : entry V) p : strip (set_prev p x) = strip x.
Proof. by destruct x. Qed.

Lemma strip_set_next (x : entry V) p : strip (set_next p x) = strip x.
Proof. by destruct x. Qed.

Lemma pushBack_strip h l e h' l' :
  entryList.pushBack h l e = Some (h', l') →
  ∀ p, strip <$> (h' !! p) = strip <$> (h !! p).
Proof.
  unfold entryList.pushBack. intros H p. simplify_option_eq.
  repeat match goal with
         | H : modify _ _ _ = Some _ |- _ =>
             apply modify_links in H as [H _];
             [|intros; first [apply strip_set_prev|apply strip_set_next]]
         end.
  destruct (entryList.tail l); simplify_option_eq;
    repeat match goal with
           | H : modify _ _ _ = Some _ |- _ =>
               apply modify_links in H as [H _];
               [|intros; first [apply strip_set_prev|apply strip_set_next]]
           end; congruence.
Qed.

Lemma pushBack_untouched h l e h' l' :
  entryList.pushBack h l e = Some (h', l') →
  ∀ p, p ≠ e → Some p ≠ entryList.tail l → h' !! p = h !! p.
Proof.
  unfold entryList.pushBack. intros H p Hpe Hpt. simplify_option_eq.
  destruct (entryList.tail l) as [t|]; simplify_option_eq;
    repeat match goal with
           | H : modify _ _ _ = Some _ |- _ =>
               apply modify_inv in H as (? & _ & ->)
           end;
    rewrite ?list_lookup_insert_ne by congruence; done.
Qed.

Lemma remove_strip h l e h' l' :
  entryList.remove h l e = Some (h', l') →
  ∀ p, strip <$> (h' !! p) = strip <$> (h !! p).
Proof.
  unfold entryList.remove. intros H p. simplify_option_eq.
  repeat match goal with
         | H : context [match ?x with Some _ => _ | None => _ end] |- _ =>
             destruct x; simplify_option_eq
         end;
  repeat match goal with
         | H : modify _ _ _ = Some _ |- _ =>
             apply modify_links in H as [H _];
             [|intros; first [apply strip_set_prev|apply strip_set_next]]
         end; congruence.
Qed.

Lemma remove_untouched h l e h' l' (e0 : entry V) :
  entryList.remove h l e = Some (h', l') → h !! e = Some e0 →
  ∀ p, p ≠ e → Some p ≠ prev e0 → Some p ≠ next e0 → h' !! p = h !! p.
Proof.
  unfold entryList.remove. intros H He p Hpe Hpp Hpn. rewrite He in H. simpl in H.
  apply bind_Some in H as ([h1 hd] & H1 & H).
  apply bind_Some in H as (e1 & He1 & H).
  apply bind_Some in H as ([h2 tl] & H2 & H).
  apply bind_Some in H as (h3 & H3 & H).
  apply bind_Some in H as (h4 & H4 & H).
  injection H as <- <-.
  assert (h1 !! p = h !! p ∧ h1 !! e = Some e0) as [Hp1 He1'].
  { destruct (prev e0) as [q|]; simplify_option_eq; [|done].
    match goal with H : modify q _ _ = Some _ |- _ =>
      apply modify_inv in H as (x & Hx & ->) end.
    split; [apply list_lookup_insert_ne; congruence|].
    rewrite (lookup_insert_heap _ _ _ _ _ Hx). case_decide; [|done].
    subst. simplify_eq. f_equal. match goal with |- _ = ?z => by destruct z end. }
  rewrite He1' in He1. injection He1 as <-.
  assert (h2 !! p = h1 !! p) as Hp2.
  { destruct (next e0) as [n|]; simplify_option_eq; [|done].
    match goal with H : modify n _ _ = Some _ |- _ =>
      apply modify_inv in H as (x & Hx & ->) end.
    apply list_lookup_insert_ne; congruence. }
  apply modify_inv in H3 as (? & _ & ->). apply modify_inv in H4 as (? & _ & ->).
  rewrite !list_lookup_insert_ne by done. congruence.
Qed.
End ListOps.

Section ListSpecs.
Context {V : Type}.
Implicit Types (h : list (entry V)) (l : entryList.t).

Lemma pushBack_dll h l xs e :
  dll h l xs → e ∉ xs → is_Some (h !! e) →
  ∃ h' l', entryList.pushBack h l e = Some (h', l') ∧ dll h' l' (xs ++ [e]).
Proof.
  intros (Hlen & Hhd & Htl & Hnd & Hseg) Hnin [ee Hee].
  unfold entryList.pushBack. rewrite Htl.
  rewrite (modify_Some _ _ _ _ Hee). simpl.
  assert (<[e:=set_prev (last xs) ee]> h !! e = Some (set_prev (last xs) ee)) as H1
    by (apply list_lookup_insert_eq; by eapply lookup_lt_Some).
  rewrite (modify_Some _ _ _ _ H1). simpl. rewrite list_insert_insert_eq.
  set (ee' := set_next None (set_prev (last xs) ee)).
  assert (<[e:=ee']> h !! e = Some ee') as He'
    by (apply list_lookup_insert_eq; by eapply lookup_lt_Some).
  assert (seg (<[e := ee']> h) None xs None) as Hseg2.
  { eapply seg_frame; [|done]. intros y Hy.
    rewrite list_lookup_insert_ne; [done|]. by intros ->. }
  assert (NoDup (xs ++ [e])) as Hnd'.
  { apply NoDup_app. split_and!; [done| |apply NoDup_singleton].
    intros x Hx ->%list_elem_of_singleton. done. }
  destruct (last xs) as [t|] eqn:Hlast.
  - apply last_Some in Hlast as [xs' ->].
    assert (t ≠ e) as Hte by (intros ->; apply Hnin; set_solver).
    destruct (seg_lookup _ _ _ _ t Hseg2) as [et Het]; [set_solver|].
    rewrite (modify_Some _ _ _ _ Het). simpl.
    eexists _, _. split; [done|].
    split_and!; simpl; [| | |done|].
    + rewrite Hlen, !length_app. simpl. lia.
    + rewrite Hhd. by destruct xs'.
    + by rewrite last_snoc.
    + apply seg_app. simpl. split.
      * eapply seg_set_last_next; done.
      * exists ee'. rewrite list_lookup_insert_ne by done. rewrite He'.
        rewrite last_snoc. done.
  - apply last_None in Hlast as ->. simpl.
    eexists _, _. split; [done|].
    split_and!; simpl; [by rewrite Hlen|done|done|done|].
    exists ee'. by rewrite He'.
Qed.

Lemma remove_dll h l (l1 : list ptr) e (l2 : list ptr) :
  dll h l (l1 ++ e :: l2) →
  ∃ h' l' e0, entryList.remove h l e = Some (h', l') ∧ dll h' l' (l1 ++ l2)
    ∧ h !! e = Some e0 ∧ prev e0 = last l1 ∧ next e0 = head l2.
Proof.
  intros (Hlen & Hhd & Htl & Hnd & Hseg).
  apply seg_app in Hseg as [Hs1 Hs2]. simpl in Hs1, Hs2.
  destruct Hs2 as (e0 & He0 & Hp0 & Hn0 & Hs2).
  assert (from_option Some None (last l1) = last l1) as Hfl by by destruct (last l1).
  assert (from_option Some None (head l2) = head l2) as Hfh by by destruct (head l2).
  rewrite Hfl in Hp0. rewrite Hfh in Hn0.
  apply NoDup_app in Hnd as (Hnd1 & Hdisj & [Hnin2 Hnd2]%NoDup_cons).
  assert (e ∉ l1) as Hnin1 by (intros ?; eapply Hdisj; [done|by left]).
  assert (∀ x, x ∈ l1 → x ∉ l2) as Hdisj12
    by (intros x Hx ?; eapply Hdisj; [done|by right]).
  unfold entryList.remove. rewrite He0. simpl. rewrite Hp0, Hn0.
  (* first step: the predecessor *)
  assert (∃ h1, match last l1 with
                | Some p => h' ← modify p (set_next (head l2)) h; Some (h', entryList.head l)
                | None => Some (h, head l2)
                end = Some (h1, head (l1 ++ l2))
                ∧ seg h1 None l1 (head l2) ∧ seg h1 (Some e) l2 None
                ∧ h1 !! e = Some e0) as (h1 & -> & Hs1' & Hs2' & He1).
  { destruct (last l1) as [p|] eqn:Hlast.
    - apply last_Some in Hlast as [l1' ->].
      assert (p ≠ e) as Hpe by (intros ->; apply Hnin1; set_solver).
      destruct (seg_lookup _ _ _ _ p Hs1) as [ep Hep]; [set_solver|].
      rewrite (modify_Some _ _ _ _ Hep). simpl. eexists. split_and!.
      + rewrite Hhd. by destruct l1'.
      + eapply seg_set_last_next; done.
      + eapply seg_frame; [|done]. intros y Hy.
        rewrite list_lookup_insert_ne; [done|]. intros ->.
        eapply Hdisj12; [|done]. set_solver.
      + by rewrite list_lookup_insert_ne.
    - apply last_None in Hlast as ->. simpl. eexists. split_and!; done. }
  simpl. rewrite He1. simpl. rewrite Hp0, Hn0.
  (* second step: the successor *)
  assert (∃ h2, match head l2 with
                | Some n => h' ← modify n (set_prev (last l1)) h1; Some (h', entryList.tail l)
                | None => Some (h1, last l1)
                end = Some (h2, last (l1 ++ l2))
                ∧ seg h2 None l1 (head l2) ∧ seg h2 (last l1) l2 None
                ∧ is_Some (h2 !! e)) as (h2 & -> & Hs1'' & Hs2'' & [e2 He2]).
  { destruct l2 as [|n l2']; simpl.
    - eexists. split_and!; [by rewrite app_nil_r|done|done|eauto].
    - assert (n ≠ e) as Hne by (intros ->; apply Hnin2; by left).
      destruct (seg_lookup _ _ _ _ n Hs2') as [en Hen]; [by left|].
      rewrite (modify_Some _ _ _ _ Hen). simpl. eexists. split_and!.
      + rewrite Htl. rewrite !last_app. simpl.
        destruct (last l2') eqn:?; [done|].
        by rewrite last_cons, Heqo.
      + eapply seg_frame; [|done]. intros y Hy.
        rewrite list_lookup_insert_ne; [done|]. intros ->.
        eapply Hdisj12; [done|by left].
      + eapply seg_set_first_prev; done.
      + rewrite list_lookup_insert_ne by done. eauto. }
  simpl. rewrite (modify_Some _ _ _ _ He2). simpl.
  assert (<[e:=set_prev None e2]> h2 !! e = Some (set_prev None e2)) as He3
    by (apply list_lookup_insert_eq; by eapply lookup_lt_Some).
  rewrite (modify_Some _ _ _ _ He3). simpl. rewrite list_insert_insert_eq.
  eexists _, _, _. split; [done|]. split; [|done].
  split_and!; simpl.
  - rewrite Hlen, !length_app. simpl. lia.
  - done.
  - done.
  - apply NoDup_app. done.
  - apply seg_app. split.
    + assert (from_option Some None (head l2) = head l2) as -> by by destruct (head l2).
      eapply seg_frame; [|done]. intros y Hy.
      rewrite list_lookup_insert_ne; [done|]. by intros ->.
    + assert (from_option Some None (last l1) = last l1) as -> by by destruct (last l1).
      eapply seg_frame; [|done]. intros y Hy.
      rewrite list_lookup_insert_ne; [done|]. by intros ->.
Qed.
End ListSpecs.

(** * Steps of the shard operations on a well-formed shard *)

Section DataLemmas.
Context {V : Type}.
Implicit Types (h : list (entry V)) (s : shard V).

Lemma dat_Some h p d : dat h p = Some d → ∃ e, h !! p = Some e ∧ d = strip e.
Proof. unfold dat. destruct (h !! p); naive_solver. Qed.

Lemma dat_lookup h p e : h !! p = Some e → dat h p = Some (strip e).
Proof. unfold dat. by intros ->. Qed.

Lemma dat_insert h p q x e :
  h !! p = Some e →
  dat (<[p := x]> h) q = if decide (q = p) then Some (strip x) else dat h q.
Proof.
  intros H. unfold dat. rewrite (lookup_insert_heap _ _ _ _ _ H).
  repeat case_decide; naive_solver.
Qed.

Lemma seg_insert_data h p e x a xs n :
  h !! p = Some e → links x = links e → seg h a xs n → seg (<[p := x]> h) a xs n.
Proof.
  intros H Hl. apply seg_frame. intros y _.
  rewrite (lookup_insert_heap _ _ _ _ _ H). case_decide; [|done].
  subst. rewrite H. simpl. by rewrite Hl.
Qed.

Lemma dll_insert_data h l p e x xs :
  h !! p = Some e → links x = links e → dll h l xs → dll (<[p := x]> h) l xs.
Proof.
  intros H Hl (? & ? & ? & ? & ?). split_and!; try done. by eapply seg_insert_data.
Qed.

Lemma dll_frame h h' l xs :
  (∀ p, p ∈ xs → h' !! p = h !! p) → dll h l xs → dll h' l xs.
Proof.
  intros Hf (? & ? & ? & ? & ?). split_and!; try done.
  eapply seg_frame; [|done]. intros x Hx. by rewrite Hf.
Qed.

Lemma dll_app_heap h l xs e : dll h l xs → dll (h ++ [e]) l xs.
Proof.
  intros (? & ? & ? & ? & Hs). split_and!; try done.
  eapply seg_frame; [|done]. intros x Hx.
  destruct (seg_lookup _ _ _ _ x Hs Hx) as [y Hy].
  by rewrite (lookup_app_l_Some _ _ _ _ Hy), Hy.
Qed.

Lemma dll_lookup h l xs x : dll h l xs → x ∈ xs → is_Some (h !! x).
Proof. intros (? & ? & ? & ? & Hs). by eapply seg_lookup. Qed.

Lemma dll_len h l xs : dll h l xs → entryList.len l = Z.of_nat (length xs).
Proof. by intros (? & _). Qed.

Lemma dll_head h l xs : dll h l xs → entryList.head l = head xs.
Proof. by intros (_ & ? & _). Qed.

Lemma dll_tail h l xs : dll h l xs → entryList.tail l = last xs.
Proof. by intros (_ & _ & ? & _). Qed.

Lemma dll_NoDup h l xs : dll h l xs → NoDup xs.
Proof. by intros (_ & _ & _ & ? & _). Qed.
End DataLemmas.

Section DeathRowLemmas.
Implicit Types (d : list (option ptr)).

Lemma elem_of_occupants d p : p ∈ occupants d ↔ Some p ∈ d.
Proof.
  unfold occupants. rewrite list_elem_of_omap. split.
  - intros (x & Hx & Hp). simpl in Hp. by subst.
  - intros H. by exists (Some p).
Qed.

Lemma occupants_insert d i x e :
  d !! i = Some x →
  occupants (<[i := Some e]> d) ≡ₚ e :: occupants (<[i := None]> d) ∧
  occupants d ≡ₚ from_option (λ o, [o]) [] x ++ occupants (<[i := None]> d).
Proof.
  intros H. pose proof (lookup_lt_Some _ _ _ H) as Hlt.
  pose proof (take_drop_middle _ _ _ H) as Hd.
  assert (length (take i d) = i) as Hl by (rewrite length_take; lia).
  revert Hd Hl. generalize (take i d) (drop (S i) d). intros l1 l2 <- <-.
  rewrite !insert_app_r_alt by lia. rewrite Nat.sub_diag. simpl.
  unfold occupants. rewrite !omap_app. simpl. split.
  - by rewrite Permutation_middle.
  - destruct x; simpl; [|done]. by rewrite Permutation_middle.
Qed.

Lemma clear_slot_insert d p :
  Some p ∈ d → ∃ i, d !! i = Some (Some p) ∧ clear_slot p d = <[i := None]> d.
Proof.
  induction d as [|x d IH]; [by intros ?%elem_of_nil|].
  intros Hin. simpl. case_bool_decide as Hx.
  - subst. by exists 0%nat.
  - apply elem_of_cons in Hin as [?|Hin]; [congruence|].
    destruct (IH Hin) as (i & Hi & ->). by exists (S i).
Qed.

Lemma length_clear_slot d p : length (clear_slot p d) = length d.
Proof.
  induction d as [|x d IH]; [done|]. simpl. case_bool_decide; simpl; by rewrite ?IH.
Qed.
End DeathRowLemmas.

Section Primitives.
Context {V : Type}.
Implicit Types (s : shard V) (xs ms F : list ptr).

Lemma inv_disjoint s xs ms F p :
  shard_inv s xs ms F → p ∈ xs → p ∉ ms.
Proof.
  intros [inv_small inv_main inv_dr_len inv_dr_pos inv_dr_uniq inv_float inv_map
          inv_member inv_flag_small inv_flag_main inv_flag_dr inv_size] Hx Hm.
  destruct (inv_member p) as (d & Hd & _); [unfold members; set_solver|].
  destruct (inv_flag_small _ _ Hx Hd) as [? _].
  destruct (inv_flag_main _ _ Hm Hd) as [? _]. congruence.
Qed.

Lemma inv_disjoint_dr s xs ms F p :
  shard_inv s xs ms F → p ∈ occupants (deathRow s) → (p ∉ xs) ∧ (p ∉ ms).
Proof.
  intros [inv_small inv_main inv_dr_len inv_dr_pos inv_dr_uniq inv_float inv_map
          inv_member inv_flag_small inv_flag_main inv_flag_dr inv_size] Hp.
  destruct (inv_member p) as (d & Hd & _); [unfold members; set_solver|].
  pose proof (inv_flag_dr _ _ Hp Hd).
  split; intros Hin.
  - destruct (inv_flag_small _ _ Hin Hd). congruence.
  - destruct (inv_flag_main _ _ Hin Hd). congruence.
Qed.

(** Taking an entry out of its queue. *)
Lemma inv_q_remove s q xs ms F l1 e l2 :
  shard_inv s xs ms F → qsel q xs ms = l1 ++ e :: l2 →
  ∃ s', q_remove q e s = Some s'
    ∧ shard_inv s' (qsel q (l1 ++ l2) xs) (qsel q ms (l1 ++ l2)) (e :: F)
    ∧ (∀ p, dat (heap s') p = dat (heap s) p)
    ∧ rest s' = rest s.
Proof.
  intros Hinv Hq.
  assert (∀ p, p ∈ xs → p ∉ ms) as Hdisj by (intros; by eapply inv_disjoint).
  assert (∀ p, p ∈ occupants (deathRow s) → (p ∉ xs) ∧ (p ∉ ms)) as Hdisjd
    by (intros; by eapply inv_disjoint_dr).
  destruct Hinv as [Hs Hm Hdl Hdp Hdu [HFnd HF] Hmap Hmem Hfs Hfm Hfd Hsz].
  assert (dll (heap s) (getq q s) (l1 ++ e :: l2)) as Hdll
    by (destruct q; simpl in *; by subst).
  destruct (remove_dll _ _ _ _ _ Hdll) as (h' & l' & e0 & Hrem & Hdll' & He0 & Hp0 & Hn0).
  assert (∀ p, dat h' p = dat (heap s) p) as Hstrip
    by (intros p; unfold dat; by eapply remove_strip).
  assert (∀ p, p ∉ l1 ++ e :: l2 → h' !! p = heap s !! p) as Hunt.
  { intros p Hp. eapply remove_untouched; [done..| | |].
    - intros ->. apply Hp. set_solver.
    - rewrite Hp0. intros Hl%eq_sym%last_Some_elem_of. apply Hp. set_solver.
    - rewrite Hn0. intros Hl%eq_sym%head_Some_elem_of. apply Hp. set_solver. }
  assert (NoDup (l1 ++ e :: l2)) as Hnd by by eapply dll_NoDup.
  assert (e ∉ l1 ++ l2) as Hnin.
  { apply NoDup_app in Hnd as (? & Hd & [? ?]%NoDup_cons).
    intros [?|?]%elem_of_app; [|done]. eapply Hd; [done|by left]. }
  exists (setq q l' (set_heap h' s)). split; [|split; [|split]].
  - unfold q_remove. by rewrite Hrem.
  - destruct q; simpl in *; subst.
    + split; simpl; try done.
      * eapply dll_frame; [|done]. intros p Hp. apply Hunt. intros ?. by eapply Hdisj.
      * split; [apply NoDup_cons; split; [|done]|].
        -- intros HeF. destruct (HF _ HeF) as [Hx _]. apply Hx. set_solver.
        -- intros p [->|Hp]%elem_of_cons; [|destruct (HF _ Hp) as (?&?&?); set_solver].
           split_and!; [done|apply Hdisj; set_solver|].
           intros Hd. destruct (Hdisjd _ Hd) as [Hx _]. apply Hx. set_solver.
      * intros k p Hk. destruct (Hmap _ _ Hk) as (d & Hd & Hkey & Hin).
        exists d. rewrite Hstrip. split_and!; [done..|].
        unfold members in *. simpl. set_solver.
      * intros p Hin. destruct (Hmem p) as (d & Hd & Hk).
        { unfold members in *. simpl in *. set_solver. }
        exists d. by rewrite Hstrip.
      * intros p d Hp. rewrite Hstrip. apply Hfs. set_solver.
      * intros p d Hp. rewrite Hstrip. by apply Hfm.
      * intros p d Hp. rewrite Hstrip. by apply Hfd.
      * rewrite Hsz. unfold members. repeat first [rewrite length_app | progress simpl]. lia.
    + split; simpl; try done.
      * eapply dll_frame; [|done]. intros p Hp. apply Hunt. intros ?. by eapply Hdisj.
      * split; [apply NoDup_cons; split; [|done]|].
        -- intros HeF. destruct (HF _ HeF) as (_ & Hx & _). apply Hx. set_solver.
        -- intros p [->|Hp]%elem_of_cons; [|destruct (HF _ Hp) as (?&?&?); set_solver].
           split_and!; [intros ?; eapply Hdisj; [done|set_solver]|done|].
           intros Hd. destruct (Hdisjd _ Hd) as [_ Hx]. apply Hx. set_solver.
      * intros k p Hk. destruct (Hmap _ _ Hk) as (d & Hd & Hkey & Hin).
        exists d. rewrite Hstrip. split_and!; [done..|].
        unfold members in *. simpl. set_solver.
      * intros p Hin. destruct (Hmem p) as (d & Hd & Hk).
        { unfold members in *. simpl in *. set_solver. }
        exists d. by rewrite Hstrip.
      * intros p d Hp. rewrite Hstrip. by apply Hfs.
      * intros p d Hp. rewrite Hstrip. apply Hfm. set_solver.
      * intros p d Hp. rewrite Hstrip. by apply Hfd.
      * rewrite Hsz. unfold members. repeat first [rewrite length_app | progress simpl]. lia.
  - intros p. destruct q; simpl; apply Hstrip.
  - by destruct q.
Qed.

(** Putting an entry that is in no queue at the tail of a queue. *)
Lemma inv_q_pushBack s q xs ms F e d :
  shard_inv s xs ms (e :: F) → dat (heap s) e = Some d →
  inSmall d = qsel q true false → onDeathRow d = false →
  ∃ s', q_pushBack q e s = Some s'
    ∧ shard_inv s' (qsel q (xs ++ [e]) xs) (qsel q ms (ms ++ [e])) F
    ∧ (∀ p, dat (heap s') p = dat (heap s) p)
    ∧ rest s' = rest s.
Proof.
  intros Hinv Hde Hfl Hdr.
  assert (∀ p, p ∈ xs → p ∉ ms) as Hdisj by (intros; by eapply inv_disjoint).
  destruct Hinv as [Hs Hm Hdl Hdp Hdu [HFnd HF] Hmap Hmem Hfs Hfm Hfd Hsz].
  destruct (HF e ltac:(by left)) as (Hex & Hem & Hed).
  apply NoDup_cons in HFnd as [HeF HFnd].
  assert (dll (heap s) (getq q s) (qsel q xs ms)) as Hdll by by destruct q.
  assert (e ∉ qsel q xs ms) as Heq by by destruct q.
  destruct (dat_Some _ _ _ Hde) as (e0 & He0 & ->).
  destruct (pushBack_dll _ _ _ e Hdll Heq) as (h' & l' & Hpush & Hdll'); [by eauto|].
  assert (∀ p, dat h' p = dat (heap s) p) as Hstrip
    by (intros p; unfold dat; by eapply pushBack_strip).
  assert (∀ p, p ≠ e → p ∉ qsel q xs ms → h' !! p = heap s !! p) as Hunt.
  { intros p Hp Hpq. eapply pushBack_untouched; [done..|].
    rewrite (dll_tail _ _ _ Hdll). intros Hl%eq_sym%last_Some_elem_of. done. }
  exists (setq q l' (set_heap h' s)). split; [|split; [|split]].
  - unfold q_pushBack. by rewrite Hpush.
  - destruct q; simpl in *; subst.
    + split; simpl; try done.
      * eapply dll_frame; [|done]. intros p Hp. apply Hunt; [by intros ->|].
        intros ?. by eapply Hdisj.
      * split; [done|]. intros p Hp. destruct (HF p) as (?&?&?); [by right|].
        split_and!; [|done..]. intros [?| ->%list_elem_of_singleton]%elem_of_app; done.
      * intros k p Hk. destruct (Hmap _ _ Hk) as (d & Hd & Hkey & Hin).
        exists d. rewrite Hstrip. split_and!; [done..|].
        unfold members in *. simpl. set_solver.
      * intros p Hin. destruct (Hmem p) as (d & Hd & Hk).
        { unfold members in *. simpl in *. set_solver. }
        exists d. by rewrite Hstrip.
      * intros p d Hp. rewrite Hstrip.
        apply elem_of_app in Hp as [?| ->%list_elem_of_singleton]; [by apply Hfs|].
        rewrite Hde. intros [= <-]. done.
      * intros p d Hp. rewrite Hstrip. by apply Hfm.
      * intros p d Hp. rewrite Hstrip. by apply Hfd.
      * rewrite Hsz. unfold members. repeat first [rewrite length_app | progress simpl]. lia.
    + split; simpl; try done.
      * eapply dll_frame; [|done]. intros p Hp. apply Hunt; [by intros ->|].
        by eapply Hdisj.
      * split; [done|]. intros p Hp. destruct (HF p) as (?&?&?); [by right|].
        split_and!; [done| |done]. intros [?| ->%list_elem_of_singleton]%elem_of_app; done.
      * intros k p Hk. destruct (Hmap _ _ Hk) as (d & Hd & Hkey & Hin).
        exists d. rewrite Hstrip. split_and!; [done..|].
        unfold members in *. simpl. set_solver.
      * intros p Hin. destruct (Hmem p) as (d & Hd & Hk).
        { unfold members in *. simpl in *. set_solver. }
        exists d. by rewrite Hstrip.
      * intros p d Hp. rewrite Hstrip. by apply Hfs.
      * intros p d Hp. rewrite Hstrip.
        apply elem_of_app in Hp as [?| ->%list_elem_of_singleton]; [by apply Hfm|].
        rewrite Hde. intros [= <-]. done.
      * intros p d Hp. rewrite Hstrip. by apply Hfd.
      * rewrite Hsz. unfold members. repeat first [rewrite length_app | progress simpl]. lia.
  - intros p. destruct q; simpl; apply Hstrip.
  - by destruct q.
Qed.

Lemma data_fn_set_value (v : V) : data_fn (set_value v).
Proof. by intros []. Qed.
Lemma data_fn_set_expiryNano x : data_fn (V:=V) (set_expiryNano x).
Proof. by intros []. Qed.
Lemma data_fn_set_freq x : data_fn (V:=V) (set_freq x).
Proof. by intros []. Qed.
Lemma data_fn_set_peakFreq x : data_fn (V:=V) (set_peakFreq x).
Proof. by intros []. Qed.
Lemma data_fn_set_inSmall x : data_fn (V:=V) (set_inSmall x).
Proof. by intros []. Qed.
Lemma data_fn_set_onDeathRow x : data_fn (V:=V) (set_onDeathRow x).
Proof. by intros []. Qed.
Lemma data_fn_bump : data_fn (V:=V) bump.
Proof.
  intros [k v p n h x f pk i o]. unfold bump. simpl.
  destruct (f <? maxFreq)%N; [|done]. by destruct (pk <? _)%N.
Qed.

(** A store through an entry pointer. *)
Lemma inv_modify s xs ms F p f d :
  shard_inv s xs ms F → dat (heap s) p = Some d → data_fn f →
  (p ∈ xs ++ ms ++ occupants (deathRow s) →
   inSmall (f d) = inSmall d ∧ onDeathRow (f d) = onDeathRow d) →
  ∃ s', modify_entry p f s = Some s' ∧ shard_inv s' xs ms F
    ∧ (∀ q, dat (heap s') q = if decide (q = p) then Some (f d) else dat (heap s) q)
    ∧ rest s' = rest s ∧ small s' = small s ∧ main s' = main s.
Proof.
  intros [Hs Hm Hdl Hdp Hdu [HFnd HF] Hmap Hmem Hfs Hfm Hfd Hsz] Hd Hf Hflags.
  destruct (dat_Some _ _ _ Hd) as (e0 & He0 & ->).
  destruct (Hf e0) as (Hl & Hst & Hk). destruct (Hf (strip e0)) as (_ & _ & Hk').
  exists (set_heap (<[p := f e0]> (heap s)) s).
  assert (∀ q, dat (<[p := f e0]> (heap s)) q
               = if decide (q = p) then Some (f (strip e0)) else dat (heap s) q) as Hdat.
  { intros q. rewrite (dat_insert _ _ _ _ _ He0). by rewrite Hst. }
  split; [|split; [|split]]; [| |done|done].
  - unfold modify_entry. by rewrite (modify_Some _ _ _ _ He0).
  - split; simpl; try done.
    + by eapply dll_insert_data.
    + by eapply dll_insert_data.
    + intros k q Hq. destruct (Hmap _ _ Hq) as (d & Hd' & Hkey & Hin).
      rewrite Hdat. case_decide; [|by eauto]. subst q.
      eexists. split; [done|]. split; [|done]. rewrite Hd in Hd'. simplify_eq. by rewrite Hk'.
    + intros q Hq. destruct (Hmem _ Hq) as (d & Hd' & Hkey).
      rewrite Hdat. case_decide; [|by eauto]. subst q.
      eexists. split; [done|]. rewrite Hd in Hd'. simplify_eq. by rewrite Hk'.
    + intros q d Hq. rewrite Hdat. case_decide; [|by apply Hfs]. subst q.
      intros [= <-]. destruct Hflags as [-> ->]; [set_solver|]. by apply (Hfs p).
    + intros q d Hq. rewrite Hdat. case_decide; [|by apply Hfm]. subst q.
      intros [= <-]. destruct Hflags as [-> ->]; [set_solver|]. by apply (Hfm p).
    + intros q d Hq. rewrite Hdat. case_decide; [|by apply Hfd]. subst q.
      intros [= <-]. destruct Hflags as [_ ->]; [set_solver|]. by apply (Hfd p).
Qed.
End Primitives.

(** * Death row *)

Section DeathRow.
Context {V : Type} `{!Env V}.
Implicit Types (s : shard V) (xs ms F : list ptr).
Local Arguments Nat.modulo : simpl never.

Lemma shard_inv_core s s' xs ms F :
  core s' = core s → shard_inv s xs ms F → shard_inv s' xs ms F.
Proof.
  unfold core. intros [= Hh He Hs Hm Hd Hp] [].
  split; unfold members in *; rewrite ?Hh, ?He, ?Hs, ?Hm, ?Hd, ?Hp; done.
Qed.

Lemma addToGhost_core h pk s : core (addToGhost h pk s) = core s.
Proof.
  unfold addToGhost.
  destruct (negb _); simpl; destruct (_ <=? _); done.
Qed.

Lemma addToGhost_static h pk s :
  capacity (addToGhost h pk s) = capacity s
  ∧ smallThresh (addToGhost h pk s) = smallThresh s
  ∧ ghostCap (addToGhost h pk s) = ghostCap s
  ∧ warmupComplete (addToGhost h pk s) = warmupComplete s.
Proof.
  unfold addToGhost.
  destruct (negb _); simpl; destruct (_ <=? _); done.
Qed.

(** An entry that is in no queue goes to the ring; the entry whose slot it
    takes leaves the shard. *)
Lemma inv_sendToDeathRow s xs ms F e tot :
  shard_inv s xs ms (e :: F) →
  ∃ s', sendToDeathRow e s tot = Some (s', tot - 1) ∧ shard_inv s' xs ms F
    ∧ small s' = small s ∧ main s' = main s
    ∧ (∀ p, set_onDeathRow false <$> dat (heap s') p
            = set_onDeathRow false <$> dat (heap s) p)
    ∧ (∀ p, p ∉ members s xs ms (e :: F) → dat (heap s') p = dat (heap s) p)
    ∧ entries s' ⊆ entries s
    ∧ (∀ p, p ∈ occupants (deathRow s') → p = e ∨ p ∈ occupants (deathRow s))
    ∧ capacity s' = capacity s
    ∧ deathRow s' = <[deathRowPos s := Some e]> (deathRow s).
Proof.
  intros Hinv.
  assert (∀ p, p ∈ occupants (deathRow s) → (p ∉ xs) ∧ (p ∉ ms)) as Hdisjd
    by (intros; by eapply inv_disjoint_dr).
  destruct Hinv as [Hs Hm Hdl Hdp Hdu [HFnd HF] Hmap Hmem Hfs Hfm Hfd Hsz].
  destruct (HF e ltac:(by left)) as (Hex & Hem & Hed).
  apply NoDup_cons in HFnd as [HeF HFnd].
  destruct (lookup_lt_is_Some_2 (deathRow s) (deathRowPos s)) as [old Hold];
    [by rewrite Hdl|].
  destruct (occupants_insert _ _ _ e Hold) as [Hocc' Hocc].
  destruct (Hmem e) as (de & Hde & Hke); [unfold members; set_solver|].
  destruct (dat_Some _ _ _ Hde) as (ee & Hee & ->).
  assert (((deathRowPos s + 1) mod deathRowSize < deathRowSize)%nat) as Hpos'
    by (apply Nat.mod_upper_bound; done).
  unfold sendToDeathRow. rewrite Hold. simpl.
  destruct old as [o|]; simpl in Hocc.
  - (* the slot is taken: its entry is evicted *)
    assert (o ∈ occupants (deathRow s)) as Ho by (rewrite Hocc; by left).
    destruct (Hmem o) as (do & Hdo & Hko); [unfold members; set_solver|].
    destruct (dat_Some _ _ _ Hdo) as (oe & Hoe & ->).
    assert (o ≠ e) as Hoe' by (intros ->; done).
    assert (key (strip oe) = key oe) as Hkoe by by destruct oe.
    rewrite Hkoe in Hko.
    rewrite Hoe. simpl.
    set (s1 := addToGhost (hash oe) (peakFreq oe)
                 (set_entries (delete (key oe) (entries s)) s)).
    assert (core s1 = (heap s, delete (key oe) (entries s), small s, main s,
                       deathRow s, deathRowPos s)) as Hc1
      by (unfold s1; by rewrite addToGhost_core).
    injection Hc1 as Hh1 He1 Hs1 Hm1 Hd1 Hp1.
    unfold modify_entry at 2. rewrite Hh1. rewrite (modify_Some _ _ _ _ Hoe). simpl.
    unfold modify_entry. simpl.
    assert (<[o:=set_onDeathRow false oe]> (heap s) !! e = Some ee) as Hee'
      by by rewrite list_lookup_insert_ne.
    rewrite (modify_Some _ _ _ _ Hee'). simpl.
    eexists. split; [done|].
    assert (∀ p, dat (<[e:=set_onDeathRow true ee]> (<[o:=set_onDeathRow false oe]> (heap s))) p
                 = if decide (p = e) then Some (set_onDeathRow true (strip ee))
                   else if decide (p = o) then Some (set_onDeathRow false (strip oe))
                   else dat (heap s) p) as Hdat.
    { intros p. rewrite (dat_insert _ _ _ _ _ Hee'). case_decide; [by destruct ee|].
      rewrite (dat_insert _ _ _ _ _ Hoe). case_decide; [by destruct oe|done]. }
    assert (NoDup (occupants (<[deathRowPos s:=None]> (deathRow s))) ∧
            o ∉ occupants (<[deathRowPos s:=None]> (deathRow s))) as [Hnd0 Ho0].
    { rewrite Hocc in Hdu. apply NoDup_cons in Hdu. naive_solver. }
    assert (∀ p, p ∈ occupants (deathRow s) ↔
                 p = o ∨ p ∈ occupants (<[deathRowPos s:=None]> (deathRow s))) as Hin
      by (intros p; rewrite Hocc; set_solver).
    assert (∀ p, p ∈ occupants (<[deathRowPos s:=Some e]> (deathRow s)) ↔
                 p = e ∨ p ∈ occupants (<[deathRowPos s:=None]> (deathRow s))) as Hin'
      by (intros p; rewrite Hocc'; set_solver).
    split_and!; simpl; rewrite ?Hs1, ?Hm1, ?Hd1, ?Hp1, ?He1; try done.
    + split; simpl; rewrite ?Hs1, ?Hm1, ?Hd1, ?Hp1, ?He1; try done.
      * do 2 (eapply dll_insert_data; [done|by destruct ee, oe|]). done.
      * do 2 (eapply dll_insert_data; [done|by destruct ee, oe|]). done.
      * by rewrite length_insert.
      * rewrite Hocc'. apply NoDup_cons. split; [|done]. intros ?. apply Hed. apply Hin. auto.
      * split; [done|]. intros p Hp. destruct (HF p) as (?&?&Hpd); [by right|].
        split_and!; [done..|]. rewrite Hin'. rewrite Hin in Hpd. set_solver.
      * intros k p [Hne Hk]%lookup_delete_Some.
        destruct (Hmap _ _ Hk) as (d & Hd & Hkey & Hmb).
        assert (p ≠ o) as Hpo.
        { intros ->; rewrite Hdo in Hd; simplify_eq; by destruct oe. }
        rewrite Hdat. rewrite (decide_False (P := p = o)) by done.
        assert (p ∈ members s1 xs ms F ∨ p = e) as Hmb'.
        { unfold members in *. rewrite Hd1 in *. set_solver. }
        case_decide.
        -- subst p. rewrite Hde in Hd. simplify_eq. eexists. split; [done|].
           split; [by destruct ee|]. unfold members. set_solver.
        -- exists d. split_and!; [done..|]. unfold members in *. set_solver.
      * intros p Hp.
        assert (p ≠ o) as Hpo.
        { intros ->. unfold members in Hp. destruct (Hdisjd o Ho).
          destruct (HF o) as (_ & _ & ?); set_solver. }
        destruct (Hmem p) as (d & Hd & Hk); [unfold members in *; set_solver|].
        assert (key d ≠ key oe) as Hkd by (intros Heq; rewrite Heq in Hk; congruence).
        rewrite Hdat. rewrite (decide_False (P := p = o)) by done.
        case_decide.
        -- subst p. rewrite Hde in Hd. simplify_eq. eexists. split; [done|].
           rewrite lookup_delete_ne; [by destruct ee|]. by destruct ee.
        -- exists d. split; [done|]. by rewrite lookup_delete_ne.
      * intros p d Hp. rewrite Hdat. rewrite decide_False by (by intros ->).
        rewrite decide_False by (intros ->; by destruct (Hdisjd o Ho)).
        by apply Hfs.
      * intros p d Hp. rewrite Hdat. rewrite decide_False by (by intros ->).
        rewrite decide_False by (intros ->; by destruct (Hdisjd o Ho)).
        by apply Hfm.
      * intros p d [->|Hp]%Hin'; rewrite Hdat.
        -- rewrite decide_True by done. by intros [= <-].
        -- rewrite decide_False by (intros ->; apply Hed, Hin; auto).
           rewrite decide_False by (by intros ->).
           apply Hfd, Hin. auto.
      * rewrite map_size_delete_Some by done. rewrite Hsz. unfold members.
        repeat first [rewrite length_app | progress simpl].
        rewrite Hocc', Hocc. simpl. lia.
    + intros p. rewrite Hdat. repeat case_decide; subst.
      * rewrite Hde. by destruct ee.
      * rewrite Hdo. simpl. by destruct oe.
      * done.
    + intros p Hp. rewrite Hdat.
      rewrite decide_False by (intros ->; apply Hp; unfold members; set_solver).
      rewrite decide_False by (intros ->; apply Hp; unfold members; set_solver).
      done.
    + apply delete_subseteq.
    + intros p [->|?]%Hin'; [by left|right]. apply Hin. auto.
    + unfold s1. by destruct (addToGhost_static (hash oe) (peakFreq oe)
                                (set_entries (delete (key oe) (entries s)) s)) as (-> & _).
  - (* the slot is free *)
    cbn [mbind option_bind]. unfold modify_entry. rewrite (modify_Some _ _ _ _ Hee). simpl.
    eexists. split; [done|].
    assert (∀ p, dat (<[e:=set_onDeathRow true ee]> (heap s)) p
                 = if decide (p = e) then Some (set_onDeathRow true (strip ee))
                   else dat (heap s) p) as Hdat.
    { intros p. rewrite (dat_insert _ _ _ _ _ Hee). case_decide; [by destruct ee|done]. }
    assert (∀ p, p ∈ occupants (<[deathRowPos s:=Some e]> (deathRow s)) ↔
                 p = e ∨ p ∈ occupants (deathRow s)) as Hin'
      by (intros p; rewrite Hocc', Hocc; set_solver).
    split_and!; simpl; try done.
    + split; simpl; try done.
      * eapply dll_insert_data; [done|by destruct ee|]. done.
      * eapply dll_insert_data; [done|by destruct ee|]. done.
      * by rewrite length_insert.
      * rewrite Hocc', <- Hocc. apply NoDup_cons. done.
      * split; [done|]. intros p Hp. destruct (HF p) as (?&?&Hpd); [by right|].
        split_and!; [done..|]. rewrite Hin'. set_solver.
      * intros k p Hk.
        destruct (Hmap _ _ Hk) as (d & Hd & Hkey & Hmb).
        rewrite Hdat.
        case_decide.
        -- subst p. rewrite Hde in Hd. simplify_eq. eexists. split; [done|].
           split; [by destruct ee|]. unfold members. set_solver.
        -- exists d. split_and!; [done..|]. unfold members in *. set_solver.
      * intros p Hp.
        destruct (Hmem p) as (d & Hd & Hk); [unfold members in *; set_solver|].
        rewrite Hdat.
        case_decide.
        -- subst p. rewrite Hde in Hd. simplify_eq. eexists. split; [done|].
           by destruct ee.
        -- exists d. done.
      * intros p d Hp. rewrite Hdat. rewrite decide_False by (by intros ->).
        by apply Hfs.
      * intros p d Hp. rewrite Hdat. rewrite decide_False by (by intros ->).
        by apply Hfm.
      * intros p d [->|Hp]%Hin'; rewrite Hdat.
        -- rewrite decide_True by done. by intros [= <-].
        -- rewrite decide_False by (by intros ->). by apply Hfd.
      * rewrite Hsz. unfold members.
        repeat first [rewrite length_app | progress simpl].
        rewrite Hocc', Hocc. simpl. lia.
    + intros p. rewrite Hdat. repeat case_decide; subst; [|done].
      rewrite Hde. by destruct ee.
    + intros p Hp. rewrite Hdat.
      rewrite decide_False by (intros ->; apply Hp; unfold members; set_solver).
      done.
    + intros p [->|?]%Hin'; auto.
Qed.
End DeathRow.

(** * Bounds of the eviction loops *)

Section Measures.
Context {V : Type}.
Implicit Types (h : list (entry V)) (l : list N).

Lemma freq_sum_msum h : freq_sum h = msum N.to_nat (freq <$> h).
Proof.
  unfold freq_sum. induction h as [|e h IH]; [done|].
  rewrite fmap_cons. simpl. by rewrite IH.
Qed.

Lemma warm_count_msum h : warm_count h = msum warm (freq <$> h).
Proof.
  unfold warm_count. induction h as [|e h IH]; [done|].
  rewrite filter_cons, fmap_cons. simpl. unfold warm at 1.
  destruct (decide (2 ≤ freq e)%N); simpl; by rewrite IH.
Qed.

Lemma msum_insert g l i x y :
  l !! i = Some x → (msum g (<[i := y]> l) + g x = msum g l + g y)%nat.
Proof.
  revert i. induction l as [|z l IH]; intros [|i]; simpl; try done.
  - intros [= ->]. lia.
  - intros H. specialize (IH _ H). lia.
Qed.

Lemma freq_dat h p : freq <$> dat h p = freq <$> (h !! p).
Proof. unfold dat. by destruct (h !! p) as [[]|]. Qed.

Lemma freqs_ext h h' :
  (∀ p, freq <$> dat h' p = freq <$> dat h p) → freq <$> h' = freq <$> h.
Proof.
  intros H. apply list_eq. intros i. rewrite !list_lookup_fmap, <- !freq_dat. apply H.
Qed.

Lemma freqs_point h h' e d d' :
  dat h e = Some d →
  (∀ p, dat h' p = if decide (p = e) then Some d' else dat h p) →
  freq <$> h' = <[e := freq d']> (freq <$> h).
Proof.
  intros He H. apply list_eq. intros i.
  rewrite list_lookup_fmap, <- freq_dat, H.
  destruct (dat_Some _ _ _ He) as (x & Hx & ->).
  destruct (decide (i = e)) as [->|Hne].
  - rewrite list_lookup_insert_eq; [done|].
    rewrite length_fmap. by eapply lookup_lt_Some.
  - rewrite list_lookup_insert_ne by done. by rewrite list_lookup_fmap, freq_dat.
Qed.

Lemma freqs_lookup h e d : dat h e = Some d → (freq <$> h) !! e = Some (freq d).
Proof. intros H. by rewrite list_lookup_fmap, <- freq_dat, H. Qed.
End Measures.

Section Evolves.
Context {V : Type}.
Implicit Types (s : shard V) (xs ms : list ptr).

Lemma evolves_refl s xs ms tot : evolves s xs ms tot s xs ms tot.
Proof. unfold evolves. split_and!; try done. Qed.

Lemma evolves_trans s xs ms tot s1 xs1 ms1 tot1 s2 xs2 ms2 tot2 :
  evolves s xs ms tot s1 xs1 ms1 tot1 → evolves s1 xs1 ms1 tot1 s2 xs2 ms2 tot2 →
  evolves s xs ms tot s2 xs2 ms2 tot2.
Proof.
  intros (H1 & H2 & H3 & H4 & H5) (K1 & K2 & K3 & K4 & K5).
  split_and!; [lia| |by etrans|lia|congruence].
  intros p Hp. destruct (H2 _ Hp) as [Hd Hn]. destruct (K2 _ Hn) as [Hd' Hn'].
  split; [congruence|done].
Qed.
End Evolves.

Section RestLemmas.
Context {V : Type}.
Implicit Types (s : shard V).

Lemma rest_entries s s' : rest s' = rest s → entries s' = entries s.
Proof. unfold rest. by intros [= -> ?]. Qed.
Lemma rest_deathRow s s' : rest s' = rest s → deathRow s' = deathRow s.
Proof. unfold rest. by intros [= ? ? ? ? ? -> ?]. Qed.
Lemma rest_capacity s s' : rest s' = rest s → capacity s' = capacity s.
Proof. unfold rest. by intros [= ? ? ? ? ? ? ? -> ?]. Qed.
Lemma rest_smallThresh s s' : rest s' = rest s → smallThresh s' = smallThresh s.
Proof. unfold rest. by intros [= ? ? ? ? ? ? ? ? -> ?]. Qed.
Lemma rest_warmupComplete s s' : rest s' = rest s → warmupComplete s' = warmupComplete s.
Proof. unfold rest. by intros [= ? ? ? ? ? ? ? ? ? ->]. Qed.
Lemma rest_ghost s s' :
  rest s' = rest s →
  ghostActive s' = ghostActive s ∧ ghostAging s' = ghostAging s
  ∧ ghostFreqRng s' = ghostFreqRng s.
Proof. unfold rest. by intros [= ? -> -> -> ?]. Qed.

Lemma inv_float_not_member s xs ms F e :
  shard_inv s xs ms (e :: F) → e ∉ xs ++ ms ++ occupants (deathRow s).
Proof.
  intros [_ _ _ _ _ [_ HF] _ _ _ _ _ _].
  destruct (HF e) as (? & ? & ?); [by left|]. set_solver.
Qed.
End RestLemmas.

(** * The eviction rounds *)

Section Moves.
Context {V : Type} `{!Env V}.
Implicit Types (s : shard V) (xs ms : list ptr).

Lemma inv_head s xs ms F q :
  shard_inv s xs ms F → 0 < entryList.len (getq q s) →
  ∃ e l0, qsel q xs ms = e :: l0 ∧ entryList.head (getq q s) = Some e.
Proof.
  intros Hinv Hlen.
  assert (dll (heap s) (getq q s) (qsel q xs ms)) as Hdll
    by (destruct q; simpl; apply Hinv).
  rewrite (dll_len _ _ _ Hdll) in Hlen. rewrite (dll_head _ _ _ Hdll).
  destruct (qsel q xs ms) as [|e l0]; simpl in *; [lia|]. eauto.
Qed.

Lemma inv_queue_dat s xs ms F q e :
  shard_inv s xs ms F → e ∈ qsel q xs ms →
  ∃ ent, heap s !! e = Some ent ∧ dat (heap s) e = Some (strip ent)
    ∧ inSmall ent = qsel q true false ∧ onDeathRow ent = false.
Proof.
  intros Hinv He.
  destruct (inv_member _ _ _ _ Hinv e) as (d & Hd & _).
  { unfold members. destruct q; simpl in *; set_solver. }
  destruct (dat_Some _ _ _ Hd) as (ent & Hent & ->).
  exists ent. split_and!; [done..| |].
  - destruct q; simpl in *.
    + by destruct (inv_flag_small _ _ _ _ Hinv _ _ He Hd) as [? _]; destruct ent.
    + by destruct (inv_flag_main _ _ _ _ Hinv _ _ He Hd) as [? _]; destruct ent.
  - destruct q; simpl in *.
    + by destruct (inv_flag_small _ _ _ _ Hinv _ _ He Hd) as [_ ?]; destruct ent.
    + by destruct (inv_flag_main _ _ _ _ Hinv _ _ He Hd) as [_ ?]; destruct ent.
Qed.

(** The head of queue [q], already taken out and updated, goes to the tail
    of queue [q']. *)
Lemma move_finish s xs ms tot q e l0 q' s2 d d' :
  shard_inv s xs ms [] → qsel q xs ms = e :: l0 → dat (heap s) e = Some d →
  shard_inv s2 (qsel q l0 xs) (qsel q ms l0) [e] →
  (∀ p, dat (heap s2) p = if decide (p = e) then Some d' else dat (heap s) p) →
  rest s2 = rest s →
  inSmall d' = qsel q' true false → onDeathRow d' = false →
  (warm (freq d') ≤ warm (freq d))%nat →
  ∃ s3, q_pushBack q' e s2 = Some s3 ∧
    shard_inv s3 (qsel q' (qsel q l0 xs ++ [e]) (qsel q l0 xs))
                 (qsel q' (qsel q ms l0) (qsel q ms l0 ++ [e])) [] ∧
    evolves s xs ms tot
            s3 (qsel q' (qsel q l0 xs ++ [e]) (qsel q l0 xs))
               (qsel q' (qsel q ms l0) (qsel q ms l0 ++ [e])) tot ∧
    (∀ p, dat (heap s3) p = if decide (p = e) then Some d' else dat (heap s) p).
Proof.
  intros Hinv Hq Hd Hinv2 Hdat2 Hrest2 Hfl Hdr Hwarm.
  assert (dat (heap s2) e = Some d') as Hd2 by (rewrite Hdat2; by rewrite decide_True).
  destruct (inv_q_pushBack _ q' _ _ _ _ _ Hinv2 Hd2 Hfl Hdr) as (s3 & Hpush & Hinv3 & Hdat3 & Hrest3).
  exists s3. split; [done|]. split; [done|]. split.
  - split_and!.
    + destruct q, q'; simpl in *; subst; repeat first [rewrite length_app | progress simpl]; lia.
    + intros p Hp. split.
      * rewrite Hdat3, Hdat2. rewrite decide_False; [done|].
        intros ->. apply Hp. unfold members. destruct q; simpl in *; subst; set_solver.
      * unfold members in *. rewrite (rest_deathRow _ _ Hrest3), (rest_deathRow _ _ Hrest2).
        destruct q, q'; simpl in *; subst; set_solver.
    + by rewrite (rest_entries _ _ Hrest3), (rest_entries _ _ Hrest2).
    + assert (freq <$> heap s3 = <[e := freq d']> (freq <$> heap s)) as ->.
      { eapply freqs_point; [done|]. intros p. by rewrite Hdat3, Hdat2. }
      pose proof (msum_insert warm _ _ _ (freq d') (freqs_lookup _ _ _ Hd)). lia.
    + by rewrite (rest_capacity _ _ Hrest3), (rest_capacity _ _ Hrest2).
  - intros p. by rewrite Hdat3, Hdat2.
Qed.

(** The head of queue [q], already taken out, goes to death row. *)
Lemma send_finish s xs ms tot q e l0 s1 :
  shard_inv s xs ms [] → qsel q xs ms = e :: l0 →
  shard_inv s1 (qsel q l0 xs) (qsel q ms l0) [e] →
  (∀ p, dat (heap s1) p = dat (heap s) p) →
  rest s1 = rest s →
  ∃ s2, sendToDeathRow e s1 tot = Some (s2, tot - 1) ∧
    shard_inv s2 (qsel q l0 xs) (qsel q ms l0) [] ∧
    evolves s xs ms tot s2 (qsel q l0 xs) (qsel q ms l0) (tot - 1) ∧
    deathRow s2 = <[deathRowPos s := Some e]> (deathRow s).
Proof.
  intros Hinv Hq Hinv1 Hdat1 Hrest1.
  destruct (inv_sendToDeathRow _ _ _ _ _ tot Hinv1)
    as (s2 & Hsend & Hinv2 & _ & _ & Hdat2 & Hunt2 & Hsub & Hocc & Hcap & Hdr).
  pose proof Hrest1 as Hrest1'. unfold rest in Hrest1'.
  injection Hrest1' as He1 _ _ _ _ Hd1 Hp1 Hc1 _ _.
  exists s2. split; [done|]. split; [done|]. split; [|by rewrite Hdr, Hd1, Hp1].
  split_and!.
  - destruct q; simpl in *; subst; repeat first [rewrite length_app | progress simpl]; lia.
  - intros p Hp.
    assert (p ∉ members s1 (qsel q l0 xs) (qsel q ms l0) [e]) as Hp1'.
    { unfold members in *. rewrite Hd1. destruct q; simpl in *; subst; set_solver. }
    split; [by rewrite Hunt2, Hdat1|].
    unfold members in *. intros Hin. apply Hp1'.
    rewrite !elem_of_app in Hin. rewrite !elem_of_app.
    destruct Hin as [?|[?|[Hin|Hn]]]; [auto|auto| |by apply elem_of_nil in Hn].
    apply Hocc in Hin as [->|?]; [right; right; right; by left|auto].
  - by rewrite <- He1.
  - assert (freq <$> heap s2 = freq <$> heap s) as ->; [|done].
    apply freqs_ext. intros p. rewrite <- Hdat1.
    specialize (Hdat2 p). destruct (dat (heap s2) p) as [[]|], (dat (heap s1) p) as [[]|];
      simpl in *; simplify_eq; done.
  - congruence.
Qed.
End Moves.

Section Loops.
Context {V : Type} `{!Env V}.
Implicit Types (s : shard V) (xs ms : list ptr).

(** Two stores through the pointer of an entry that is in no queue. *)
Lemma inv_modify_float s xs ms F e f d :
  shard_inv s xs ms (e :: F) → dat (heap s) e = Some d → data_fn f →
  ∃ s', modify_entry e f s = Some s' ∧ shard_inv s' xs ms (e :: F)
    ∧ (∀ q, dat (heap s') q = if decide (q = e) then Some (f d) else dat (heap s) q)
    ∧ rest s' = rest s.
Proof.
  intros Hinv Hd Hf.
  destruct (inv_modify _ _ _ _ _ f _ Hinv Hd Hf) as (s' & ? & ? & ? & ? & _).
  - intros Hin. by destruct (inv_float_not_member _ _ _ _ _ Hinv).
  - eauto.
Qed.

Lemma evictFromMain_loop_ok fuel s tot xs ms :
  shard_inv s xs ms [] → (freq_sum (heap s) < fuel)%nat →
  ∃ s' tot' xs' ms', evictFromMain_loop fuel s tot = Some (s', tot')
    ∧ shard_inv s' xs' ms' [] ∧ evolves s xs ms tot s' xs' ms' tot'.
Proof.
  revert s tot xs ms. induction fuel as [|fuel IH]; intros s tot xs ms Hinv Hfuel; [lia|].
  simpl. destruct (0 <? entryList.len (main s)) eqn:Hpos.
  2: { eexists _, _, _, _. split; [done|]. split; [done|apply evolves_refl]. }
  apply Z.ltb_lt in Hpos.
  destruct (inv_head _ _ _ _ Main Hinv Hpos) as (e & ms0 & Hms & Hhd). simpl in Hms, Hhd.
  subst ms. rewrite Hhd. simpl.
  destruct (inv_queue_dat _ _ _ _ Main e Hinv) as (ent & Hent & Hd & Hfl & Hdr); [by left|].
  rewrite Hent. simpl.
  destruct (inv_q_remove _ Main _ _ _ [] e ms0 Hinv eq_refl)
    as (s1 & Hrem & Hinv1 & Hdat1 & Hrest1). simpl in Hinv1.
  rewrite Hrem. simpl.
  destruct (freq ent =? 0)%N eqn:Hf.
  - assert (dat (heap s1) e = Some (strip ent)) as Hd1 by by rewrite Hdat1.
    destruct (dat_Some _ _ _ Hd1) as (ent1 & Hent1 & Hst1).
    rewrite Hent1. simpl.
    destruct (4 <=? peakFreq ent1)%N.
    + destruct (inv_modify_float _ _ _ _ _ (set_freq 1) _ Hinv1 Hd1)
        as (s2 & -> & Hinv2 & Hdat2 & Hrest2); [apply data_fn_set_freq|]. simpl.
      assert (dat (heap s2) e = Some (set_freq 1 (strip ent))) as Hd2
        by (rewrite Hdat2; by rewrite decide_True).
      destruct (inv_modify_float _ _ _ _ _ (set_inSmall true) _ Hinv2 Hd2)
        as (s3 & -> & Hinv3 & Hdat3 & Hrest3); [apply data_fn_set_inSmall|]. simpl.
      destruct (move_finish s xs (e :: ms0) tot Main e ms0 Small s3 (strip ent)
                  (set_inSmall true (set_freq 1 (strip ent))))
        as (s4 & -> & Hinv4 & Hev & _); try done.
      * intros p. rewrite Hdat3, Hdat2, Hdat1. by repeat case_decide.
      * congruence.
      * simpl. unfold warm. case_decide; [lia|]. case_decide; lia.
      * simpl. eauto 10.
    + destruct (send_finish s xs (e :: ms0) tot Main e ms0 s1)
        as (s2 & -> & Hinv2 & Hev & _); try done.
      eauto 10.
  - destruct (inv_modify_float _ _ _ _ _ (set_freq (freq ent - 1)) _ Hinv1
                ltac:(by rewrite Hdat1))
      as (s2 & -> & Hinv2 & Hdat2 & Hrest2); [apply data_fn_set_freq|]. simpl.
    destruct (move_finish s xs (e :: ms0) tot Main e ms0 Main s2 (strip ent)
                (set_freq (freq ent - 1) (strip ent)))
      as (s3 & -> & Hinv3 & Hev & Hdat3); try done; try (by destruct ent).
    + intros p. rewrite Hdat2, Hdat1. by repeat case_decide.
    + congruence.
    + simpl. unfold warm. apply N.eqb_neq in Hf.
      repeat case_decide; lia.
    + simpl in *.
      destruct (IH s3 tot xs (ms0 ++ [e]) Hinv3) as (s' & tot' & xs' & ms' & -> & Hinv' & Hev').
      * rewrite freq_sum_msum in *.
        assert (freq <$> heap s3 = <[e := (freq ent - 1)%N]> (freq <$> heap s)) as ->
          by (eapply (freqs_point _ _ _ _ (set_freq (freq ent - 1) (strip ent))); done).
        assert ((freq <$> heap s) !! e = Some (freq ent)) as Hlk
          by (rewrite (freqs_lookup _ _ _ Hd); by destruct ent).
        pose proof (msum_insert N.to_nat _ _ _ (freq ent - 1)%N Hlk) as Hsum.
        apply N.eqb_neq in Hf. lia.
      * eexists _, _, _, _. split; [done|]. split; [done|]. by eapply evolves_trans.
Qed.

Lemma evictFromMain_ok s tot xs ms :
  shard_inv s xs ms [] →
  ∃ s' tot' xs' ms', evictFromMain s tot = Some (s', tot')
    ∧ shard_inv s' xs' ms' [] ∧ evolves s xs ms tot s' xs' ms' tot'.
Proof. intros Hinv. apply evictFromMain_loop_ok; [done|lia]. Qed.
Lemma evictFromSmall_loop_ok fuel s tot xs ms :
  shard_inv s xs ms [] → (warm_count (heap s) < fuel)%nat →
  ∃ s' tot' xs' ms', evictFromSmall_loop fuel s tot = Some (s', tot')
    ∧ shard_inv s' xs' ms' [] ∧ evolves s xs ms tot s' xs' ms' tot'.
Proof.
  revert s tot xs ms. induction fuel as [|fuel IH]; intros s tot xs ms Hinv Hfuel; [lia|].
  simpl. destruct (0 <? entryList.len (small s)) eqn:Hpos.
  2: { eexists _, _, _, _. split; [done|]. split; [done|apply evolves_refl]. }
  apply Z.ltb_lt in Hpos.
  destruct (inv_head _ _ _ _ Small Hinv Hpos) as (e & xs0 & Hxs & Hhd). simpl in Hxs, Hhd.
  subst xs. rewrite Hhd. simpl.
  destruct (inv_queue_dat _ _ _ _ Small e Hinv) as (ent & Hent & Hd & Hfl & Hdr); [by left|].
  rewrite Hent. simpl.
  destruct (inv_q_remove _ Small _ _ _ [] e xs0 Hinv eq_refl)
    as (s1 & Hrem & Hinv1 & Hdat1 & Hrest1). simpl in Hinv1.
  rewrite Hrem. simpl.
  destruct (freq ent <? 2)%N eqn:Hf.
  - destruct (send_finish s (e :: xs0) ms tot Small e xs0 s1)
      as (s2 & -> & Hinv2 & Hev & _); try done.
    eauto 10.
  - assert (dat (heap s1) e = Some (strip ent)) as Hd1 by by rewrite Hdat1.
    destruct (inv_modify_float _ _ _ _ _ (set_freq 0) _ Hinv1 Hd1)
      as (s2 & -> & Hinv2 & Hdat2 & Hrest2); [apply data_fn_set_freq|]. simpl.
    assert (dat (heap s2) e = Some (set_freq 0 (strip ent))) as Hd2
      by (rewrite Hdat2; by rewrite decide_True).
    destruct (inv_modify_float _ _ _ _ _ (set_inSmall false) _ Hinv2 Hd2)
      as (s3 & -> & Hinv3 & Hdat3 & Hrest3); [apply data_fn_set_inSmall|]. simpl.
    destruct (move_finish s (e :: xs0) ms tot Small e xs0 Main s3 (strip ent)
                (set_inSmall false (set_freq 0 (strip ent))))
      as (s4 & -> & Hinv4 & Hev & Hdat4); try done.
    + intros p. rewrite Hdat3, Hdat2, Hdat1. by repeat case_decide.
    + congruence.
    + simpl. unfold warm. repeat case_decide; lia.
    + simpl in *.
      assert (∃ s5 tot5 xs5 ms5,
                 (if Z.quot (capacity s * 9) 10 <? entryList.len (main s4)
                  then evictFromMain s4 tot else Some (s4, tot)) = Some (s5, tot5)
                 ∧ shard_inv s5 xs5 ms5 []
                 ∧ evolves s4 xs0 (ms ++ [e]) tot s5 xs5 ms5 tot5)
        as (s5 & tot5 & xs5 & ms5 & -> & Hinv5 & Hev5).
      { destruct (_ <? _).
        - by apply evictFromMain_ok.
        - eexists _, _, _, _. split; [done|]. split; [done|apply evolves_refl]. }
      simpl.
      destruct (IH s5 tot5 xs5 ms5 Hinv5) as (s' & tot' & xs' & ms' & -> & Hinv' & Hev').
      * rewrite warm_count_msum in *.
        destruct Hev5 as (_ & _ & _ & Hw5 & _).
        assert (freq <$> heap s4 = <[e := 0%N]> (freq <$> heap s)) as Hfr
          by (eapply (freqs_point _ _ _ _ (set_inSmall false (set_freq 0 (strip ent)))); done).
        rewrite Hfr in Hw5.
        assert ((freq <$> heap s) !! e = Some (freq ent)) as Hlk
          by (rewrite (freqs_lookup _ _ _ Hd); by destruct ent).
        pose proof (msum_insert warm _ _ _ 0%N Hlk) as Hsum.
        apply N.ltb_ge in Hf.
        assert (warm (freq ent) = 1%nat) as Hw1 by (unfold warm; by rewrite decide_True).
        assert (warm 0 = 0%nat) as Hw0 by done.
        rewrite Hw1, Hw0 in Hsum. lia.
      * eexists _, _, _, _. split; [done|]. split; [done|].
        eapply evolves_trans; [done|]. by eapply evolves_trans.
Qed.

Lemma evictFromSmall_ok s tot xs ms :
  shard_inv s xs ms [] →
  ∃ s' tot' xs' ms', evictFromSmall s tot = Some (s', tot')
    ∧ shard_inv s' xs' ms' [] ∧ evolves s xs ms tot s' xs' ms' tot'.
Proof. intros Hinv. apply evictFromSmall_loop_ok; [done|lia]. Qed.
End Loops.

(** * The operations of a shard *)

Section MapSteps.
Context {V : Type}.
Implicit Types (s : shard V) (xs ms F : list ptr).

Lemma inv_alloc s xs ms F (e : entry V) :
  shard_inv s xs ms F →
  shard_inv (alloc e s).2 xs ms F
  ∧ (∀ p, dat (heap (alloc e s).2) p
          = if decide (p = length (heap s)) then Some (strip e) else dat (heap s) p)
  ∧ length (heap s) ∉ members s xs ms F.
Proof.
  intros Hinv.
  assert (∀ p, dat (heap s ++ [e]) p
               = if decide (p = length (heap s)) then Some (strip e) else dat (heap s) p)
    as Hdat.
  { intros p. unfold dat. case_decide as Hp.
    - subst. by rewrite lookup_app_r, Nat.sub_diag by lia.
    - destruct (decide (p < length (heap s))%nat).
      + by rewrite lookup_app_l by done.
      + rewrite !lookup_ge_None_2; [done|lia|]. rewrite length_app. simpl. lia. }
  assert (length (heap s) ∉ members s xs ms F) as Hfresh.
  { intros Hin. destruct (inv_member _ _ _ _ Hinv _ Hin) as (d & Hd & _).
    apply dat_Some in Hd as (x & Hx & _). apply lookup_lt_Some in Hx. lia. }
  assert (∀ p, p ∈ members s xs ms F → dat (heap s ++ [e]) p = dat (heap s) p) as Hsame.
  { intros p Hp. rewrite Hdat. rewrite decide_False; [done|]. by intros ->. }
  split; [|done].
  destruct Hinv as [Hs Hm Hdl Hdp Hdu [HFnd HF] Hmap Hmem Hfs Hfm Hfd Hsz].
  split; simpl; try done.
  - by apply dll_app_heap.
  - by apply dll_app_heap.
  - intros k p Hk. destruct (Hmap _ _ Hk) as (d & Hd & Hkey & Hin).
    exists d. by rewrite Hsame.
  - intros p Hp. destruct (Hmem _ Hp) as (d & Hd & Hk). exists d. by rewrite Hsame.
  - intros p d Hp. rewrite Hsame; [by apply Hfs|]. unfold members; set_solver.
  - intros p d Hp. rewrite Hsame; [by apply Hfm|]. unfold members; set_solver.
  - intros p d Hp. rewrite Hsame; [by apply Hfd|]. unfold members; set_solver.
Qed.

(** A new key for an entry the shard did not know. *)
Lemma inv_insert_float s xs ms F ent d k :
  shard_inv s xs ms F → ent ∉ members s xs ms F →
  dat (heap s) ent = Some d → key d = k → entries s !! k = None →
  shard_inv (set_entries (<[k := ent]> (entries s)) s) xs ms (ent :: F).
Proof.
  intros [Hs Hm Hdl Hdp Hdu [HFnd HF] Hmap Hmem Hfs Hfm Hfd Hsz] Hfresh Hd Hkey Hk.
  split; simpl; try done.
  - split.
    + apply NoDup_cons. split; [|done]. unfold members in *. set_solver.
    + intros p [->|Hp]%elem_of_cons; [unfold members in *; set_solver|by apply HF].
  - intros k' p [[<- <-]|[Hne Hk']]%lookup_insert_Some.
    + exists d. split_and!; [done..|]. unfold members. set_solver.
    + destruct (Hmap _ _ Hk') as (d' & Hd' & Hkey' & Hin).
      exists d'. split_and!; [done..|]. unfold members in *. simpl. set_solver.
  - intros p Hp.
    assert (p = ent ∨ p ∈ members s xs ms F) as [->|Hp']
      by (unfold members in *; simpl in *; set_solver).
    + exists d. split; [done|]. rewrite Hkey. apply lookup_insert_eq.
    + destruct (Hmem _ Hp') as (d' & Hd' & Hk'). exists d'. split; [done|].
      rewrite lookup_insert_ne; [done|]. intros Heq. rewrite <- Heq in Hk'. congruence.
  - rewrite map_size_insert_None by done. rewrite Hsz. unfold members. simpl.
    repeat first [rewrite length_app | progress simpl]. lia.
Qed.

(** The key of an entry that is in no queue is deleted. *)
Lemma inv_delete_float s xs ms F e d :
  shard_inv s xs ms (e :: F) → dat (heap s) e = Some d →
  shard_inv (set_entries (delete (key d) (entries s)) s) xs ms F.
Proof.
  intros [Hs Hm Hdl Hdp Hdu [HFnd HF] Hmap Hmem Hfs Hfm Hfd Hsz] Hd.
  destruct (HF e ltac:(by left)) as (Hex & Hem & Hed).
  apply NoDup_cons in HFnd as [HeF HFnd].
  destruct (Hmem e) as (d' & Hd' & Hke); [unfold members; set_solver|].
  rewrite Hd in Hd'. injection Hd' as <-.
  split; simpl; try done.
  - split; [done|]. intros p Hp. apply HF. by right.
  - intros k p [Hne Hk]%lookup_delete_Some.
    destruct (Hmap _ _ Hk) as (d' & Hd' & Hkey & Hin).
    exists d'. split_and!; [done..|].
    assert (p ≠ e) by (intros ->; congruence).
    unfold members in *. simpl in *. set_solver.
  - intros p Hp.
    destruct (Hmem p) as (d' & Hd' & Hk); [unfold members in *; simpl in *; set_solver|].
    exists d'. split; [done|]. rewrite lookup_delete_ne; [done|].
    intros Heq. rewrite Heq in Hke. assert (p = e) as -> by congruence.
    unfold members in Hp. set_solver.
  - rewrite map_size_delete_Some by done. rewrite Hsz. unfold members. simpl.
    repeat first [rewrite length_app | progress simpl]. lia.
Qed.

(** An entry leaves the death-row ring. *)
Lemma inv_clear_slot s xs ms F p :
  shard_inv s xs ms F → p ∈ occupants (deathRow s) →
  shard_inv (set_deathRow (clear_slot p (deathRow s)) (deathRowPos s) s) xs ms (p :: F)
  ∧ (p ∉ occupants (clear_slot p (deathRow s)))
  ∧ (∀ q, q ∈ occupants (clear_slot p (deathRow s)) → q ∈ occupants (deathRow s)).
Proof.
  intros Hinv Hp.
  assert (∀ p, p ∈ occupants (deathRow s) → (p ∉ xs) ∧ (p ∉ ms)) as Hdisjd
    by (intros; by eapply inv_disjoint_dr).
  destruct Hinv as [Hs Hm Hdl Hdp Hdu [HFnd HF] Hmap Hmem Hfs Hfm Hfd Hsz].
  destruct (clear_slot_insert (deathRow s) p) as (i & Hi & Hcl); [by apply elem_of_occupants|].
  destruct (occupants_insert _ _ _ p Hi) as [_ Hocc]. simpl in Hocc.
  rewrite <- Hcl in Hocc.
  assert (NoDup (occupants (clear_slot p (deathRow s)))
          ∧ (p ∉ occupants (clear_slot p (deathRow s)))) as [Hnd0 Hp0].
  { rewrite Hocc in Hdu. apply NoDup_cons in Hdu. naive_solver. }
  assert (∀ q, q ∈ occupants (deathRow s) ↔
               q = p ∨ q ∈ occupants (clear_slot p (deathRow s))) as Hin
    by (intros q; rewrite Hocc; set_solver).
  split; [|split; [done|intros q ?; apply Hin; auto]].
  split; simpl; try done.
  - by rewrite length_clear_slot.
  - split.
    + apply NoDup_cons. split; [|done]. intros HpF. destruct (HF _ HpF) as (_ & _ & ?). done.
    + intros q [->|Hq]%elem_of_cons.
      * destruct (Hdisjd _ Hp). done.
      * destruct (HF _ Hq) as (? & ? & Hqd). split_and!; [done..|].
        intros ?. apply Hqd, Hin. auto.
  - intros k q Hk. destruct (Hmap _ _ Hk) as (d & Hd & Hkey & Hmb).
    exists d. split_and!; [done..|]. unfold members in *. simpl.
    rewrite !elem_of_app in Hmb. rewrite !elem_of_app, elem_of_cons.
    destruct Hmb as [?|[?|[[->|?]%Hin|?]]]; auto.
  - intros q Hq. apply Hmem. unfold members in *. simpl in Hq.
    rewrite !elem_of_app, elem_of_cons in Hq. rewrite !elem_of_app.
    destruct Hq as [?|[?|[?|[->|?]]]]; auto.
    right. right. left. apply Hin. auto.
  - intros q d Hq. apply Hfd, Hin. auto.
  - rewrite Hsz. unfold members. simpl.
    repeat first [rewrite length_app | progress simpl]. rewrite Hocc. simpl. lia.
Qed.

Lemma q_pushBack_set_entries q e m s :
  q_pushBack q e (set_entries m s) = set_entries m <$> q_pushBack q e s.
Proof.
  unfold q_pushBack. destruct q; simpl;
    by destruct (entryList.pushBack _ _ _) as [[]|].
Qed.

(** An entry the shard did not know enters a queue under a new key. *)
Lemma inv_enqueue_new s xs ms q ent d k :
  shard_inv s xs ms [] → ent ∉ members s xs ms [] →
  dat (heap s) ent = Some d → key d = k → entries s !! k = None →
  inSmall d = qsel q true false → onDeathRow d = false →
  ∃ s2, q_pushBack q ent s = Some s2
    ∧ shard_inv (set_entries (<[k := ent]> (entries s2)) s2)
                (qsel q (xs ++ [ent]) xs) (qsel q ms (ms ++ [ent])) []
    ∧ (∀ p, dat (heap s2) p = dat (heap s) p)
    ∧ rest s2 = rest s.
Proof.
  intros Hinv Hfresh Hd Hkey Hk Hfl Hdr.
  pose proof (inv_insert_float _ _ _ _ _ _ _ Hinv Hfresh Hd Hkey Hk) as Hinv1.
  destruct (inv_q_pushBack _ q _ _ _ _ _ Hinv1 Hd Hfl Hdr)
    as (s2' & Hpush & Hinv2 & Hdat2 & Hrest2).
  rewrite q_pushBack_set_entries in Hpush.
  destruct (q_pushBack q ent s) as [s2|] eqn:Hs2; [|done].
  simpl in Hpush. injection Hpush as <-.
  assert (entries s2 = entries s) as He.
  { unfold q_pushBack in Hs2.
    destruct (entryList.pushBack _ _ _) as [[]|]; simplify_eq/=. by destruct q. }
  assert (rest s2 = rest s) as Hr.
  { unfold q_pushBack in Hs2.
    destruct (entryList.pushBack _ _ _) as [[]|]; simplify_eq/=. by destruct q. }
  exists s2. rewrite He. split_and!; done.
Qed.
End MapSteps.

Section SetWithHash.
Context {V : Type} `{!Env V}.
Implicit Types (s : shard V) (xs ms F : list ptr).

Lemma inv_modify_fresh s xs ms F p f d :
  shard_inv s xs ms F → p ∉ members s xs ms F → dat (heap s) p = Some d → data_fn f →
  ∃ s', modify_entry p f s = Some s' ∧ shard_inv s' xs ms F
    ∧ (∀ q, dat (heap s') q = if decide (q = p) then Some (f d) else dat (heap s) q)
    ∧ rest s' = rest s ∧ small s' = small s ∧ main s' = main s.
Proof.
  intros Hinv Hp Hd Hf. eapply inv_modify; [done..|].
  intros Hin. destruct Hp. unfold members. set_solver.
Qed.

(** [setWithHash] on a key the shard holds: the entry is updated in place. *)
Lemma setWithHash_existing pcap k v exp h0 s tot xs ms p d :
  shard_inv s xs ms [] → entries s !! k = Some p → dat (heap s) p = Some d →
  ∃ s', setWithHash pcap k v exp h0 s tot = Some (s', tot) ∧ shard_inv s' xs ms []
    ∧ (∀ q, dat (heap s') q
            = if decide (q = p) then Some (bump (set_expiryNano exp (set_value v d)))
              else dat (heap s) q)
    ∧ rest s' = rest s ∧ small s' = small s ∧ main s' = main s.
Proof.
  intros Hinv Hk Hd. unfold setWithHash. rewrite Hk.
  destruct (inv_modify _ _ _ _ _ (set_value v) _ Hinv Hd)
    as (s1 & -> & Hinv1 & Hdat1 & Hrest1 & Hs1 & Hm1);
    [apply data_fn_set_value|by destruct d|]. simpl.
  assert (dat (heap s1) p = Some (set_value v d)) as Hd1
    by (rewrite Hdat1; by rewrite decide_True).
  destruct (inv_modify _ _ _ _ _ (set_expiryNano exp) _ Hinv1 Hd1)
    as (s2 & -> & Hinv2 & Hdat2 & Hrest2 & Hs2 & Hm2);
    [apply data_fn_set_expiryNano|by destruct d|]. simpl.
  assert (dat (heap s2) p = Some (set_expiryNano exp (set_value v d))) as Hd2
    by (rewrite Hdat2; by rewrite decide_True).
  destruct (inv_modify _ _ _ _ _ bump _ Hinv2 Hd2)
    as (s3 & -> & Hinv3 & Hdat3 & Hrest3 & Hs3 & Hm3); [apply data_fn_bump| |].
  { intros _. unfold bump. simpl. destruct (_ <? _)%N; [|done]. simpl.
    by destruct (_ <? _)%N. }
  simpl. exists s3. split_and!; [done|done| |congruence..].
  intros q. rewrite Hdat3, Hdat2, Hdat1. by repeat case_decide.
Qed.

Lemma shard_inv_warm s xs ms F b :
  shard_inv s xs ms F → shard_inv (set_warmupComplete b s) xs ms F.
Proof. by apply shard_inv_core. Qed.

Lemma pending_evict s0 xs ms tot k v exp ent b s3 f :
  pending s0 xs ms tot k v exp ent b s3 xs ms tot →
  (∀ s tot xs ms, shard_inv s xs ms [] →
     ∃ s' tot' xs' ms', f s tot = Some (s', tot')
       ∧ shard_inv s' xs' ms' [] ∧ evolves s xs ms tot s' xs' ms' tot') →
  ∃ s4 tot4 xs4 ms4, f s3 tot = Some (s4, tot4)
    ∧ pending s0 xs ms tot k v exp ent b s4 xs4 ms4 tot4.
Proof.
  intros [Hinv Hfresh Hkey Htot (d & Hd & Hdk & Hdv & Hde & Hdr & Hds)] Hf.
  destruct (Hf _ tot _ _ Hinv) as (s4 & tot4 & xs4 & ms4 & Heq & Hinv4 & Hev).
  destruct Hev as (E1 & E2 & E3 & _ & _).
  destruct (E2 _ Hfresh) as [Hd4 Hfresh4].
  exists s4, tot4, xs4, ms4. split; [done|]. split; [done|done| |lia|].
  - eapply lookup_weaken_None; done.
  - exists d. by rewrite Hd4.
Qed.

(** [setWithHash] on a key the shard does not hold. *)
Lemma setWithHash_new pcap k v exp h0 s tot xs ms :
  shard_inv s xs ms [] → entries s !! k = None →
  let h := if h0 =? 0 then hashInt64 k else h0 in
  let ent := length (heap s) in
  let to_small := negb ((pcap <=? tot) && ghost_hit s h) in
  ∃ s' tot' xs' ms' d,
    setWithHash pcap k v exp h0 s tot = Some (s', tot')
    ∧ shard_inv s' (if to_small then xs' ++ [ent] else xs')
                   (if to_small then ms' else ms' ++ [ent]) []
    ∧ tot' - Z.of_nat (length xs' + length ms' + 1)
      = tot - Z.of_nat (length xs + length ms)
    ∧ entries s' !! k = Some ent
    ∧ dat (heap s') ent = Some d
    ∧ key d = k ∧ value d = v ∧ expiryNano d = exp ∧ onDeathRow d = false
    ∧ inSmall d = to_small.
Proof.
  intros Hinv Hk h ent to_small.
  unfold setWithHash. rewrite Hk. fold h.
  set (e0 := set_hash h (new_entry k v exp)).
  destruct (inv_alloc _ _ _ _ e0 Hinv) as (Hinv0 & Hdat0 & Hfresh).
  change (alloc e0 s) with (ent, (alloc e0 s).2).
  set (s0 := (alloc e0 s).2) in *.
  assert (dat (heap s0) ent = Some (strip e0)) as Hd0
    by (rewrite Hdat0; by rewrite decide_True).
  assert (ent ∉ members s0 xs ms []) as Hfresh0 by done.
  cbv beta iota zeta.
  (* the second half: the new entry enters its queue *)
  assert (∀ s4 xs4 ms4 tot4,
            pending s xs ms tot k v exp ent to_small s4 xs4 ms4 tot4 →
            ∃ s' xs' ms' d,
              (e ← heap s4 !! ent;
               s5 ← (if inSmall e then q_pushBack Small ent s4 else q_pushBack Main ent s4);
               Some (set_entries (<[k := ent]> (entries s5)) s5, tot4 + 1))
              = Some (s', tot4 + 1)
              ∧ shard_inv s' (if to_small then xs' ++ [ent] else xs')
                   (if to_small then ms' else ms' ++ [ent]) []
              ∧ tot4 + 1 - Z.of_nat (length xs' + length ms' + 1)
                = tot - Z.of_nat (length xs + length ms)
              ∧ entries s' !! k = Some ent
              ∧ dat (heap s') ent = Some d
              ∧ key d = k ∧ value d = v ∧ expiryNano d = exp ∧ onDeathRow d = false
              ∧ inSmall d = to_small) as Hfinish.
  { intros s4 xs4 ms4 tot4 [Hinv4 Hfresh4 Hkey4 Htot4 (d & Hd & Hdk & Hdv & Hde & Hdr & Hds)].
    destruct (dat_Some _ _ _ Hd) as (e4 & He4 & Hst).
    rewrite He4. simpl.
    assert (inSmall e4 = to_small) as -> by (rewrite <- Hds, Hst; by destruct e4).
    destruct (inv_enqueue_new _ _ _ (if to_small then Small else Main) _ _ _
                Hinv4 Hfresh4 Hd Hdk Hkey4)
      as (s5 & Hpush & Hinv5 & Hdat5 & Hrest5); [by destruct to_small|done|].
    assert ((if to_small then q_pushBack Small ent s4 else q_pushBack Main ent s4)
            = Some s5) as -> by by destruct to_small.
    simpl. eexists _, xs4, ms4, d. split; [done|].
    split_and!; simpl; try done.
    - by destruct to_small.
    - lia.
    - apply lookup_insert_eq.
    - by rewrite Hdat5. }
  destruct (negb (warmupComplete s0) && negb (pcap <=? tot)) eqn:Hwarm.
  - (* warming up *)
    apply andb_prop in Hwarm as [_ Hfull%negb_true_iff].
    destruct (inv_modify_fresh _ _ _ _ _ (set_inSmall true) _ Hinv0 Hfresh0 Hd0)
      as (s1 & -> & Hinv1 & Hdat1 & Hrest1 & _); [apply data_fn_set_inSmall|]. simpl.
    assert (to_small = true) as Hts by (unfold to_small; by rewrite ?Hfull).
    assert (dat (heap s1) ent = Some (set_inSmall true (strip e0))) as Hd1
      by (rewrite Hdat1; by rewrite decide_True).
    destruct (inv_enqueue_new s1 xs ms Small ent (set_inSmall true (strip e0)) k Hinv1)
      as (s2 & -> & Hinv2 & Hdat2 & Hrest2); try done.
    { unfold members in *. by rewrite (rest_deathRow _ _ Hrest1). }
    { by rewrite (rest_entries _ _ Hrest1). }
    simpl. eexists _, _, xs, ms, _. split; [done|]. rewrite Hts.
    split_and!; simpl; [done|lia|apply lookup_insert_eq|by rewrite Hdat2|done..].
  - (* warm, or the cache is full *)
    pose proof (shard_inv_warm _ _ _ _ true Hinv0) as Hinv1.
    match goal with
    | |- ∃ s' tot' xs' ms' d, (?m ≫= _) = _ ∧ _ =>
        assert (∃ s4 tot4 xs4 ms4, m = Some (s4, tot4)
                  ∧ pending s xs ms tot k v exp ent to_small s4 xs4 ms4 tot4)
          as (s4 & tot4 & xs4 & ms4 & -> & Hpend)
    end.
    { destruct (pcap <=? tot) eqn:Hfull.
      - change (bloomFilter.Contains (ghostActive (set_warmupComplete true s0)) h
                || bloomFilter.Contains (ghostAging (set_warmupComplete true s0)) h)
          with (ghost_hit s h).
        assert (to_small = negb (ghost_hit s h)) as Hts by (unfold to_small; by rewrite ?Hfull).
        destruct (inv_modify_fresh _ _ _ _ _ (set_inSmall (negb (ghost_hit s h))) _
                    Hinv1 Hfresh0 Hd0)
          as (s2 & -> & Hinv2 & Hdat2 & Hrest2 & _); [apply data_fn_set_inSmall|]. simpl.
        assert (ent ∉ members s2 xs ms []) as Hfresh2
          by (unfold members in *; by rewrite (rest_deathRow _ _ Hrest2)).
        match goal with
        | |- ∃ s4 tot4 xs4 ms4, (?m ≫= _) = _ ∧ _ =>
            assert (∃ s3, m = Some s3
                      ∧ pending s xs ms tot k v exp ent to_small s3 xs ms tot)
              as (s3 & -> & Hpend3)
        end.
        { assert (pending s xs ms tot k v exp ent to_small s2 xs ms tot) as Hp2.
          { split; [done|done| |done|].
            - by rewrite (rest_entries _ _ Hrest2).
            - eexists. rewrite Hdat2, decide_True by done. split; [done|].
              by rewrite Hts. }
          destruct (ghost_hit s h); [|by eauto].
          destruct (ring.lookup (ghostFreqRng s2) h) as [peak [|]]; [|by eauto].
          assert (dat (heap s2) ent = Some (set_inSmall (negb true) (strip e0))) as Hd2
            by (rewrite Hdat2; by rewrite decide_True).
          destruct (inv_modify_fresh _ _ _ _ _ (set_freq peak) _ Hinv2 Hfresh2 Hd2)
            as (s2' & -> & Hinv2' & Hdat2' & Hrest2' & _); [apply data_fn_set_freq|]. simpl.
          assert (ent ∉ members s2' xs ms []) as Hfresh2'
            by (unfold members in *; by rewrite (rest_deathRow _ _ Hrest2')).
          assert (dat (heap s2') ent = Some (set_freq peak (set_inSmall (negb true) (strip e0))))
            as Hd2' by (rewrite Hdat2'; by rewrite decide_True).
          destruct (inv_modify_fresh _ _ _ _ _ (set_peakFreq peak) _ Hinv2' Hfresh2' Hd2')
            as (s3 & -> & Hinv3 & Hdat3 & Hrest3 & _); [apply data_fn_set_peakFreq|].
          exists s3. split; [done|]. split; [done| | |done|].
          - unfold members in *. by rewrite (rest_deathRow _ _ Hrest3).
          - by rewrite (rest_entries _ _ Hrest3), (rest_entries _ _ Hrest2'),
              (rest_entries _ _ Hrest2).
          - eexists. rewrite Hdat3, decide_True by done. split; [done|].
            by rewrite Hts. }
        simpl.
        destruct ((0 <? entryList.len (main s3))
                  && (entryList.len (small s3) <=? smallThresh s3)).
        + eapply pending_evict; [done|]. intros. by apply evictFromMain_ok.
        + destruct (0 <? entryList.len (small s3)).
          * eapply pending_evict; [done|]. intros. by apply evictFromSmall_ok.
          * by eexists _, _, _, _.
      - assert (to_small = true) as Hts by (unfold to_small; by rewrite ?Hfull).
        destruct (inv_modify_fresh _ _ _ _ _ (set_inSmall true) _ Hinv1 Hfresh0 Hd0)
          as (s2 & -> & Hinv2 & Hdat2 & Hrest2 & _); [apply data_fn_set_inSmall|]. simpl.
        exists s2, tot, xs, ms. split; [done|]. split; [done| | |done|].
        + unfold members in *. by rewrite (rest_deathRow _ _ Hrest2).
        + by rewrite (rest_entries _ _ Hrest2).
        + eexists. rewrite Hdat2, decide_True by done. split; [done|].
          by rewrite Hts. }
    simpl.
    destruct (Hfinish _ _ _ _ Hpend) as (s' & xs' & ms' & d & -> & Hrest).
    eauto 10.
Qed.
End SetWithHash.

Section GetDelete.
Context {V : Type} `{!Env V}.
Implicit Types (s : shard V) (xs ms F : list ptr).

Lemma inv_on_death_row s xs ms p d k :
  shard_inv s xs ms [] → entries s !! k = Some p → dat (heap s) p = Some d →
  (onDeathRow d = true → p ∈ occupants (deathRow s))
  ∧ (onDeathRow d = false → inSmall d = true → p ∈ xs)
  ∧ (onDeathRow d = false → inSmall d = false → p ∈ ms).
Proof.
  intros Hinv Hk Hd.
  destruct (inv_map _ _ _ _ Hinv _ _ Hk) as (d' & Hd' & _ & Hin).
  rewrite Hd in Hd'. injection Hd' as <-.
  unfold members in Hin. rewrite !elem_of_app in Hin.
  split_and!; intros; destruct Hin as [Hin|[Hin|[Hin|Hin]]]; try done;
    try (by apply elem_of_nil in Hin).
  - destruct (inv_flag_small _ _ _ _ Hinv _ _ Hin Hd). congruence.
  - destruct (inv_flag_main _ _ _ _ Hinv _ _ Hin Hd). congruence.
  - destruct (inv_flag_main _ _ _ _ Hinv _ _ Hin Hd). congruence.
  - pose proof (inv_flag_dr _ _ _ _ Hinv _ _ Hin Hd). congruence.
  - destruct (inv_flag_small _ _ _ _ Hinv _ _ Hin Hd). congruence.
  - pose proof (inv_flag_dr _ _ _ _ Hinv _ _ Hin Hd). congruence.
Qed.

(** [resurrectFromDeathRow] on a key whose entry is on death row. *)
Lemma resurrect_ok k s tot xs ms p d :
  shard_inv s xs ms [] → entries s !! k = Some p → dat (heap s) p = Some d →
  onDeathRow d = true →
  ∃ s', resurrectFromDeathRow k s tot = Some (value d, true, s', tot + 1)
    ∧ shard_inv s' xs (ms ++ [p]) []
    ∧ (∀ q, dat (heap s') q
            = if decide (q = p)
              then Some (set_peakFreq 3 (set_freq 3 (set_inSmall false (set_onDeathRow false d))))
              else dat (heap s) q)
    ∧ entries s' = entries s
    ∧ (p ∉ occupants (deathRow s'))
    ∧ (∀ q, q ∈ occupants (deathRow s') → q ∈ occupants (deathRow s)).
Proof.
  intros Hinv Hk Hd Hdr.
  destruct (inv_on_death_row _ _ _ _ _ _ Hinv Hk Hd) as (Hocc & _). specialize (Hocc Hdr).
  destruct (dat_Some _ _ _ Hd) as (e & He & ->).
  unfold resurrectFromDeathRow. rewrite Hk, He. simpl.
  assert (onDeathRow e = true) as -> by by destruct e. simpl.
  destruct (inv_clear_slot _ _ _ _ _ Hinv Hocc) as (Hinv1 & Hp1 & Hsub1).
  set (s1 := set_deathRow (clear_slot p (deathRow s)) (deathRowPos s) s) in *.
  assert (dat (heap s1) p = Some (strip e)) as Hd1 by done.
  destruct (inv_modify_float _ _ _ _ _ (set_onDeathRow false) _ Hinv1 Hd1)
    as (s2 & -> & Hinv2 & Hdat2 & Hrest2); [apply data_fn_set_onDeathRow|]. simpl.
  assert (dat (heap s2) p = Some (set_onDeathRow false (strip e))) as Hd2
    by (rewrite Hdat2; by rewrite decide_True).
  destruct (inv_modify_float _ _ _ _ _ (set_inSmall false) _ Hinv2 Hd2)
    as (s3 & -> & Hinv3 & Hdat3 & Hrest3); [apply data_fn_set_inSmall|]. simpl.
  assert (dat (heap s3) p = Some (set_inSmall false (set_onDeathRow false (strip e)))) as Hd3
    by (rewrite Hdat3; by rewrite decide_True).
  destruct (inv_modify_float _ _ _ _ _ (set_freq 3) _ Hinv3 Hd3)
    as (s4 & -> & Hinv4 & Hdat4 & Hrest4); [apply data_fn_set_freq|]. simpl.
  assert (dat (heap s4) p
          = Some (set_freq 3 (set_inSmall false (set_onDeathRow false (strip e))))) as Hd4
    by (rewrite Hdat4; by rewrite decide_True).
  destruct (inv_modify_float _ _ _ _ _ (set_peakFreq 3) _ Hinv4 Hd4)
    as (s5 & -> & Hinv5 & Hdat5 & Hrest5); [apply data_fn_set_peakFreq|]. simpl.
  assert (dat (heap s5) p
          = Some (set_peakFreq 3 (set_freq 3 (set_inSmall false
                   (set_onDeathRow false (strip e)))))) as Hd5
    by (rewrite Hdat5; by rewrite decide_True).
  destruct (inv_q_pushBack _ Main _ _ _ _ _ Hinv5 Hd5)
    as (s6 & -> & Hinv6 & Hdat6 & Hrest6); [done..|]. simpl.
  assert (dat (heap s6) p = Some (set_peakFreq 3 (set_freq 3 (set_inSmall false
                   (set_onDeathRow false (strip e)))))) as Hd6 by by rewrite Hdat6.
  destruct (dat_Some _ _ _ Hd6) as (e6 & He6 & Hst6).
  rewrite He6. simpl.
  assert (value e6 = value (strip e)) as -> by
    (apply (f_equal value) in Hst6; by destruct e6, e).
  assert (deathRow s6 = clear_slot p (deathRow s)) as Hdr6.
  { rewrite (rest_deathRow _ _ Hrest6), (rest_deathRow _ _ Hrest5),
      (rest_deathRow _ _ Hrest4), (rest_deathRow _ _ Hrest3), (rest_deathRow _ _ Hrest2).
    done. }
  eexists. split; [done|]. split; [done|]. split_and!.
  - intros q. rewrite Hdat6, Hdat5, Hdat4, Hdat3, Hdat2. by repeat case_decide.
  - rewrite (rest_entries _ _ Hrest6), (rest_entries _ _ Hrest5),
      (rest_entries _ _ Hrest4), (rest_entries _ _ Hrest3), (rest_entries _ _ Hrest2).
    done.
  - by rewrite Hdr6.
  - by rewrite Hdr6.
Qed.

(** [shard.get] on a key whose entry is in a queue and has not expired. *)
Lemma shard_get_hit k now s tot xs ms p d :
  shard_inv s xs ms [] → entries s !! k = Some p → dat (heap s) p = Some d →
  onDeathRow d = false →
  negb (expiryNano d =? 0) && (expiryNano d <? now) = false →
  ∃ s', shard_get k now s tot = Some (value d, true, s', tot)
    ∧ shard_inv s' xs ms []
    ∧ (∀ q, dat (heap s') q = if decide (q = p) then Some (bump d) else dat (heap s) q)
    ∧ rest s' = rest s ∧ small s' = small s ∧ main s' = main s.
Proof.
  intros Hinv Hk Hd Hdr Hexp.
  destruct (dat_Some _ _ _ Hd) as (e & He & ->).
  unfold shard_get. rewrite Hk, He. simpl.
  assert (onDeathRow e = false) as -> by by destruct e.
  assert (expiryNano e = expiryNano (strip e)) as -> by by destruct e.
  rewrite Hexp.
  destruct (inv_modify _ _ _ _ _ bump _ Hinv Hd)
    as (s1 & -> & Hinv1 & Hdat1 & Hrest1 & Hs1 & Hm1); [apply data_fn_bump| |].
  { intros _. unfold bump. destruct (_ <? _)%N; [|done]. simpl.
    by destruct (_ <? _)%N. }
  simpl.
  assert (dat (heap s1) p = Some (bump (strip e))) as Hd1
    by (rewrite Hdat1; by rewrite decide_True).
  destruct (dat_Some _ _ _ Hd1) as (e1 & He1 & Hst1). rewrite He1. simpl.
  assert (value e1 = value (strip e)) as ->.
  { apply (f_equal value) in Hst1.
    assert (value (bump (strip e)) = value (strip e)) as Hb.
    { unfold bump. destruct (_ <? _)%N; [|done]. simpl. by destruct (_ <? _)%N. }
    rewrite Hb in Hst1. rewrite Hst1. by destruct e1. }
  eauto 10.
Qed.

(** [shard.get] never fails on a well-formed shard, and keeps it well-formed. *)
Lemma shard_get_ok k now s tot xs ms :
  shard_inv s xs ms [] →
  ∃ v ok s' tot' xs' ms', shard_get k now s tot = Some (v, ok, s', tot')
    ∧ shard_inv s' xs' ms' []
    ∧ tot' - Z.of_nat (length xs' + length ms') = tot - Z.of_nat (length xs + length ms)
    ∧ entries s' = entries s.
Proof.
  intros Hinv. destruct (entries s !! k) as [p|] eqn:Hk.
  2: { unfold shard_get. rewrite Hk. eexists _, _, _, _, xs, ms. done. }
  destruct (inv_map _ _ _ _ Hinv _ _ Hk) as (d & Hd & _).
  destruct (onDeathRow d) eqn:Hdr.
  - destruct (resurrect_ok _ _ tot _ _ _ _ Hinv Hk Hd Hdr) as (s' & Hres & Hinv' & _ & He & _).
    destruct (dat_Some _ _ _ Hd) as (e & He0 & ->).
    unfold shard_get. rewrite Hk, He0. simpl.
    assert (onDeathRow e = true) as -> by by destruct e.
    rewrite Hres. eexists _, _, _, _, xs, (ms ++ [p]). split_and!; [done..| |done].
    rewrite length_app. simpl. lia.
  - destruct (negb (expiryNano d =? 0) && (expiryNano d <? now)) eqn:Hexp.
    + destruct (dat_Some _ _ _ Hd) as (e & He0 & ->).
      unfold shard_get. rewrite Hk, He0. simpl.
      assert (onDeathRow e = false) as -> by by destruct e.
      assert (expiryNano e = expiryNano (strip e)) as -> by by destruct e.
      rewrite Hexp. eexists _, _, _, _, xs, ms. done.
    + destruct (shard_get_hit _ _ _ tot _ _ _ _ Hinv Hk Hd Hdr Hexp)
        as (s' & -> & Hinv' & _ & Hrest & _).
      eexists _, _, _, _, xs, ms. split_and!; [done..|]. by apply rest_entries.
Qed.

(** [shard.delete] of a key whose entry is in a queue. *)
Lemma shard_delete_queued k s tot xs ms p d :
  shard_inv s xs ms [] → entries s !! k = Some p → dat (heap s) p = Some d →
  onDeathRow d = false →
  ∃ s' xs' ms', shard_delete k s tot = Some (s', tot - 1)
    ∧ shard_inv s' xs' ms' []
    ∧ (length xs' + length ms' + 1 = length xs + length ms)%nat
    ∧ entries s' = delete k (entries s).
Proof.
  intros Hinv Hk Hd Hdr.
  destruct (inv_on_death_row _ _ _ _ _ _ Hinv Hk Hd) as (_ & Hsm & Hmn).
  destruct (inv_map _ _ _ _ Hinv _ _ Hk) as (d' & Hd' & Hkey & _).
  rewrite Hd in Hd'. injection Hd' as <-.
  destruct (dat_Some _ _ _ Hd) as (e & He & ->).
  unfold shard_delete. rewrite Hk, He. simpl.
  assert (inSmall e = inSmall (strip e)) as -> by by destruct e.
  destruct (inSmall (strip e)) eqn:Hin.
  - destruct (list_elem_of_split _ _ (Hsm Hdr eq_refl)) as (l1 & l2 & ->).
    destruct (inv_q_remove _ Small _ _ _ l1 p l2 Hinv eq_refl)
      as (s1 & -> & Hinv1 & Hdat1 & Hrest1). simpl in Hinv1. simpl.
    assert (dat (heap s1) p = Some (strip e)) as Hd1 by by rewrite Hdat1.
    pose proof (inv_delete_float _ _ _ _ _ _ Hinv1 Hd1) as Hinv2.
    rewrite Hkey in Hinv2.
    eexists _, (l1 ++ l2), ms. split_and!; [done..| |].
    + rewrite !length_app. simpl. lia.
    + simpl. by rewrite (rest_entries _ _ Hrest1).
  - destruct (list_elem_of_split _ _ (Hmn Hdr eq_refl)) as (l1 & l2 & ->).
    destruct (inv_q_remove _ Main _ _ _ l1 p l2 Hinv eq_refl)
      as (s1 & -> & Hinv1 & Hdat1 & Hrest1). simpl in Hinv1. simpl.
    assert (dat (heap s1) p = Some (strip e)) as Hd1 by by rewrite Hdat1.
    pose proof (inv_delete_float _ _ _ _ _ _ Hinv1 Hd1) as Hinv2.
    rewrite Hkey in Hinv2.
    eexists _, xs, (l1 ++ l2). split_and!; [done..| |].
    + rewrite !length_app. simpl. lia.
    + simpl. by rewrite (rest_entries _ _ Hrest1).
Qed.

Lemma dll_empty (h : list (entry V)) : dll h entryList.empty [].
Proof. by split_and!; [..|apply NoDup_nil_2|]. Qed.

Lemma occupants_replicate n : occupants (replicate n None) = [].
Proof. induction n; [done|]. simpl. done. Qed.

Lemma shard_flush_inv s xs ms :
  shard_inv s xs ms [] → shard_inv (shard_flush s).2 [] [] [].
Proof.
  intros Hinv.
  split; unfold members; simpl; rewrite ?occupants_replicate;
    try solve [ done | apply dll_empty | apply NoDup_nil_2
              | unfold deathRowSize; lia
              | split; [apply NoDup_nil_2|by intros ? ?%elem_of_nil]
              | by intros ? ?%elem_of_nil | by intros ? ? ?%elem_of_nil
              | rewrite length_replicate; apply Hinv ].
Qed.

Lemma new_shard_inv scap : shard_inv (new_shard (V:=V) scap) [] [] [].
Proof.
  split; unfold members; simpl;
    try solve [ done | apply dll_empty | apply NoDup_nil_2
              | unfold deathRowSize; lia
              | split; [apply NoDup_nil_2|by intros ? ?%elem_of_nil]
              | by intros ? ?%elem_of_nil | by intros ? ? ?%elem_of_nil ].
Qed.
End GetDelete.

(** * The engine *)

Section EngineLemmas.
Context {V : Type} `{!Env V}.
Implicit Types (s : shard V) (c : s3fifo V).

Lemma land_bound a b : 0 ≤ a → 0 ≤ b → 0 ≤ Z.land a b ≤ b.
Proof.
  intros Ha Hb. split; [apply Z.land_nonneg; auto|].
  rewrite <- (Z2N.id a), <- (Z2N.id b) at 1 by done.
  rewrite <- N2Z.inj_land.
  pose proof (N.land_le_r (Z.to_N a) (Z.to_N b)). lia.
Qed.

Lemma uint64_nonneg k : 0 ≤ uint64 k.
Proof. unfold uint64. apply Z.mod_pos_bound. lia. Qed.

Lemma shard_lookup c k :
  engine_inv c → ∃ s, shards c !! shardIdx c (uint64 k) = Some s ∧ shard_wf s.
Proof.
  intros (Hwf & _ & Hm & Hlen & _).
  destruct (lookup_lt_is_Some_2 (shards c) (shardIdx c (uint64 k))) as [s Hs].
  { unfold shardIdx. pose proof (land_bound (uint64 k) (shardMask c) (uint64_nonneg k) Hm). lia. }
  exists s. split; [done|]. by eapply Forall_lookup_1.
Qed.

Lemma sum_shards_insert (f : shard V → Z) l i s s' :
  l !! i = Some s → sum_shards f (<[i := s']> l) = sum_shards f l - f s + f s'.
Proof.
  revert i. induction l as [|x l IH]; intros [|i]; simpl; try done.
  - intros [= ->]. lia.
  - intros H. rewrite (IH _ H). lia.
Qed.

Lemma queued_inv s xs ms F :
  shard_inv s xs ms F → queued s = Z.of_nat (length xs + length ms).
Proof.
  intros Hinv. unfold queued.
  rewrite (dll_len _ _ _ (inv_small _ _ _ _ Hinv)), (dll_len _ _ _ (inv_main _ _ _ _ Hinv)).
  lia.
Qed.

Lemma size_inv s xs ms :
  shard_inv s xs ms [] → Z.of_nat (size (entries s)) = queued s + occupied s.
Proof.
  intros Hinv. rewrite (queued_inv _ _ _ _ Hinv), (inv_size _ _ _ _ Hinv).
  unfold members, occupied. rewrite !length_app. simpl. lia.
Qed.

Lemma length_occupants (d : list (option ptr)) :
  (length (occupants d) ≤ length d)%nat.
Proof.
  induction d as [|[x|] d IH]; simpl; [done|..].
  - unfold occupants in *. simpl. lia.
  - unfold occupants in *. simpl. lia.
Qed.

Lemma occupied_bound s xs ms F :
  shard_inv s xs ms F → 0 ≤ occupied s ≤ 8.
Proof.
  intros Hinv. unfold occupied.
  pose proof (length_occupants (deathRow s)) as Hle.
  rewrite (inv_dr_len _ _ _ _ Hinv) in Hle. unfold deathRowSize in Hle. lia.
Qed.

Lemma with_shard_inv c i s s' tot' :
  engine_inv c → shards c !! i = Some s → shard_wf s' →
  tot' - queued s' = totalEntries c - queued s →
  engine_inv (with_shard i s' tot' c).
Proof.
  intros (Hwf & Htot & Hm & Hlen & Hn) Hi Hwf' Hq.
  split_and!; simpl.
  - by apply Forall_insert.
  - rewrite (sum_shards_insert _ _ _ _ _ Hi). lia.
  - done.
  - by rewrite length_insert.
  - by rewrite length_insert.
Qed.

Lemma set_ok c k v exp :
  engine_inv c → ∃ c', set c k v exp = Some c' ∧ engine_inv c'.
Proof.
  intros Hc. destruct (shard_lookup c k Hc) as (s & Hs & xs & ms & Hinv).
  unfold set. rewrite Hs. simpl.
  destruct (entries s !! k) as [p|] eqn:Hk.
  - destruct (inv_map _ _ _ _ Hinv _ _ Hk) as (d & Hd & _).
    destruct (setWithHash_existing (s3fifo_capacity c) k v exp 0 s (totalEntries c)
                _ _ _ _ Hinv Hk Hd) as (s' & -> & Hinv' & _).
    simpl. eexists. split; [done|]. eapply with_shard_inv; [done..|by eexists _, _|].
    rewrite (queued_inv _ _ _ _ Hinv), (queued_inv _ _ _ _ Hinv'). lia.
  - destruct (setWithHash_new (s3fifo_capacity c) k v exp 0 s (totalEntries c)
                _ _ Hinv Hk) as (s' & tot' & xs' & ms' & d & -> & Hinv' & Htot & _).
    simpl. eexists. split; [done|]. eapply with_shard_inv; [done..|by eexists _, _|].
    rewrite (queued_inv _ _ _ _ Hinv), (queued_inv _ _ _ _ Hinv').
    destruct (negb _); rewrite !length_app; simpl; lia.
Qed.

Lemma get_ok c k now :
  engine_inv c → ∃ v ok c', get c k now = Some (v, ok, c') ∧ engine_inv c'.
Proof.
  intros Hc. destruct (shard_lookup c k Hc) as (s & Hs & xs & ms & Hinv).
  unfold get. rewrite Hs. simpl.
  destruct (shard_get_ok k now s (totalEntries c) _ _ Hinv)
    as (v & ok & s' & tot' & xs' & ms' & -> & Hinv' & Htot & _).
  simpl. eexists _, _, _. split; [done|].
  eapply with_shard_inv; [done..|by eexists _, _|].
  rewrite (queued_inv _ _ _ _ Hinv), (queued_inv _ _ _ _ Hinv'). lia.
Qed.

Lemma del_ok c k :
  engine_inv c → on_death_row c k = false →
  ∃ c', del c k = Some c' ∧ engine_inv c'.
Proof.
  intros Hc Hdr. destruct (shard_lookup c k Hc) as (s & Hs & xs & ms & Hinv).
  unfold on_death_row in Hdr. rewrite Hs in Hdr.
  unfold del. rewrite Hs. simpl.
  destruct (entries s !! k) as [p|] eqn:Hk.
  - destruct (inv_map _ _ _ _ Hinv _ _ Hk) as (d & Hd & _).
    destruct (dat_Some _ _ _ Hd) as (e & He & ->). rewrite He in Hdr. simpl in Hdr.
    destruct (shard_delete_queued k s (totalEntries c) _ _ _ _ Hinv Hk Hd)
      as (s' & xs' & ms' & -> & Hinv' & Hlen & _); [by destruct e|].
    simpl. eexists. split; [done|]. eapply with_shard_inv; [done..|by eexists _, _|].
    rewrite (queued_inv _ _ _ _ Hinv), (queued_inv _ _ _ _ Hinv'). lia.
  - unfold shard_delete. rewrite Hk. simpl. eexists. split; [done|].
    eapply with_shard_inv; [done..|by eexists _, _|]. lia.
Qed.

Lemma flush_ok c : engine_inv c → engine_inv (flush c).2.
Proof.
  intros (Hwf & Htot & Hm & Hlen & Hn). split_and!; simpl.
  - apply Forall_fmap. eapply Forall_impl; [done|].
    intros s (xs & ms & Hinv). simpl. eexists _, _. by eapply shard_flush_inv.
  - clear. induction (shards c) as [|s l IH]; [done|].
    rewrite fmap_cons. simpl. rewrite <- IH. done.
  - done.
  - by rewrite length_fmap.
  - by rewrite length_fmap.
Qed.

Lemma newS3FIFO_inv size procs : engine_inv (newS3FIFO (V:=V) size procs).
Proof.
  unfold newS3FIFO.
  set (n0 := Z.min _ _).
  assert (0 < 2 ^ Z.log2 n0) as Hpos by (apply Z.pow_pos_nonneg; [lia|apply Z.log2_nonneg]).
  split_and!; simpl.
  - apply Forall_replicate. eexists _, _. apply new_shard_inv.
  - generalize (Z.to_nat (2 ^ Z.log2 n0)). intros n. induction n as [|n IH]; [done|].
    simpl. by rewrite <- IH.
  - lia.
  - rewrite length_replicate. lia.
  - rewrite length_replicate. lia.
Qed.

(** [len] is the global counter plus the occupied death-row slots. *)
Lemma len_inv c :
  engine_inv c → len c = totalEntries c + sum_shards occupied (shards c).
Proof.
  intros (Hwf & Htot & _). rewrite Htot. unfold len. clear Htot.
  induction Hwf as [|s l (xs & ms & Hinv) _ IH]; [done|].
  simpl. rewrite IH, (size_inv _ _ _ Hinv). lia.
Qed.

End EngineLemmas.

(** * The cache *)

Section CacheLemmas.
Context {V E : Type} `{!Env V}.
Implicit Types (c : Cache V E).

Lemma SetTTL_ok c k v ttl now :
  engine_inv (memory c) →
  ∃ m, SetTTL c k v ttl now = Some (set_memory m c) ∧ engine_inv m.
Proof.
  intros Hc. unfold SetTTL.
  destruct (set_ok (memory c) k v (if ttl <=? 0 then 0 else expiry_after now ttl) Hc)
    as (m & -> & Hm).
  simpl. eauto.
Qed.

Lemma getSet_ok c k loader ttl now :
  cache_inv c → ∃ r c', getSet c k loader ttl now = Some (r, c') ∧ cache_inv c'.
Proof.
  intros [Hm Hfl]. unfold getSet, getSet_enter.
  destruct (get_ok (memory c) k now Hm) as (v & ok & m1 & -> & Hm1). simpl.
  destruct ok; simpl.
  { eexists _, _. split; [done|]. split; done. }
  destruct (flights c !! k) as [call|] eqn:Hcall; simpl.
  - (* a follower *)
    unfold getSet_follower. simpl.
    destruct (lookup_lt_is_Some_2 (calls c) call) as [fc Hfc]; [by eapply Hfl|].
    rewrite Hfc. simpl. eexists _, _. split; [done|]. split; done.
  - (* the leader *)
    unfold getSet_leader. simpl.
    destruct (get_ok m1 k now Hm1) as (v2 & ok2 & m2 & -> & Hm2). simpl.
    assert ((calls c ++ [FlightCall 1 zero None]) !! length (calls c)
            = Some (FlightCall (E:=E) 1 zero None)) as Hnew
      by (rewrite lookup_app_r, Nat.sub_diag by lia; done).
    assert (∀ k' call',
               delete k (<[k:=length (calls c)]> (flights c)) !! k' = Some call' →
               (call' < S (length (calls c)))%nat) as Hvalid.
    { intros k' call' [Hne Hk']%lookup_delete_Some.
      rewrite lookup_insert_ne in Hk' by done. apply Hfl in Hk'. lia. }
    assert (∀ (cx : Cache V E) (r : fetch_result V E),
              calls cx = calls c ++ [FlightCall 1 zero None] →
              flights cx = <[k:=length (calls c)]> (flights c) →
              engine_inv (memory cx) →
              ∀ f, ∃ c', (c3 ← modify_call (length (calls c)) f cx;
                          c4 ← finish k (length (calls c)) c3;
                          Some (r, c4)) = Some (r, c') ∧ cache_inv c') as Hfinish.
    { intros cx r Hcalls Hflights Hmem f.
      unfold modify_call, finish, modify_call. rewrite Hcalls, Hnew. simpl.
      rewrite list_lookup_insert_eq by (rewrite length_app; simpl; lia). simpl.
      eexists. split; [done|]. split; [done|]. simpl.
      intros k' call' Hk'. rewrite Hflights in Hk'. apply Hvalid in Hk'.
      rewrite !length_insert, length_app. simpl. lia. }
    destruct ok2; simpl.
    + match goal with
      | |- context [modify_call _ ?f ?cx] =>
          destruct (Hfinish cx (Returned (E:=E) v2 None) eq_refl eq_refl Hm2 f)
            as (c' & -> & Hc')
      end.
      eauto.
    + destruct loader as [lv le|]; simpl.
      * destruct le as [e|]; simpl.
        -- match goal with
           | |- context [modify_call _ ?f ?cx] =>
               destruct (Hfinish cx (Returned lv (Some e)) eq_refl eq_refl Hm2 f)
                 as (c' & -> & Hc')
           end.
           eauto.
        -- unfold Set_.
           destruct (ttl <=? 0);
             match goal with
             | |- context [SetTTL ?cx ?k ?v ?t ?n] =>
                 destruct (SetTTL_ok cx k v t n) as (m3 & -> & Hm3); [done|]
             end; simpl;
             match goal with
             | |- context [modify_call _ ?f ?cx] =>
                 destruct (Hfinish cx (Returned (E:=E) lv None) eq_refl eq_refl Hm3 f)
                   as (c' & -> & Hc')
             end; eauto.
      * eexists _, _. split; [done|]. split; [done|]. simpl.
        intros k' call' [[<- <-]|[Hne Hk']]%lookup_insert_Some;
          rewrite length_app; simpl; [lia|]. apply Hfl in Hk'. lia.
Qed.

Lemma step_ok o c :
  cache_inv c → admissible o c = true → ∃ c', step o c = Some c' ∧ cache_inv c'.
Proof.
  intros [Hm Hfl] Hadm. destruct o as [k v exp|k now|k|k ttl loader now|]; simpl in *.
  - destruct (set_ok (memory c) k v exp Hm) as (m & -> & Hm'). simpl.
    eexists. split; [done|]. split; done.
  - destruct (get_ok (memory c) k now Hm) as (v & ok & m & -> & Hm'). simpl.
    eexists. split; [done|]. split; done.
  - apply negb_true_iff in Hadm.
    destruct (del_ok (memory c) k Hm Hadm) as (m & -> & Hm'). simpl.
    eexists. split; [done|]. split; done.
  - destruct (getSet_ok c k loader ttl now) as (r & c' & -> & Hc'); [by split|].
    simpl. eauto.
  - eexists. split; [done|]. split; [|done]. simpl. by apply flush_ok.
Qed.

Lemma New_inv size procs ttl : cache_inv (New (V:=V) (E:=E) size procs ttl).
Proof. split; [apply newS3FIFO_inv|]. simpl. by intros ? ? ?%lookup_empty_Some. Qed.

Lemma run_adm_inv ops c0 c :
  cache_inv c0 → run_adm ops c0 = Some c → cache_inv c.
Proof.
  revert c0. induction ops as [|o ops IH]; intros c0 H0; simpl.
  - by intros [= <-].
  - destruct (admissible o c0) eqn:Hadm; [|done].
    destruct (step_ok o c0 H0 Hadm) as (c' & -> & Hc'). simpl. by apply IH.
Qed.

(** A run of admissible operations never fails. *)
Lemma run_adm_total ops c0 :
  cache_inv c0 → run_adm ops c0 = None →
  ∃ ops1 o ops2 c, ops = ops1 ++ o :: ops2 ∧ run_adm ops1 c0 = Some c
                   ∧ admissible o c = false.
Proof.
  revert c0. induction ops as [|o ops IH]; intros c0 H0; simpl; [done|].
  destruct (admissible o c0) eqn:Hadm.
  - destruct (step_ok o c0 H0 Hadm) as (c' & Hs & Hc'). rewrite Hs. simpl.
    intros Hn. destruct (IH _ Hc' Hn) as (ops1 & o' & ops2 & c & -> & Hr & Ha).
    exists (o :: ops1), o', ops2, c. simpl. rewrite Hadm, Hs. done.
  - intros _. exists [], o, ops, c0. done.
Qed.

Lemma run_adm_run ops c0 c :
  run_adm ops c0 = Some c → run ops c0 = Some c.
Proof.
  revert c0. induction ops as [|o ops IH]; intros c0; simpl; [done|].
  destruct (admissible o c0); [|done].
  destruct (step o c0) as [c'|]; [|done]. simpl. apply IH.
Qed.
End CacheLemmas.

(** * Lemmas behind the checked properties *)

Section ClaimLemmas.
Context {V : Type} `{!Env V}.
Implicit Types (s : shard V) (xs ms : list ptr) (c : s3fifo V).

(** One iteration of [evictFromMain] on a head whose frequency is zero. *)
Lemma evictFromMain_cold_head fuel s tot xs e ms0 (ent : entry V) :
  shard_inv s xs (e :: ms0) [] → heap s !! e = Some ent → freq ent = 0%N →
  if (4 <=? peakFreq ent)%N
  then ∃ s', evictFromMain_loop (S fuel) s tot = Some (s', tot)
         ∧ shard_inv s' (xs ++ [e]) ms0 []
         ∧ dat (heap s') e = Some (set_inSmall true (set_freq 1 (strip ent)))
         ∧ rest s' = rest s
  else ∃ s', evictFromMain_loop (S fuel) s tot = Some (s', tot - 1)
         ∧ shard_inv s' xs ms0 []
         ∧ deathRow s' = <[deathRowPos s := Some e]> (deathRow s).
Proof.
  intros Hinv Hent Hf. simpl.
  pose proof (dll_len _ _ _ (inv_main _ _ _ _ Hinv)) as Hlen.
  pose proof (dll_head _ _ _ (inv_main _ _ _ _ Hinv)) as Hhd. simpl in Hlen, Hhd.
  assert ((0 <? entryList.len (main s)) = true) as -> by (apply Z.ltb_lt; lia).
  rewrite Hhd. simpl. rewrite Hent. simpl. rewrite Hf. simpl.
  pose proof (dat_lookup _ _ _ Hent) as Hd.
  destruct (inv_q_remove _ Main _ _ _ [] e ms0 Hinv eq_refl)
    as (s1 & -> & Hinv1 & Hdat1 & Hrest1). simpl in Hinv1. simpl.
  assert (dat (heap s1) e = Some (strip ent)) as Hd1 by by rewrite Hdat1.
  destruct (dat_Some _ _ _ Hd1) as (ent1 & -> & Hst1). simpl.
  assert (peakFreq ent1 = peakFreq ent) as ->
    by (apply (f_equal peakFreq) in Hst1; by destruct ent, ent1).
  destruct (inv_queue_dat _ _ _ _ Main e Hinv) as (ent0 & Hent0 & _ & Hfl & Hdr); [by left|].
  rewrite Hent in Hent0. injection Hent0 as <-.
  destruct (4 <=? peakFreq ent)%N.
  - destruct (inv_modify_float _ _ _ _ _ (set_freq 1) _ Hinv1 Hd1)
      as (s2 & -> & Hinv2 & Hdat2 & Hrest2); [apply data_fn_set_freq|]. simpl.
    assert (dat (heap s2) e = Some (set_freq 1 (strip ent))) as Hd2
      by (rewrite Hdat2; by rewrite decide_True).
    destruct (inv_modify_float _ _ _ _ _ (set_inSmall true) _ Hinv2 Hd2)
      as (s3 & -> & Hinv3 & Hdat3 & Hrest3); [apply data_fn_set_inSmall|]. simpl.
    assert (dat (heap s3) e = Some (set_inSmall true (set_freq 1 (strip ent)))) as Hd3
      by (rewrite Hdat3; by rewrite decide_True).
    destruct (inv_q_pushBack _ Small _ _ _ _ _ Hinv3 Hd3)
      as (s4 & -> & Hinv4 & Hdat4 & Hrest4); [done|by destruct ent|]. simpl.
    exists s4. split_and!; [done|done|by rewrite Hdat4|congruence].
  - destruct (send_finish s xs (e :: ms0) tot Main e ms0 s1)
      as (s2 & -> & Hinv2 & _ & Hdr2); try done.
    eauto.
Qed.

(** A read that misses changes nothing, and misses again later. *)
Lemma shard_get_miss k now s tot v s' tot' :
  shard_get k now s tot = Some (v, false, s', tot') →
  s' = s ∧ tot' = tot ∧
  ∀ now', now ≤ now' → shard_get k now' s tot = Some (zero, false, s, tot).
Proof.
  unfold shard_get, resurrectFromDeathRow.
  destruct (entries s !! k) as [p|] eqn:Hk; [|by intros [= <- <- <-]].
  destruct (heap s !! p) as [ent|] eqn:Hent; simpl; [|done].
  destruct (onDeathRow ent) eqn:Hdr; simpl.
  - intros H. apply bind_Some in H as (s2 & _ & H).
    apply bind_Some in H as (s3 & _ & H). apply bind_Some in H as (s4 & _ & H).
    apply bind_Some in H as (s5 & _ & H). apply bind_Some in H as (s6 & _ & H).
    apply bind_Some in H as (e6 & _ & H). done.
  - destruct (negb (expiryNano ent =? 0) && (expiryNano ent <? now)) eqn:Hexp.
    + intros [= <- <- <-]. split_and!; [done..|]. intros now' Hle.
      apply andb_prop in Hexp as [Hz Hlt]. rewrite Hz. simpl.
      apply Z.ltb_lt in Hlt. by rewrite (proj2 (Z.ltb_lt _ _)) by lia.
    + intros H. apply bind_Some in H as (s1 & _ & H).
      apply bind_Some in H as (e1 & _ & H). done.
Qed.

Lemma with_shard_id c i s :
  shards c !! i = Some s → with_shard i s (totalEntries c) c = c.
Proof. intros H. unfold with_shard. rewrite (list_insert_id _ _ _ H). by destruct c. Qed.

Lemma get_miss c k now v c' :
  get c k now = Some (v, false, c') →
  c' = c ∧ ∀ now', now ≤ now' → get c k now' = Some (zero, false, c).
Proof.
  unfold get. destruct (shards c !! _) as [s|] eqn:Hs; simpl; [|done].
  destruct (shard_get k now s (totalEntries c)) as [[[[v0 ok] s'] tot']|] eqn:Hg;
    simpl; [|done].
  intros [= -> -> <-].
  destruct (shard_get_miss _ _ _ _ _ _ _ Hg) as (-> & -> & Hlater).
  split; [by apply with_shard_id|].
  intros now' Hle. rewrite (Hlater _ Hle). simpl. by rewrite with_shard_id.
Qed.

(** [setWithHash] on a key the shard holds, whatever the state of the
    shard: three stores through the pointer of its entry. *)
Lemma setWithHash_update pcap k v exp h0 s tot p (e : entry V) :
  entries s !! k = Some p → heap s !! p = Some e →
  setWithHash pcap k v exp h0 s tot
  = Some (set_heap (<[p := bump (set_expiryNano exp (set_value v e))]> (heap s)) s, tot).
Proof.
  intros Hk He. unfold setWithHash. rewrite Hk.
  unfold modify_entry. rewrite (modify_Some _ _ _ _ He). simpl.
  assert (p < length (heap s))%nat as Hlt by by eapply lookup_lt_Some.
  unfold modify. rewrite list_lookup_insert_eq by done. simpl.
  rewrite list_lookup_insert_eq by (by rewrite length_insert). simpl.
  by rewrite !list_insert_insert_eq.
Qed.

Lemma bump_fields (e : entry V) :
  key (bump e) = key e ∧ value (bump e) = value e ∧ expiryNano (bump e) = expiryNano e
  ∧ prev (bump e) = prev e ∧ next (bump e) = next e
  ∧ inSmall (bump e) = inSmall e ∧ onDeathRow (bump e) = onDeathRow e
  ∧ freq (bump e) = (if (freq e <? maxFreq)%N then freq e + 1 else freq e)%N.
Proof.
  unfold bump. destruct (freq e <? maxFreq)%N eqn:Hf; [|done]. simpl.
  assert (((freq e + 1) mod 2 ^ 32)%N = (freq e + 1)%N) as Hmod.
  { apply N.mod_small. apply N.ltb_lt in Hf. unfold maxFreq in Hf.
    change (2 ^ 32)%N with 4294967296%N. lia. }
  rewrite Hmod. by destruct (peakFreq e <? freq e + 1)%N.
Qed.

(** [pushBack] never fails on allocated entries. *)
Lemma pushBack_total (h : list (entry V)) (l : entryList.t) (e : ptr) :
  is_Some (h !! e) → (∀ t, entryList.tail l = Some t → is_Some (h !! t)) →
  ∃ h' l', entryList.pushBack h l e = Some (h', l')
    ∧ entryList.tail l' = Some e ∧ entryList.len l' = entryList.len l + 1.
Proof.
  intros [x Hx] Ht. unfold entryList.pushBack.
  rewrite (modify_Some _ _ _ _ Hx). simpl.
  assert (e < length h)%nat as Hlt by by eapply lookup_lt_Some.
  assert (<[e:=set_prev (entryList.tail l) x]> h !! e
          = Some (set_prev (entryList.tail l) x)) as H1
    by (by apply list_lookup_insert_eq).
  rewrite (modify_Some _ _ _ _ H1). simpl.
  destruct (entryList.tail l) as [t|] eqn:Htl; simpl.
  - destruct (Ht t eq_refl) as [y Hy].
    assert (t < length h)%nat as Hlt' by by eapply lookup_lt_Some.
    match goal with
    | |- context [modify t _ ?h2] =>
        destruct (lookup_lt_is_Some_2 h2 t) as [z Hz]; [by rewrite !length_insert|]
    end.
    rewrite (modify_Some _ _ _ _ Hz). simpl. eauto.
  - eauto.
Qed.

(** The resurrection of an entry, on any shard whose main tail is allocated. *)
Lemma resurrect_update k (s : shard V) tot p (e : entry V) :
  entries s !! k = Some p → heap s !! p = Some e → onDeathRow e = true →
  (∀ t, entryList.tail (main s) = Some t → is_Some (heap s !! t)) →
  ∃ s' e', resurrectFromDeathRow k s tot = Some (value e, true, s', tot + 1)
    ∧ deathRow s' = clear_slot p (deathRow s)
    ∧ small s' = small s ∧ entries s' = entries s
    ∧ entryList.tail (main s') = Some p
    ∧ entryList.len (main s') = entryList.len (main s) + 1
    ∧ heap s' !! p = Some e'
    ∧ strip e' = set_peakFreq 3 (set_freq 3 (set_inSmall false
                                              (set_onDeathRow false (strip e)))).
Proof.
  intros Hk He Hdr Ht.
  assert (p < length (heap s))%nat as Hlt by by eapply lookup_lt_Some.
  unfold resurrectFromDeathRow. rewrite Hk, He. simpl. rewrite Hdr. simpl.
  unfold modify_entry. simpl. rewrite (modify_Some _ _ _ _ He). simpl.
  unfold modify.
  repeat (rewrite list_lookup_insert_eq by (by rewrite ?length_insert); simpl).
  rewrite !list_insert_insert_eq.
  set (e4 := set_peakFreq 3 (set_freq 3 (set_inSmall false (set_onDeathRow false e)))).
  unfold q_pushBack. simpl.
  destruct (pushBack_total (<[p:=e4]> (heap s)) (main s) p) as (h' & l' & Hpush & Htl & Hlen).
  { apply lookup_lt_is_Some_2. by rewrite length_insert. }
  { intros t Htt. apply lookup_lt_is_Some_2. rewrite length_insert.
    apply lookup_lt_is_Some_1. by apply Ht. }
  rewrite Hpush. simpl.
  pose proof (pushBack_strip _ _ _ _ _ Hpush p) as Hst.
  rewrite list_lookup_insert_eq in Hst by done. simpl in Hst.
  destruct (h' !! p) as [e'|] eqn:He'; [|done]. simpl in Hst. apply (inj Some) in Hst.
  simpl. exists (set_main l' (set_heap h' (set_deathRow (clear_slot p (deathRow s)) (deathRowPos s) s))), e'.
  assert (value e' = value e) as -> by exact (f_equal value Hst).
  split_and!; [done..|exact Hst].
Qed.
End ClaimLemmas.

(** * The ghost frequency ring *)

Section Ring.

Lemma scan_absent hs fs h : h ∉ hs → ring.scan hs fs h = (0%N, false).
Proof.
  revert fs. induction hs as [|x hs IH]; intros fs Hn; [done|].
  destruct fs as [|f fs]; [done|]. simpl.
  rewrite bool_decide_false by (intros ->; apply Hn; by left).
  apply IH. intros ?. apply Hn. by right.
Qed.

Lemma scan_first hs fs h i f :
  length fs = length hs → hs !! i = Some h → (∀ j, (j < i)%nat → hs !! j ≠ Some h) →
  fs !! i = Some f → ring.scan hs fs h = (f, true).
Proof.
  revert fs i. induction hs as [|x hs IH]; intros fs i Hlen Hi Hfirst Hf; [done|].
  destruct fs as [|f0 fs]; [done|]. simpl.
  destruct i as [|i]; simpl in *.
  - simplify_eq. by rewrite bool_decide_true.
  - rewrite bool_decide_false.
    + apply (IH fs i); [lia|done| |done]. intros j Hj. apply (Hfirst (S j)). lia.
    + intros ->. by apply (Hfirst 0%nat); [lia|].
Qed.

(** C7, as the code has it: [lookup] scans the slots from index 0 and
    returns the frequency of the first slot whose hash is [h], whichever
    [add] wrote it; it reports "not present" exactly when no slot holds
    [h]. *)
Theorem C7_lookup_first_match (r : ghostFreqRing) (h : Z) :
  length (freqs r) = length (hashes r) →
  (h ∉ hashes r → ring.lookup r h = (0%N, false)) ∧
  (∀ i f, hashes r !! i = Some h → (∀ j, (j < i)%nat → hashes r !! j ≠ Some h) →
          freqs r !! i = Some f → ring.lookup r h = (f, true)).
Proof.
  intros Hlen. split.
  - apply scan_absent.
  - intros i f. by apply scan_first.
Qed.

(** C7 at a ring that holds hash 7 twice. *)
Lemma C7_lookup_first_match_witness :
  let r := ring.add (ring.add ghostFreqRing_zero 7 2) 7 5 in
  length (freqs r) = length (hashes r) ∧
  ring.lookup r 7 = (2%N, true).
Proof.
  split; [reflexivity|].
  refine (proj2 (C7_lookup_first_match _ 7 _) 0%nat 2%N _ _ _);
    [reflexivity|reflexivity|intros j Hj; lia|reflexivity].
Defined.

(** C7, as stated, fails: after [add(7, 2); add(7, 5)] the most recent
    [add] for hash 7 stored 5, and [lookup(7)] returns 2. *)
Lemma C7_lookup_not_most_recent :
  let r := ring.add (ring.add ghostFreqRing_zero 7 2) 7 5 in
  hashes r !! 1%nat = Some 7 ∧ freqs r !! 1%nat = Some 5%N ∧ pos r = 2%nat ∧
  ring.lookup r 7 = (2%N, true) ∧ ring.lookup r 7 ≠ (5%N, true).
Proof. vm_compute. split_and!; congruence. Qed.
End Ring.

(** * The singleflight layer *)

Section Singleflight.
Context {V E : Type} `{!Env V}.
Implicit Types (c : Cache V E).

(** C3, as the code has it: when the loader returns (a value or an
    error), or is not called because the leader's second cache read hits,
    the leader removes the record from the singleflight map and signals its
    latch. *)
Theorem C3_leader_cleanup c k call (fc : flightCall V E) loader ttl now :
  cache_inv c → flights c !! k = Some call → calls c !! call = Some fc → wg fc = 1 →
  loader ≠ LoaderPanic →
  ∃ v e c', getSet_leader c k call loader ttl now = Some (Returned v e, c')
    ∧ flights c' !! k = None
    ∧ wg <$> (calls c' !! call) = Some 0.
Proof.
  intros [Hm Hfl] Hk Hcall Hwg Hl. unfold getSet_leader.
  destruct (get_ok (memory c) k now Hm) as (v & ok & m1 & -> & Hm1). simpl.
  assert (∀ (cx : Cache V E) (r : fetch_result V E) f,
            calls cx = calls c → (∀ x, wg (f x) = wg x) →
            ∃ c', (c3 ← modify_call call f cx; c4 ← finish k call c3; Some (r, c4))
                  = Some (r, c')
                  ∧ flights c' !! k = None ∧ wg <$> (calls c' !! call) = Some 0)
    as Hfinish.
  { intros cx r f Hcalls Hf.
    assert (call < length (calls c))%nat by by eapply lookup_lt_Some.
    unfold modify_call, finish, modify_call. rewrite Hcalls, Hcall. simpl.
    rewrite list_lookup_insert_eq by done. simpl.
    eexists. split; [done|]. simpl. split; [apply lookup_delete_eq|].
    rewrite list_lookup_insert_eq by (by rewrite length_insert). simpl.
    rewrite Hf, Hwg. done. }
  destruct ok; simpl.
  - match goal with
    | |- context [modify_call _ ?f ?cx] =>
        destruct (Hfinish cx (Returned (E:=E) v None) f eq_refl) as (c' & -> & Hc'); [done|]
    end.
    eauto.
  - destruct loader as [lv le|]; [|done]. simpl.
    destruct le as [e|]; simpl.
    + match goal with
      | |- context [modify_call _ ?f ?cx] =>
          destruct (Hfinish cx (Returned lv (Some e)) f eq_refl) as (c' & -> & Hc'); [done|]
      end.
      eauto.
    + unfold Set_.
      destruct (ttl <=? 0);
        match goal with
        | |- context [SetTTL ?cx ?k ?v ?t ?n] =>
            destruct (SetTTL_ok cx k v t n) as (m3 & -> & Hm3); [done|]
        end; simpl;
        match goal with
        | |- context [modify_call _ ?f ?cx] =>
            destruct (Hfinish cx (Returned (E:=E) lv None) f eq_refl) as (c' & -> & Hc');
              [done|]
        end; eauto.
Qed.

(** C4: when the loader returns the error [e], the leader returns [e], a
    follower of the same record reads [e] from it once the latch is
    signalled, and the cache is as it was: the key still misses. *)
Theorem C4_loader_error c k call (fc : flightCall V E) ttl now v e z m :
  flights c !! k = Some call → calls c !! call = Some fc → wg fc = 1 →
  get (memory c) k now = Some (z, false, m) →
  ∃ c', getSet_leader c k call (Loaded v (Some e)) ttl now
          = Some (Returned v (Some e), c')
    ∧ getSet_follower c' call = Some (Returned v (Some e))
    ∧ memory c' = memory c
    ∧ ∀ now', now ≤ now' → get (memory c') k now' = Some (zero, false, memory c').
Proof.
  intros Hk Hcall Hwg Hget.
  destruct (get_miss _ _ _ _ _ Hget) as (-> & Hlater).
  assert (call < length (calls c))%nat by by eapply lookup_lt_Some.
  unfold getSet_leader. rewrite Hget. simpl.
  unfold modify_call, finish, modify_call. simpl. rewrite Hcall. simpl.
  rewrite list_lookup_insert_eq by done. simpl.
  eexists. split; [done|]. split_and!.
  - unfold getSet_follower. simpl.
    rewrite list_lookup_insert_eq by (by rewrite length_insert). simpl.
    rewrite Hwg. done.
  - done.
  - done.
Qed.
End Singleflight.

Lemma demo_leader_inv : cache_inv demo_leader.
Proof.
  split; [apply newS3FIFO_inv|].
  intros k call Hk. simpl in Hk. apply lookup_singleton_Some in Hk as [_ <-].
  simpl. lia.
Qed.

Lemma demo_leader_enter :
  getSet_enter (demo_cache 1) 1 0 = Some (Leader 0%nat, demo_leader).
Proof. vm_compute. reflexivity. Qed.

(** C3 at a fresh cache whose leader for key 1 runs a loader that returns. *)
Lemma C3_leader_cleanup_witness :
  cache_inv demo_leader ∧
  ∃ v e c', getSet_leader demo_leader 1 0%nat (Loaded 42 None) 0 0
              = Some (Returned v e, c')
    ∧ flights c' !! 1 = None
    ∧ wg <$> (calls c' !! 0%nat) = Some 0.
Proof.
  split; [apply demo_leader_inv|].
  apply (C3_leader_cleanup demo_leader 1 0%nat (FlightCall 1 0 None));
    [apply demo_leader_inv|reflexivity|reflexivity|reflexivity|discriminate].
Defined.

(** C3, as stated, fails: a loader that panics unwinds through [getSet],
    which has no deferred cleanup; the record stays in the singleflight map
    and its latch is never signalled. *)
Lemma C3_loader_panic_leaves_record :
  ∃ c', getSet_leader demo_leader 1 0%nat LoaderPanic 0 0 = Some (Panicked, c')
    ∧ flights c' !! 1 = Some 0%nat
    ∧ wg <$> (calls c' !! 0%nat) = Some 1
    ∧ getSet_follower c' 0%nat = Some Blocked.
Proof. eexists. split; [vm_compute; reflexivity|]. vm_compute. done. Qed.

(** C4 at a fresh cache whose leader for key 1 runs a loader that fails. *)
Lemma C4_loader_error_witness :
  get (memory demo_leader) 1 0 = Some (0, false, memory demo_leader) ∧
  ∃ c', getSet_leader demo_leader 1 0%nat (Loaded 0 (Some 13)) 0 0
          = Some (Returned 0 (Some 13), c')
    ∧ getSet_follower c' 0%nat = Some (Returned 0 (Some 13))
    ∧ memory c' = memory demo_leader
    ∧ ∀ now', 0 ≤ now' → get (memory c') 1 now' = Some (zero, false, memory c').
Proof.
  split; [vm_compute; reflexivity|].
  apply (C4_loader_error demo_leader 1 0%nat (FlightCall 1 0 None) 0 0 0 13 0
           (memory demo_leader)); [reflexivity|reflexivity|reflexivity|].
  vm_compute. reflexivity.
Defined.

(** * Invariants of the reachable states *)

Section Invariants.
Context {V E : Type} `{!Env V}.


(** C5, as the code has it: after any run of operations that deletes no key
    whose entry is on death row, every entry reachable through a shard's map
    is in exactly one place: linked in the small list (in_small set,
    on_death_row clear), linked in the main list (both clear), or held in a
    death-row slot (on_death_row set; in_small is left as it was). *)
Theorem C5_entry_in_one_place size procs ttl ops (c : Cache V E) (s : shard V) :
  run_adm ops (New size procs ttl) = Some c → s ∈ shards (memory c) →
  ∃ xs ms, dll (heap s) (small s) xs ∧ dll (heap s) (main s) ms ∧
    ∀ k p, entries s !! k = Some p →
      ∃ e, heap s !! p = Some e ∧ key e = k ∧
        ((p ∈ xs ∧ (p ∉ ms) ∧ (Some p ∉ deathRow s)
          ∧ inSmall e = true ∧ onDeathRow e = false) ∨
         ((p ∉ xs) ∧ p ∈ ms ∧ (Some p ∉ deathRow s)
          ∧ inSmall e = false ∧ onDeathRow e = false) ∨
         ((p ∉ xs) ∧ (p ∉ ms) ∧ Some p ∈ deathRow s ∧ onDeathRow e = true)).
Proof.
  intros Hrun Hs.
  destruct (run_adm_inv _ _ _ (New_inv size procs ttl) Hrun) as [(Hwf & _) _].
  rewrite Forall_forall in Hwf. destruct (Hwf _ Hs) as (xs & ms & Hinv).
  exists xs, ms. split; [apply Hinv|]. split; [apply Hinv|].
  intros k p Hk.
  destruct (inv_map _ _ _ _ Hinv _ _ Hk) as (d & Hd & Hkey & Hin).
  destruct (dat_Some _ _ _ Hd) as (e & He & ->).
  exists e. split; [done|]. split; [by destruct e|].
  assert (inSmall (strip e) = inSmall e ∧ onDeathRow (strip e) = onDeathRow e) as [Hi Ho]
    by by destruct e.
  unfold members in Hin. rewrite !elem_of_app in Hin.
  destruct Hin as [Hin|[Hin|[Hin|Hin]]]; [| | |by apply elem_of_nil in Hin].
  - left. destruct (inv_flag_small _ _ _ _ Hinv _ _ Hin Hd).
    split_and!; [done| | |congruence..].
    + by eapply inv_disjoint.
    + rewrite <- elem_of_occupants. intros Hd'.
      by destruct (inv_disjoint_dr _ _ _ _ _ Hinv Hd').
  - right. left. destruct (inv_flag_main _ _ _ _ Hinv _ _ Hin Hd).
    split_and!; [|done| |congruence..].
    + intros ?. by eapply (inv_disjoint _ _ _ _ p Hinv).
    + rewrite <- elem_of_occupants. intros Hd'.
      by destruct (inv_disjoint_dr _ _ _ _ _ Hinv Hd').
  - right. right. pose proof (inv_flag_dr _ _ _ _ Hinv _ _ Hin Hd).
    destruct (inv_disjoint_dr _ _ _ _ _ Hinv Hin).
    split_and!; [done|done| |congruence]. by apply elem_of_occupants.
Qed.
End Invariants.



(** C5 after [set(1); set(2)] with capacity 1. *)
Lemma C5_entry_in_one_place_witness :
  ∃ c s, run_adm (demo_sets [1; 2]) (New 1 1 0) = Some c ∧ s ∈ shards (memory c) ∧
    ∃ xs ms, dll (heap s) (small s) xs ∧ dll (heap s) (main s) ms ∧
      ∀ k p, entries s !! k = Some p →
        ∃ e, heap s !! p = Some e ∧ key e = k ∧
          ((p ∈ xs ∧ (p ∉ ms) ∧ (Some p ∉ deathRow s)
            ∧ inSmall e = true ∧ onDeathRow e = false) ∨
           ((p ∉ xs) ∧ p ∈ ms ∧ (Some p ∉ deathRow s)
            ∧ inSmall e = false ∧ onDeathRow e = false) ∨
           ((p ∉ xs) ∧ (p ∉ ms) ∧ Some p ∈ deathRow s ∧ onDeathRow e = true)).
Proof.
  destruct (run_adm (demo_sets [1; 2]) (New 1 1 0)) as [c|] eqn:Hrun;
    [|vm_compute in Hrun; discriminate].
  destruct (shards (memory c)) as [|s l] eqn:Hs.
  { vm_compute in Hrun. injection Hrun as <-. vm_compute in Hs. discriminate. }
  exists c, s. split; [reflexivity|]. split; [rewrite Hs; by left|].
  apply (C5_entry_in_one_place 1 1 0 (demo_sets [1; 2]) c s Hrun).
  rewrite Hs. by left.
Defined.

(** C5, as stated, fails: with capacity 1, [set(1); set(2)] sends the entry
    of key 1 from the small queue to death row; [sendToDeathRow] sets
    on_death_row and leaves in_small set, so the entry is in none of the
    three states of the claim. *)
Lemma C5_death_row_keeps_in_small :
  ∃ c s p e, run (demo_sets [1; 2]) (demo_cache 1) = Some c
    ∧ shard0 c = Some s ∧ entries s !! 1 = Some p ∧ heap s !! p = Some e
    ∧ onDeathRow e = true ∧ inSmall e = true
    ∧ ¬ ((inSmall e = true ∧ onDeathRow e = false) ∨
         (inSmall e = false ∧ onDeathRow e = false) ∨
         (onDeathRow e = true ∧ inSmall e = false)).
Proof.
  destruct (run (demo_sets [1; 2]) (demo_cache 1)) as [c|] eqn:Hrun;
    [|vm_compute in Hrun; discriminate].
  vm_compute in Hrun. injection Hrun as <-.
  eexists _, _, _, _. split; [reflexivity|]. split; [vm_compute; reflexivity|].
  split; [vm_compute; reflexivity|]. split; [vm_compute; reflexivity|].
  vm_compute. split_and!; [reflexivity..|]. intros [[_ ?]|[[? _]|[_ ?]]]; discriminate.
Qed.

(** C6 at its failing input: with capacity 1, the key 1 is deleted while
    its entry is on death row, and nine more keys are set.  [delete] unlinks
    the entry from a queue it is not in and leaves it in its slot; when the
    slot is reused the sum of the two lengths and the occupied slots is 9,
    and the map holds 10 entries. *)
Lemma C6_stale_death_row_slot :
  ∃ c s, run stale_slot_ops (demo_cache 1) = Some c ∧ shard0 c = Some s
    ∧ Z.of_nat (size (entries s)) = 10
    ∧ entryList.len (small s) + entryList.len (main s) + occupied s = 9.
Proof.
  destruct (run stale_slot_ops (demo_cache 1)) as [c|] eqn:Hrun;
    [|vm_compute in Hrun; discriminate].
  vm_compute in Hrun. injection Hrun as <-.
  eexists _, _. split; [reflexivity|]. split; [vm_compute; reflexivity|].
  vm_compute. done.
Qed.

(** * Admission, eviction and the set/get laws *)

Section Operations.
Context {V : Type} `{!Env V}.

(** C2, as the code has it: a set of a key that the shard does not hold,
    warm or not, consults the ghost filters only while the engine is at
    capacity ([totalEntries ≥ capacity]).  Then a ghost hit puts the new
    entry at the tail of main and a ghost miss at the tail of small; below
    capacity the entry goes to the tail of small whatever the filters
    hold. *)
Theorem C2_admission_queue pcap k v exp h0 (s : shard V) tot :
  shard_wf s → entries s !! k = None →
  let h := if h0 =? 0 then hashInt64 k else h0 in
  let ent := length (heap s) in
  ∃ s' tot' e,
    setWithHash pcap k v exp h0 s tot = Some (s', tot')
    ∧ entries s' !! k = Some ent ∧ heap s' !! ent = Some e
    ∧ if (pcap <=? tot) && ghost_hit s h
      then inSmall e = false ∧ entryList.tail (main s') = Some ent
      else inSmall e = true ∧ entryList.tail (small s') = Some ent.
Proof.
  intros (xs & ms & Hinv) Hk h ent.
  destruct (setWithHash_new pcap k v exp h0 s tot xs ms Hinv Hk)
    as (s' & tot' & xs' & ms' & d & Hset & Hinv' & _ & Hk' & Hd & _ & _ & _ & _ & Hsm).
  fold h ent in Hset, Hinv', Hk', Hd, Hsm.
  destruct (dat_Some _ _ _ Hd) as (e & He & ->).
  exists s', tot', e. split_and!; [done..|].
  assert (inSmall e = negb ((pcap <=? tot) && ghost_hit s h)) as Hin
    by (rewrite <- Hsm; by destruct e).
  destruct ((pcap <=? tot) && ghost_hit s h); simpl in *.
  - split; [done|].
    rewrite (dll_tail _ _ _ (inv_main _ _ _ _ Hinv')). apply last_snoc.
  - split; [done|].
    rewrite (dll_tail _ _ _ (inv_small _ _ _ _ Hinv')). apply last_snoc.
Qed.

(** C8: at any iteration of a round of main-queue eviction, a head entry
    with frequency 0 and peak frequency at least 4 leaves main for the tail
    of small with frequency 1 and in_small set, and the round returns
    without an eviction (map, death row and global counter are unchanged); a
    head entry with frequency 0 and a lower peak goes to the death-row ring,
    in the slot at the ring's position. *)
Theorem C8_cold_head_of_main fuel (s : shard V) tot e (ent : entry V) :
  shard_wf s → entryList.head (main s) = Some e → heap s !! e = Some ent →
  freq ent = 0%N →
  ∃ xs ms0, dll (heap s) (small s) xs ∧ dll (heap s) (main s) (e :: ms0) ∧
    ((4 ≤ peakFreq ent)%N →
     ∃ s' ent', evictFromMain_loop (S fuel) s tot = Some (s', tot)
       ∧ dll (heap s') (small s') (xs ++ [e]) ∧ dll (heap s') (main s') ms0
       ∧ entryList.tail (small s') = Some e
       ∧ heap s' !! e = Some ent'
       ∧ freq ent' = 1%N ∧ inSmall ent' = true ∧ onDeathRow ent' = false
       ∧ entries s' = entries s ∧ deathRow s' = deathRow s
       ∧ shard_wf s') ∧
    ((peakFreq ent < 4)%N →
     ∃ s' ent', evictFromMain_loop (S fuel) s tot = Some (s', tot - 1)
       ∧ dll (heap s') (small s') xs ∧ dll (heap s') (main s') ms0
       ∧ deathRow s' = <[deathRowPos s := Some e]> (deathRow s)
       ∧ heap s' !! e = Some ent' ∧ onDeathRow ent' = true
       ∧ shard_wf s').
Proof.
  intros (xs & ms & Hinv) Hhd Hent Hf.
  rewrite (dll_head _ _ _ (inv_main _ _ _ _ Hinv)) in Hhd.
  destruct ms as [|e' ms0]; [done|]. simpl in Hhd. injection Hhd as ->.
  exists xs, ms0. split; [apply Hinv|]. split; [apply Hinv|].
  pose proof (evictFromMain_cold_head fuel s tot xs e ms0 ent Hinv Hent Hf) as Hstep.
  split; intros Hpk.
  - rewrite (proj2 (N.leb_le _ _) Hpk) in Hstep.
    destruct Hstep as (s' & Hrun & Hinv' & Hd & Hrest).
    destruct (dat_Some _ _ _ Hd) as (ent' & Hent' & Hst).
    exists s', ent'. split_and!; try done.
    + apply Hinv'.
    + apply Hinv'.
    + rewrite (dll_tail _ _ _ (inv_small _ _ _ _ Hinv')). apply last_snoc.
    + apply (f_equal freq) in Hst. by destruct ent'.
    + apply (f_equal inSmall) in Hst. by destruct ent'.
    + destruct (inv_queue_dat _ _ _ _ Small e Hinv') as (x & Hx & _ & _ & Hdr);
        [simpl; set_solver|]. congruence.
    + by apply rest_entries.
    + by apply rest_deathRow.
    + by exists (xs ++ [e]), ms0.
  - rewrite (proj2 (N.leb_gt _ _) Hpk) in Hstep.
    destruct Hstep as (s' & Hrun & Hinv' & Hdr).
    assert (e ∈ occupants (deathRow s')) as Hocc.
    { rewrite Hdr. apply elem_of_occupants. apply list_elem_of_lookup.
      exists (deathRowPos s). apply list_lookup_insert_eq.
      rewrite (inv_dr_len _ _ _ _ Hinv). apply Hinv. }
    destruct (inv_member _ _ _ _ Hinv' e) as (d & Hd & _);
      [unfold members; set_solver|].
    destruct (dat_Some _ _ _ Hd) as (ent' & Hent' & ->).
    exists s', ent'. split_and!; try done.
    + apply Hinv'.
    + apply Hinv'.
    + pose proof (inv_flag_dr _ _ _ _ Hinv' _ _ Hocc Hd). by destruct ent'.
    + by exists xs, ms0.
Qed.

(** On a well-formed engine, [set(k, v)] without expiry followed by
    [get(k)] returns [(v, true)], whether [k] is new, is in a queue, or is
    on death row, and whether or not the set runs an eviction round. *)
Lemma set_then_get_wf (c : s3fifo V) k v now :
  engine_inv c →
  ∃ c1 c2, set c k v 0 = Some c1 ∧ get c1 k now = Some (v, true, c2).
Proof.
  intros Hc. destruct (shard_lookup c k Hc) as (s & Hs & xs & ms & Hinv).
  pose proof (lookup_lt_Some _ _ _ Hs) as Hlt.
  unfold set. rewrite Hs. simpl.
  assert (∀ s' tot' xs' ms' p d,
            shard_inv s' xs' ms' [] → entries s' !! k = Some p →
            dat (heap s') p = Some d → value d = v → expiryNano d = 0 →
            ∃ c2, get (with_shard (shardIdx c (uint64 k)) s' tot' c) k now
                  = Some (v, true, c2)) as Hget.
  { intros s' tot' xs' ms' p d Hinv' Hk' Hd Hv He.
    unfold get. simpl. fold (shardIdx c (uint64 k)).
    rewrite list_lookup_insert_eq by done. simpl.
    destruct (onDeathRow d) eqn:Hdr.
    - destruct (resurrect_ok k s' tot' _ _ _ _ Hinv' Hk' Hd Hdr) as (s2 & Hres & _).
      rewrite Hv in Hres.
      destruct (dat_Some _ _ _ Hd) as (e & He0 & ->).
      unfold shard_get. rewrite Hk', He0. simpl.
      assert (onDeathRow e = true) as -> by by destruct e.
      rewrite Hres. simpl. eauto.
    - destruct (shard_get_hit k now s' tot' _ _ _ _ Hinv' Hk' Hd Hdr) as (s2 & Hhit & _).
      { by rewrite He. }
      rewrite Hv in Hhit. rewrite Hhit. simpl. eauto. }
  destruct (entries s !! k) as [p|] eqn:Hk.
  - destruct (inv_map _ _ _ _ Hinv _ _ Hk) as (d & Hd & _).
    destruct (setWithHash_existing (s3fifo_capacity c) k v 0 0 s (totalEntries c)
                _ _ _ _ Hinv Hk Hd) as (s' & -> & Hinv' & Hdat & Hrest & _).
    simpl.
    destruct (bump_fields (set_expiryNano 0 (set_value v d))) as (_ & Hbv & Hbe & _).
    destruct (Hget s' (totalEntries c) xs ms p (bump (set_expiryNano 0 (set_value v d))))
      as (c2 & Hc2);
      [done|by rewrite (rest_entries _ _ Hrest)
      |rewrite Hdat; by rewrite decide_True|exact Hbv|exact Hbe|].
    eauto.
  - destruct (setWithHash_new (s3fifo_capacity c) k v 0 0 s (totalEntries c)
                _ _ Hinv Hk)
      as (s' & tot' & xs' & ms' & d & -> & Hinv' & _ & Hk' & Hd & _ & Hv & He & _).
    simpl. destruct (Hget s' tot' _ _ _ d Hinv' Hk' Hd Hv He) as (c2 & Hc2). eauto.
Qed.

(** C10: [set] on a key whose entry is on death row stores the value and
    the expiry in that entry and bumps its frequency (up to [maxFreq]);
    nothing else in the shard changes: the entry keeps its on_death_row flag
    and its slot, the queues, the map and the global counter are as they
    were.  The next [get] takes the entry out of its slot, puts it at the
    tail of main with frequency 3, adds one to the global counter and
    returns the new value.  The tail of main, when there is one, is an
    allocated entry, as every Go pointer is. *)
Theorem C10_set_on_death_row (c : s3fifo V) k v exp now (s : shard V) p (e : entry V) :
  shards c !! shardIdx c (uint64 k) = Some s →
  entries s !! k = Some p → heap s !! p = Some e → onDeathRow e = true →
  (∀ t, entryList.tail (main s) = Some t → is_Some (heap s !! t)) →
  let e1 := bump (set_expiryNano exp (set_value v e)) in
  let s1 := set_heap (<[p := e1]> (heap s)) s in
  let c1 := with_shard (shardIdx c (uint64 k)) s1 (totalEntries c) c in
  set c k v exp = Some c1
  ∧ value e1 = v ∧ expiryNano e1 = exp
  ∧ freq e1 = (if (freq e <? maxFreq)%N then freq e + 1 else freq e)%N
  ∧ onDeathRow e1 = true ∧ inSmall e1 = inSmall e
  ∧ prev e1 = prev e ∧ next e1 = next e
  ∧ deathRow s1 = deathRow s ∧ small s1 = small s ∧ main s1 = main s
  ∧ entries s1 = entries s
  ∧ totalEntries c1 = totalEntries c
  ∧ ∃ c2 s2 e2,
      get c1 k now = Some (v, true, c2)
      ∧ shards c2 !! shardIdx c (uint64 k) = Some s2
      ∧ deathRow s2 = clear_slot p (deathRow s)
      ∧ small s2 = small s ∧ entries s2 = entries s
      ∧ entryList.tail (main s2) = Some p
      ∧ entryList.len (main s2) = entryList.len (main s) + 1
      ∧ heap s2 !! p = Some e2
      ∧ onDeathRow e2 = false ∧ inSmall e2 = false ∧ freq e2 = 3%N ∧ value e2 = v
      ∧ totalEntries c2 = totalEntries c + 1
      ∧ (shard_wf s → Some p ∈ deathRow s ∧ (Some p ∉ deathRow s2) ∧ shard_wf s2).
Proof.
  intros Hs Hk He Hdr Htl e1 s1 c1.
  pose proof (lookup_lt_Some _ _ _ Hs) as Hlt.
  pose proof (lookup_lt_Some _ _ _ He) as Hp.
  destruct (bump_fields (set_expiryNano exp (set_value v e)))
    as (Hbk & Hbv & Hbe & Hbp & Hbn & Hbi & Hbo & Hbf).
  split.
  { unfold set. rewrite Hs. simpl.
    by rewrite (setWithHash_update _ _ _ _ _ _ _ _ _ Hk He). }
  split_and!;
    [exact Hbv|exact Hbe|exact Hbf|exact (eq_trans Hbo Hdr)|exact Hbi|exact Hbp|exact Hbn
    |done..|].
  assert (heap s1 !! p = Some e1) as He1 by (by apply list_lookup_insert_eq).
  destruct (resurrect_update k s1 (totalEntries c) p e1 Hk He1 (eq_trans Hbo Hdr))
    as (s2 & e2 & Hres & Hd2 & Hsm2 & Hen2 & Htl2 & Hlen2 & He2 & Hst2).
  { intros t Ht. apply lookup_lt_is_Some_2. unfold s1. simpl. rewrite length_insert.
    apply lookup_lt_is_Some_1. by apply Htl. }
  assert (value e1 = v) as Hv1 by exact Hbv. rewrite Hv1 in Hres.
  exists (with_shard (shardIdx c (uint64 k)) s2 (totalEntries c + 1) c1), s2, e2.
  split.
  { unfold get. simpl. fold (shardIdx c (uint64 k)).
    rewrite list_lookup_insert_eq by done. simpl.
    unfold shard_get. change (entries s1) with (entries s). rewrite Hk, He1. simpl.
    assert (onDeathRow e1 = true) as -> by exact (eq_trans Hbo Hdr).
    change (entries s) with (entries s1). by rewrite Hres. }
  split. { simpl. rewrite list_insert_insert_eq. by apply list_lookup_insert_eq. }
  split_and!; [done..| | | | |done|].
  - exact (f_equal onDeathRow Hst2).
  - exact (f_equal inSmall Hst2).
  - exact (f_equal freq Hst2).
  - exact (eq_trans (f_equal value Hst2) Hbv).
  - intros (xs & ms & Hinv).
    pose proof (dat_lookup _ _ _ He) as Hd.
    destruct (inv_on_death_row _ _ _ _ _ _ Hinv Hk Hd) as (Hocc & _).
    split; [apply elem_of_occupants, Hocc; exact Hdr|].
    destruct (setWithHash_existing (s3fifo_capacity c) k v exp 0 s (totalEntries c)
                _ _ _ _ Hinv Hk Hd) as (s' & Hset & Hinv' & _).
    rewrite (setWithHash_update _ _ _ _ _ _ _ _ _ Hk He) in Hset.
    injection Hset as <-. fold e1 s1 in Hinv'.
    destruct (resurrect_ok k s1 (totalEntries c) _ _ _ _ Hinv' Hk (dat_lookup _ _ _ He1))
      as (s2' & Hres' & Hinv2 & _ & _ & Hnocc & _); [exact (eq_trans Hbo Hdr)|].
    assert (value (strip e1) = v) as Hv2 by exact Hbv. rewrite Hv2 in Hres'.
    rewrite Hres in Hres'. injection Hres' as <-.
    split; [by rewrite <- elem_of_occupants|]. by exists xs, (ms ++ [p]).
Qed.
End Operations.

(** * The operations at concrete states *)

(** C2 at capacity: after ten sets with capacity 1 the hash of key 1 is in
    the ghost filters, and the set of key 1 takes the main-queue branch. *)
Lemma C2_admission_queue_witness :
  ∃ c s, run_adm (demo_sets [1; 2; 3; 4; 5; 6; 7; 8; 9; 10]) (New 1 1 0) = Some c
    ∧ shard0 c = Some s
    ∧ shard_wf s ∧ entries s !! 1 = None
    ∧ (1 <=? totalEntries (memory c)) && ghost_hit s (hashInt64 1) = true
    ∧ ∃ s' tot' e,
        setWithHash 1 1 10 0 0 s (totalEntries (memory c)) = Some (s', tot')
        ∧ entries s' !! 1 = Some (length (heap s))
        ∧ heap s' !! length (heap s) = Some e
        ∧ if (1 <=? totalEntries (memory c)) && ghost_hit s (hashInt64 1)
          then inSmall e = false ∧ entryList.tail (main s') = Some (length (heap s))
          else inSmall e = true ∧ entryList.tail (small s') = Some (length (heap s)).
Proof.
  destruct (run_adm (demo_sets [1; 2; 3; 4; 5; 6; 7; 8; 9; 10]) (New 1 1 0))
    as [c|] eqn:Hrun; [|vm_compute in Hrun; discriminate].
  destruct (run_adm_inv _ _ _ (New_inv 1 1 0) Hrun) as [(Hwf & _) _].
  destruct (shard0 c) as [s|] eqn:Hs;
    [|vm_compute in Hrun; injection Hrun as <-; vm_compute in Hs; discriminate].
  pose proof (Forall_lookup_1 _ _ _ _ Hwf Hs) as Hs_wf.
  exists c, s. split; [reflexivity|]. split; [exact Hs|].
  assert (entries s !! 1 = None) as Hk.
  { vm_compute in Hrun. injection Hrun as <-. vm_compute in Hs. injection Hs as <-.
    vm_compute. reflexivity. }
  split; [exact Hs_wf|]. split; [exact Hk|]. split.
  { vm_compute in Hrun. injection Hrun as <-. vm_compute in Hs. injection Hs as <-.
    vm_compute. reflexivity. }
  exact (C2_admission_queue 1 1 10 0 0 s (totalEntries (memory c)) Hs_wf Hk).
Defined.

(** C2, as stated, fails: with capacity 1, ten sets evict key 1 from death
    row into the ghost filters and leave the shard warm; a delete brings the
    entry counter below the capacity.  The set of key 1 that follows is a
    ghost hit on a warm shard, and the new entry is admitted to the tail of
    small, with in_small set, while main stays empty. *)
Lemma C2_ghost_hit_admitted_to_small :
  ∃ c s c' s' p e, run ghost_ops (demo_cache 1) = Some c ∧ shard0 c = Some s
    ∧ warmupComplete s = true ∧ entries s !! 1 = None
    ∧ ghost_hit s (hashInt64 1) = true
    ∧ step (OpSet 1 10 0) c = Some c' ∧ shard0 c' = Some s'
    ∧ entries s' !! 1 = Some p ∧ heap s' !! p = Some e
    ∧ inSmall e = true ∧ entryList.tail (small s') = Some p
    ∧ entryList.tail (main s') = None.
Proof.
  destruct (run ghost_ops (demo_cache 1)) as [c|] eqn:Hrun;
    [|vm_compute in Hrun; discriminate].
  vm_compute in Hrun. injection Hrun as <-.
  eexists _, _, _, _, _, _. split; [reflexivity|].
  split; [vm_compute; reflexivity|]. split; [vm_compute; reflexivity|].
  split; [vm_compute; reflexivity|]. split; [vm_compute; reflexivity|].
  split; [vm_compute; reflexivity|]. split; [vm_compute; reflexivity|].
  split; [vm_compute; reflexivity|]. split; [vm_compute; reflexivity|].
  split; [vm_compute; reflexivity|]. split; vm_compute; reflexivity.
Qed.

(** [set_then_get_wf] for a key whose entry is on death row. *)
Lemma set_then_get_wf_death_row :
  ∃ c, run_adm (demo_sets [1; 2]) (New 1 1 0) = Some c
    ∧ engine_inv (memory c)
    ∧ on_death_row (memory c) 1 = true
    ∧ ∃ c1 c2, set (memory c) 1 99 0 = Some c1 ∧ get c1 1 0 = Some (99, true, c2).
Proof.
  destruct (run_adm (demo_sets [1; 2]) (New 1 1 0)) as [c|] eqn:Hrun;
    [|vm_compute in Hrun; discriminate].
  destruct (run_adm_inv _ _ _ (New_inv 1 1 0) Hrun) as [Hm _].
  exists c. split; [reflexivity|]. split; [exact Hm|]. split.
  { vm_compute in Hrun. injection Hrun as <-. vm_compute. reflexivity. }
  exact (set_then_get_wf (memory c) 1 99 0 Hm).
Qed.

(** C9 at its failing input: with capacity 2, [delete(1)] finds the entry
    of key 1 on death row and unlinks it from the small queue it is not in:
    the queue is left with a nil head and length 1.  The engine is at
    capacity, so [set(5, 50)] runs [evictFromSmall], which reads the head's
    frequency through the nil pointer: the set does not return. *)
Lemma C9_set_after_death_row_delete :
  ∃ c s, run nil_head_ops (demo_cache 2) = Some c ∧ shard0 c = Some s
    ∧ s3fifo_capacity (memory c) = 2 ∧ totalEntries (memory c) = 2
    ∧ entries s !! 5 = None
    ∧ entryList.head (small s) = None ∧ entryList.len (small s) = 1
    ∧ evictFromSmall s 2 = None
    ∧ set (memory c) 5 50 0 = None.
Proof.
  destruct (run nil_head_ops (demo_cache 2)) as [c|] eqn:Hrun;
    [|vm_compute in Hrun; discriminate].
  vm_compute in Hrun. injection Hrun as <-.
  eexists _, _. split; [reflexivity|]. split; [vm_compute; reflexivity|].
  vm_compute. done.
Qed.

(** C8 at a shard whose main queue starts with an entry of frequency 0
    and peak frequency 4. *)
Lemma C8_cold_head_of_main_witness :
  ∃ c s ent, run_adm (promote_ops 4) (New 20 1 0) = Some c ∧ shard0 c = Some s
    ∧ shard_wf s ∧ entryList.head (main s) = Some 0%nat ∧ heap s !! 0%nat = Some ent
    ∧ freq ent = 0%N ∧ peakFreq ent = 4%N
    ∧ ∃ xs ms0, dll (heap s) (small s) xs ∧ dll (heap s) (main s) (0%nat :: ms0) ∧
      ((4 ≤ peakFreq ent)%N →
       ∃ s' ent', evictFromMain_loop 1 s (totalEntries (memory c)) = Some (s', totalEntries (memory c))
         ∧ dll (heap s') (small s') (xs ++ [0%nat]) ∧ dll (heap s') (main s') ms0
         ∧ entryList.tail (small s') = Some 0%nat
         ∧ heap s' !! 0%nat = Some ent'
         ∧ freq ent' = 1%N ∧ inSmall ent' = true ∧ onDeathRow ent' = false
         ∧ entries s' = entries s ∧ deathRow s' = deathRow s
         ∧ shard_wf s') ∧
      ((peakFreq ent < 4)%N →
       ∃ s' ent', evictFromMain_loop 1 s (totalEntries (memory c))
                  = Some (s', totalEntries (memory c) - 1)
         ∧ dll (heap s') (small s') xs ∧ dll (heap s') (main s') ms0
         ∧ deathRow s' = <[deathRowPos s := Some 0%nat]> (deathRow s)
         ∧ heap s' !! 0%nat = Some ent' ∧ onDeathRow ent' = true
         ∧ shard_wf s').
Proof.
  destruct (run_adm (promote_ops 4) (New 20 1 0)) as [c|] eqn:Hrun;
    [|vm_compute in Hrun; discriminate].
  destruct (run_adm_inv _ _ _ (New_inv 20 1 0) Hrun) as [(Hwf & _) _].
  destruct (shard0 c) as [s|] eqn:Hs;
    [|vm_compute in Hrun; injection Hrun as <-; vm_compute in Hs; discriminate].
  pose proof (Forall_lookup_1 _ _ _ _ Hwf Hs) as Hs_wf.
  destruct (heap s !! 0%nat) as [ent|] eqn:Hent;
    [|vm_compute in Hrun; injection Hrun as <-; vm_compute in Hs; injection Hs as <-;
      vm_compute in Hent; discriminate].
  assert (entryList.head (main s) = Some 0%nat ∧ freq ent = 0%N ∧ peakFreq ent = 4%N)
    as (Hhd & Hf & Hpk).
  { vm_compute in Hrun. injection Hrun as <-. vm_compute in Hs. injection Hs as <-.
    vm_compute in Hent. injection Hent as <-. vm_compute. done. }
  exists c, s, ent. split; [reflexivity|]. split; [exact Hs|]. split; [exact Hs_wf|].
  split; [exact Hhd|]. split; [exact Hent|]. split; [exact Hf|]. split; [exact Hpk|].
  exact (C8_cold_head_of_main 0 s (totalEntries (memory c)) 0%nat ent Hs_wf Hhd Hent Hf).
Defined.

(** C10 for key 2 on death row while main holds the entry of key 1. *)
Lemma C10_set_on_death_row_witness :
  ∃ c s p e, run main_tail_ops (demo_cache 1) = Some c
    ∧ shards (memory c) !! shardIdx (memory c) (uint64 2) = Some s
    ∧ entries s !! 2 = Some p ∧ heap s !! p = Some e ∧ onDeathRow e = true
    ∧ (∀ t, entryList.tail (main s) = Some t → is_Some (heap s !! t))
    ∧ let e1 := bump (set_expiryNano 5 (set_value 99 e)) in
      let s1 := set_heap (<[p := e1]> (heap s)) s in
      let c1 := with_shard (shardIdx (memory c) (uint64 2)) s1
                  (totalEntries (memory c)) (memory c) in
      set (memory c) 2 99 5 = Some c1
      ∧ value e1 = 99 ∧ expiryNano e1 = 5
      ∧ freq e1 = (if (freq e <? maxFreq)%N then freq e + 1 else freq e)%N
      ∧ onDeathRow e1 = true ∧ inSmall e1 = inSmall e
      ∧ prev e1 = prev e ∧ next e1 = next e
      ∧ deathRow s1 = deathRow s ∧ small s1 = small s ∧ main s1 = main s
      ∧ entries s1 = entries s
      ∧ totalEntries c1 = totalEntries (memory c)
      ∧ ∃ c2 s2 e2,
          get c1 2 3 = Some (99, true, c2)
          ∧ shards c2 !! shardIdx (memory c) (uint64 2) = Some s2
          ∧ deathRow s2 = clear_slot p (deathRow s)
          ∧ small s2 = small s ∧ entries s2 = entries s
          ∧ entryList.tail (main s2) = Some p
          ∧ entryList.len (main s2) = entryList.len (main s) + 1
          ∧ heap s2 !! p = Some e2
          ∧ onDeathRow e2 = false ∧ inSmall e2 = false ∧ freq e2 = 3%N ∧ value e2 = 99
          ∧ totalEntries c2 = totalEntries (memory c) + 1
          ∧ (shard_wf s → Some p ∈ deathRow s ∧ (Some p ∉ deathRow s2) ∧ shard_wf s2).
Proof.
  destruct (run main_tail_ops (demo_cache 1)) as [c|] eqn:Hrun;
    [|vm_compute in Hrun; discriminate].
  destruct (shards (memory c) !! shardIdx (memory c) (uint64 2)) as [s|] eqn:Hs;
    [|vm_compute in Hrun; injection Hrun as <-; vm_compute in Hs; discriminate].
  destruct (entries s !! 2) as [p|] eqn:Hk;
    [|vm_compute in Hrun; injection Hrun as <-; vm_compute in Hs; injection Hs as <-;
      vm_compute in Hk; discriminate].
  destruct (heap s !! p) as [e|] eqn:He;
    [|vm_compute in Hrun; injection Hrun as <-; vm_compute in Hs; injection Hs as <-;
      vm_compute in Hk; injection Hk as <-; vm_compute in He; discriminate].
  assert (onDeathRow e = true
          ∧ ∀ t, entryList.tail (main s) = Some t → is_Some (heap s !! t)) as [Hdr Htl].
  { vm_compute in Hrun. injection Hrun as <-. vm_compute in Hs. injection Hs as <-.
    vm_compute in Hk. injection Hk as <-. vm_compute in He. injection He as <-.
    split; [reflexivity|]. intros t Ht. vm_compute in Ht. injection Ht as <-.
    vm_compute. eauto. }
  exists c, s, p, e. split; [reflexivity|]. split; [exact Hs|].
  split; [exact Hk|]. split; [exact He|]. split; [exact Hdr|]. split; [exact Htl|].
  exact (C10_set_on_death_row (memory c) 2 99 5 3 s p e Hs Hk He Hdr Htl).
Defined.

(** * The intrusive list as a queue *)

Section QueueLaws.
Context {V : Type}.
Implicit Types (h : list (entry V)) (l : entryList.t).

Lemma modify_lookup h p f h' :
  modify p f h = Some h' → ∃ e, h !! p = Some e ∧ h' !! p = Some (f e).
Proof.
  intros (e & He & ->)%modify_inv. exists e. split; [done|].
  apply list_lookup_insert_eq. by eapply lookup_lt_Some.
Qed.

Lemma remove_links h l e h' l' :
  entryList.remove h l e = Some (h', l') →
  ∃ ex, h' !! e = Some ex ∧ prev ex = None ∧ next ex = None.
Proof.
  unfold entryList.remove. intros H.
  apply bind_Some in H as (e0 & _ & H).
  apply bind_Some in H as ([h1 hd] & _ & H).
  apply bind_Some in H as (e1 & _ & H).
  apply bind_Some in H as ([h2 tl] & _ & H).
  apply bind_Some in H as (h3 & H3 & H).
  apply bind_Some in H as (h4 & H4 & H).
  injection H as <- _.
  apply modify_lookup in H3 as (e2 & _ & H3).
  apply modify_lookup in H4 as (e3 & H3' & H4).
  rewrite H3 in H3'. injection H3' as <-.
  eexists. split; [exact H4|]. by destruct e2.
Qed.

(** [pushBack] appends: on a list that holds the entries [xs], the push of
    an entry that is not in it returns and the list then holds [xs] followed
    by the entry.  [remove] of any entry of that list, wherever it is,
    returns, keeps the others in their order, counts one entry less and
    leaves the removed entry with both links nil. *)
Theorem entryList_pushBack_then_remove h l (xs : list ptr) e :
  dll h l xs → e ∉ xs → is_Some (h !! e) →
  ∃ h1 l1, entryList.pushBack h l e = Some (h1, l1)
    ∧ dll h1 l1 (xs ++ [e])
    ∧ entryList.len l1 = entryList.len l + 1
    ∧ ∀ (ys : list ptr) x (zs : list ptr), xs ++ [e] = ys ++ x :: zs →
        ∃ h2 l2 ex, entryList.remove h1 l1 x = Some (h2, l2)
          ∧ dll h2 l2 (ys ++ zs)
          ∧ entryList.len l2 = entryList.len l
          ∧ h2 !! x = Some ex ∧ prev ex = None ∧ next ex = None.
Proof.
  intros Hdll Hnin He.
  destruct (pushBack_dll h l xs e Hdll Hnin He) as (h1 & l1 & Hpush & Hdll1).
  exists h1, l1. split; [done|]. split; [done|].
  pose proof (proj1 Hdll) as Hlen. pose proof (proj1 Hdll1) as Hlen1.
  rewrite length_app in Hlen1. simpl in Hlen1.
  split; [lia|].
  intros ys x zs Heq. rewrite Heq in Hdll1.
  destruct (remove_dll h1 l1 ys x zs Hdll1) as (h2 & l2 & e0 & Hrem & Hdll2 & _).
  destruct (remove_links _ _ _ _ _ Hrem) as (ex & Hex & Hp & Hn).
  exists h2, l2, ex. split; [done|]. split; [done|].
  split; [|done].
  pose proof (proj1 Hdll2) as Hlen2.
  apply (f_equal length) in Heq. rewrite !length_app in Heq. simpl in Heq.
  rewrite length_app in Hlen2. lia.
Qed.
End QueueLaws.

(** * What every reachable state keeps *)

Section Reachable.
Context {V E : Type} `{!Env V}.
Implicit Types (c : Cache V E).


Lemma queued_nonneg (l : list (shard V)) :
  Forall shard_wf l → 0 ≤ sum_shards queued l.
Proof.
  induction 1 as [|s l (xs & ms & Hinv) _ IH]; simpl; [done|].
  rewrite (queued_inv _ _ _ _ Hinv). lia.
Qed.

(** After any run of operations that deletes no key whose entry is on
    death row, the map of a shard holds as many keys as its two queues and
    its death row hold entries: [small.len + main.len] plus the occupied
    slots, of which there are at most eight. *)
Theorem map_size_is_queues_plus_death_row sz procs ttl ops c (s : shard V) :
  run_adm ops (New sz procs ttl) = Some c → s ∈ shards (memory c) →
  Z.of_nat (size (entries s))
  = entryList.len (small s) + entryList.len (main s) + occupied s
  ∧ 0 ≤ entryList.len (small s) ∧ 0 ≤ entryList.len (main s)
  ∧ 0 ≤ occupied s ≤ 8.
Proof.
  intros Hrun Hs.
  destruct (run_adm_inv _ _ _ (New_inv sz procs ttl) Hrun) as [(Hwf & _) _].
  destruct (proj1 (Forall_forall _ _) Hwf s Hs) as (xs & ms & Hinv).
  split; [exact (size_inv _ _ _ Hinv)|].
  rewrite (dll_len _ _ _ (inv_small _ _ _ _ Hinv)), (dll_len _ _ _ (inv_main _ _ _ _ Hinv)).
  pose proof (occupied_bound _ _ _ _ Hinv). lia.
Qed.

(** After any such run the global entry counter is the number of queued
    entries, summed over the shards: it is never negative and never more
    than [len()]. *)
Theorem counter_is_queued_entries size procs ttl ops c :
  run_adm ops (New size procs ttl) = Some c →
  totalEntries (memory c) = sum_shards queued (shards (memory c))
  ∧ 0 ≤ totalEntries (memory c) ≤ len (memory c).
Proof.
  intros Hrun.
  destruct (run_adm_inv _ _ _ (New_inv size procs ttl) Hrun) as [Hm _].
  pose proof Hm as (Hwf & Htot & _). split; [done|].
  rewrite (len_inv _ Hm). rewrite Htot at 1.
  pose proof (queued_nonneg _ Hwf). split; [done|].
  assert (0 ≤ sum_shards occupied (shards (memory c))); [|lia].
  clear -Hwf. induction Hwf as [|s l (xs & ms & Hinv) _ IH]; simpl; [done|].
  pose proof (occupied_bound _ _ _ _ Hinv). lia.
Qed.

End Reachable.

(** The shard after the run that resurrects ten keys from death row. *)
Lemma map_size_is_queues_plus_death_row_witness :
  ∃ c s, run_adm resurrect_ops (New 1 1 0) = Some c ∧ s ∈ shards (memory c)
    ∧ Z.of_nat (size (entries s))
      = entryList.len (small s) + entryList.len (main s) + occupied s
    ∧ 0 ≤ entryList.len (small s) ∧ 0 ≤ entryList.len (main s)
    ∧ 0 ≤ occupied s ≤ 8.
Proof.
  destruct (run_adm resurrect_ops (New 1 1 0)) as [c|] eqn:Hrun;
    [|vm_compute in Hrun; discriminate].
  destruct (shard0 c) as [s|] eqn:Hs;
    [|vm_compute in Hrun; injection Hrun as <-; vm_compute in Hs; discriminate].
  assert (s ∈ shards (memory c)) as Hin by (by eapply list_elem_of_lookup_2).
  exists c, s. split; [reflexivity|]. split; [exact Hin|].
  exact (map_size_is_queues_plus_death_row 1 1 0 resurrect_ops c s Hrun Hin).
Defined.

(** The counter after the same run. *)
Lemma counter_is_queued_entries_witness :
  ∃ c, run_adm resurrect_ops (New 1 1 0) = Some c
    ∧ totalEntries (memory c) = sum_shards queued (shards (memory c))
    ∧ 0 ≤ totalEntries (memory c) ≤ len (memory c).
Proof.
  destruct (run_adm resurrect_ops (New 1 1 0)) as [c|] eqn:Hrun;
    [|vm_compute in Hrun; discriminate].
  exists c. split; [reflexivity|].
  exact (counter_is_queued_entries 1 1 0 resurrect_ops c Hrun).
Defined.


(** * Reads, deletes and flushes *)

Section Reads.
Context {V : Type} `{!Env V}.
Implicit Types (c : s3fifo V) (s : shard V).

Lemma len_sum c : len c = sum_shards (λ s, Z.of_nat (size (entries s))) (shards c).
Proof. reflexivity. Qed.

Lemma shard_get_absent k now s tot :
  entries s !! k = None → shard_get k now s tot = Some (zero, false, s, tot).
Proof. intros Hk. unfold shard_get. by rewrite Hk. Qed.

Lemma get_absent c k now s :
  shards c !! shardIdx c (uint64 k) = Some s → entries s !! k = None →
  get c k now = Some (zero, false, c).
Proof.
  intros Hs Hk. unfold get. rewrite Hs. simpl.
  rewrite (shard_get_absent _ _ _ _ Hk). simpl. by rewrite (with_shard_id _ _ _ Hs).
Qed.

Lemma shard_get_queued k now s tot p (e : entry V) :
  entries s !! k = Some p → heap s !! p = Some e → onDeathRow e = false →
  shard_get k now s tot
  = Some (if expired_at (expiryNano e) now then (zero, false, s, tot)
          else (value e, true, set_heap (<[p := bump e]> (heap s)) s, tot)).
Proof.
  intros Hk He Hdr. unfold shard_get, expired_at. rewrite Hk, He. simpl. rewrite Hdr.
  destruct (negb (expiryNano e =? 0) && (expiryNano e <? now)); [done|].
  unfold modify_entry. rewrite (modify_Some _ _ _ _ He). simpl.
  rewrite list_lookup_insert_eq by (by eapply lookup_lt_Some). simpl.
  by destruct (bump_fields e) as (_ & -> & _).
Qed.

(** A read of a key that the map does not hold, or whose queued entry has
    expired, returns the zero value and [false] and changes nothing: an
    expired entry is not removed by the read, it stays in the map and in its
    queue and [len()] still counts it. *)
Theorem get_miss_changes_nothing c k now s :
  shards c !! shardIdx c (uint64 k) = Some s →
  match entries s !! k with
  | None => True
  | Some p => ∃ e, heap s !! p = Some e ∧ onDeathRow e = false
                   ∧ expiryNano e ≠ 0 ∧ expiryNano e < now
  end →
  get c k now = Some (zero, false, c)
  ∧ ∀ now', now ≤ now' → get c k now' = Some (zero, false, c).
Proof.
  intros Hs Hcase.
  assert (get c k now = Some (zero, false, c)) as Hget.
  { destruct (entries s !! k) as [p|] eqn:Hk.
    - destruct Hcase as (e & He & Hdr & Hnz & Hlt).
      unfold get. rewrite Hs. simpl.
      rewrite (shard_get_queued _ _ _ _ _ _ Hk He Hdr). unfold expired_at.
      rewrite (proj2 (Z.eqb_neq _ _) Hnz), (proj2 (Z.ltb_lt _ _) Hlt). simpl.
      by rewrite (with_shard_id _ _ _ Hs).
    - by eapply get_absent. }
  split; [done|]. by apply (get_miss _ _ _ _ _ Hget).
Qed.

(** A read of a key whose entry is queued and has not expired returns its
    value and bumps its frequency, which never goes beyond [maxFreq]; the
    map, the queues, death row, the counter and the other entries are as
    they were. *)
Theorem get_hit_bumps_frequency c k now s p (e : entry V) :
  shards c !! shardIdx c (uint64 k) = Some s →
  entries s !! k = Some p → heap s !! p = Some e → onDeathRow e = false →
  expiryNano e = 0 ∨ now ≤ expiryNano e →
  let e' := bump e in
  let s' := set_heap (<[p := e']> (heap s)) s in
  get c k now = Some (value e, true, with_shard (shardIdx c (uint64 k)) s' (totalEntries c) c)
  ∧ freq e' = (if (freq e <? maxFreq)%N then freq e + 1 else freq e)%N
  ∧ ((freq e ≤ maxFreq)%N → (freq e' ≤ maxFreq)%N)
  ∧ value e' = value e ∧ expiryNano e' = expiryNano e
  ∧ len (with_shard (shardIdx c (uint64 k)) s' (totalEntries c) c) = len c.
Proof.
  intros Hs Hk He Hdr Hlive e' s'.
  destruct (bump_fields e) as (_ & Hv & Hx & _ & _ & _ & _ & Hf).
  split_and!; [|done| |done|done|].
  - unfold get. rewrite Hs. simpl.
    rewrite (shard_get_queued _ _ _ _ _ _ Hk He Hdr).
    assert (expired_at (expiryNano e) now = false) as ->; [|done].
    unfold expired_at. destruct Hlive as [->|Hle]; [done|].
    rewrite (proj2 (Z.ltb_ge _ _) Hle). apply andb_false_r.
  - fold e' in Hf. rewrite Hf. unfold maxFreq.
    destruct (freq e <? 7)%N eqn:Hlt; [apply N.ltb_lt in Hlt|]; lia.
  - rewrite !len_sum. simpl. rewrite (sum_shards_insert _ _ _ _ _ Hs). simpl. lia.
Qed.
End Reads.

Section Deletes.
Context {V : Type} `{!Env V}.
Implicit Types (c : s3fifo V) (s : shard V).

Lemma del_then_get c k :
  engine_inv c → on_death_row c k = false →
  ∃ c', del c k = Some c' ∧ engine_inv c'
    ∧ ∀ now, get c' k now = Some (zero, false, c').
Proof.
  intros Hc Hdr. destruct (shard_lookup c k Hc) as (s & Hs & xs & ms & Hinv).
  pose proof (lookup_lt_Some _ _ _ Hs) as Hlt.
  unfold on_death_row in Hdr. rewrite Hs in Hdr.
  unfold del. rewrite Hs. simpl.
  destruct (entries s !! k) as [p|] eqn:Hk.
  - destruct (inv_map _ _ _ _ Hinv _ _ Hk) as (d & Hd & _).
    destruct (dat_Some _ _ _ Hd) as (e & He & ->). rewrite He in Hdr. simpl in Hdr.
    destruct (shard_delete_queued k s (totalEntries c) _ _ _ _ Hinv Hk Hd)
      as (s' & xs' & ms' & -> & Hinv' & Hlen & Hen); [exact Hdr|].
    simpl. eexists. split; [done|]. split.
    + eapply with_shard_inv; [done..|by eexists _, _|].
      rewrite (queued_inv _ _ _ _ Hinv), (queued_inv _ _ _ _ Hinv'). lia.
    + intros now. apply (get_absent _ _ _ s'); [simpl; by apply list_lookup_insert_eq|].
      rewrite Hen. apply lookup_delete_eq.
  - unfold shard_delete. rewrite Hk. simpl. rewrite (with_shard_id _ _ _ Hs).
    eexists. split; [done|]. split; [done|].
    intros now. by apply (get_absent _ _ _ s).
Qed.

(** On a well-formed engine, the delete of a key whose entry is in a queue
    removes the key: every later read misses, [len()] and the global counter
    are one less.  The delete of a key that the map does not hold changes
    nothing. *)
Theorem del_removes_queued_key c k s :
  engine_inv c → shards c !! shardIdx c (uint64 k) = Some s →
  on_death_row c k = false →
  ∃ c', del c k = Some c' ∧ engine_inv c'
    ∧ (∀ now, get c' k now = Some (zero, false, c'))
    ∧ match entries s !! k with
      | Some _ => len c' = len c - 1 ∧ totalEntries c' = totalEntries c - 1
      | None => c' = c
      end.
Proof.
  intros Hc Hs Hdr.
  destruct (del_then_get c k Hc Hdr) as (c' & Hdel & Hc' & Hmiss).
  exists c'. split; [done|]. split; [done|]. split; [done|].
  destruct (Forall_lookup_1 _ _ _ _ (proj1 Hc) Hs) as (xs & ms & Hinv).
  unfold on_death_row in Hdr. rewrite Hs in Hdr.
  unfold del in Hdel. rewrite Hs in Hdel. simpl in Hdel.
  destruct (entries s !! k) as [p|] eqn:Hk.
  - destruct (inv_map _ _ _ _ Hinv _ _ Hk) as (d & Hd & _).
    destruct (dat_Some _ _ _ Hd) as (e & He & ->). rewrite He in Hdr. simpl in Hdr.
    destruct (shard_delete_queued k s (totalEntries c) _ _ _ _ Hinv Hk Hd)
      as (s' & xs' & ms' & Hsd & Hinv' & Hlen & Hen); [exact Hdr|].
    rewrite Hsd in Hdel. simpl in Hdel. apply (inj Some) in Hdel. subst c'.
    split; [|done].
    rewrite !len_sum. simpl. rewrite (sum_shards_insert _ _ _ _ _ Hs). simpl.
    rewrite Hen, map_size_delete, Hk.
    assert (size (entries s) ≠ 0%nat); [|lia].
    intros H0. apply map_size_empty_inv in H0. by rewrite H0 in Hk.
  - unfold shard_delete in Hdel. rewrite Hk in Hdel. simpl in Hdel.
    rewrite (with_shard_id _ _ _ Hs) in Hdel. by apply (inj Some) in Hdel.
Qed.

(** [flush] returns the number of keys the maps held; after it the engine
    is well-formed and empty: [len()] and the global counter are 0 and every
    read misses. *)
Lemma flush_empties_engine c :
  engine_inv c →
  (flush c).1 = len c
  ∧ engine_inv (flush c).2
  ∧ len (flush c).2 = 0 ∧ totalEntries (flush c).2 = 0
  ∧ ∀ k now, get (flush c).2 k now = Some (zero, false, (flush c).2).
Proof.
  intros Hc. pose proof (flush_ok c Hc) as Hc'.
  split_and!; [done|done| |done|].
  - unfold len, flush. simpl. induction (shards c) as [|s l IH]; [done|].
    rewrite fmap_cons. simpl. rewrite IH. by rewrite map_size_empty.
  - intros k now. destruct (shard_lookup _ k Hc') as (s' & Hs' & _).
    apply (get_absent _ _ _ s'); [done|].
    simpl in Hs'. apply list_lookup_fmap_Some in Hs' as (s0 & -> & _). done.
Qed.
End Deletes.

(** * A write followed by a read *)

Section WriteRead.
Context {V : Type} `{!Env V}.
Implicit Types (c : s3fifo V) (s : shard V).

Lemma on_death_row_with_shard c k s' tot p (e : entry V) :
  (shardIdx c (uint64 k) < length (shards c))%nat →
  entries s' !! k = Some p → heap s' !! p = Some e →
  on_death_row (with_shard (shardIdx c (uint64 k)) s' tot c) k = onDeathRow e.
Proof.
  intros Hlt Hk He. unfold on_death_row. simpl. fold (shardIdx c (uint64 k)).
  rewrite list_lookup_insert_eq by done. by rewrite Hk, He.
Qed.

Lemma get_with_shard_queued c k now s' tot p (e : entry V) :
  (shardIdx c (uint64 k) < length (shards c))%nat →
  entries s' !! k = Some p → heap s' !! p = Some e → onDeathRow e = false →
  let c1 := with_shard (shardIdx c (uint64 k)) s' tot c in
  get c1 k now
  = Some (if expired_at (expiryNano e) now then (zero, false, c1)
          else (value e, true,
                with_shard (shardIdx c (uint64 k))
                  (set_heap (<[p := bump e]> (heap s')) s') tot c1)).
Proof.
  intros Hlt Hk He Hdr c1.
  assert (shards c1 !! shardIdx c (uint64 k) = Some s') as Hs1
    by (simpl; by apply list_lookup_insert_eq).
  unfold get. change (shardIdx c1 (uint64 k)) with (shardIdx c (uint64 k)).
  rewrite Hs1. simpl. rewrite (shard_get_queued _ _ _ _ _ _ Hk He Hdr).
  destruct (expired_at (expiryNano e) now); [|done].
  exact (f_equal (λ x, Some (zero, false, x)) (with_shard_id c1 _ _ Hs1)).
Qed.

(** On a well-formed engine, [set(k, v, exp)] on a key whose entry is not on
    death row, then [get(k)] at time [now]: the read returns [v] unless
    [exp] is not 0 and has passed. *)
Lemma set_get_at c k v exp now :
  engine_inv c → on_death_row c k = false →
  ∃ c1, set c k v exp = Some c1 ∧ engine_inv c1 ∧ on_death_row c1 k = false
    ∧ if expired_at exp now then get c1 k now = Some (zero, false, c1)
      else ∃ c2, get c1 k now = Some (v, true, c2) ∧ engine_inv c2
                 ∧ on_death_row c2 k = false.
Proof.
  intros Hc Hdr.
  destruct (set_ok c k v exp Hc) as (c1 & Hset & Hc1).
  exists c1. split; [done|]. split; [done|].
  destruct (shard_lookup c k Hc) as (s & Hs & xs & ms & Hinv).
  pose proof (lookup_lt_Some _ _ _ Hs) as Hlt.
  unfold on_death_row in Hdr. rewrite Hs in Hdr.
  unfold set in Hset. rewrite Hs in Hset. simpl in Hset.
  assert (∃ s' tot' p e, c1 = with_shard (shardIdx c (uint64 k)) s' tot' c
            ∧ entries s' !! k = Some p ∧ heap s' !! p = Some e
            ∧ onDeathRow e = false ∧ value e = v ∧ expiryNano e = exp)
    as (s' & tot' & p & e & -> & Hk' & He' & Hdr' & Hv & Hx).
  { destruct (entries s !! k) as [p|] eqn:Hk.
    - destruct (inv_map _ _ _ _ Hinv _ _ Hk) as (d & Hd & _).
      destruct (dat_Some _ _ _ Hd) as (e & He & ->). rewrite He in Hdr. simpl in Hdr.
      rewrite (setWithHash_update _ _ _ _ _ _ _ _ _ Hk He) in Hset.
      simpl in Hset. injection Hset as <-.
      destruct (bump_fields (set_expiryNano exp (set_value v e)))
        as (_ & Hbv & Hbe & _ & _ & _ & Hbo & _).
      eexists _, _, p, _. split; [done|]. split; [exact Hk|].
      split; [apply list_lookup_insert_eq; by eapply lookup_lt_Some|].
      split; [exact (eq_trans Hbo Hdr)|]. split; [exact Hbv|exact Hbe].
    - destruct (setWithHash_new (s3fifo_capacity c) k v exp 0 s (totalEntries c)
                  _ _ Hinv Hk)
        as (s' & tot' & xs' & ms' & d & Hnew & _ & _ & Hk' & Hd & _ & Hv & Hx & Hdr' & _).
      rewrite Hnew in Hset. simpl in Hset. injection Hset as <-.
      destruct (dat_Some _ _ _ Hd) as (e & He & ->).
      eexists _, _, _, e. split; [done|]. split; [exact Hk'|]. split; [exact He|].
      split; [exact Hdr'|]. split; [exact Hv|exact Hx]. }
  split; [by rewrite (on_death_row_with_shard _ _ _ _ _ _ Hlt Hk' He')|].
  rewrite (get_with_shard_queued _ _ now _ _ _ _ Hlt Hk' He' Hdr'). rewrite Hx, Hv.
  destruct (expired_at exp now) eqn:Hexp; [done|].
  eexists. split; [done|].
  destruct (get_ok _ k now Hc1) as (v2 & ok2 & c2 & Hget & Hc2).
  rewrite (get_with_shard_queued _ _ now _ _ _ _ Hlt Hk' He' Hdr') in Hget.
  rewrite Hx, Hexp in Hget. injection Hget as _ _ <-.
  split; [done|].
  transitivity (onDeathRow (bump e)).
  - apply (on_death_row_with_shard (with_shard (shardIdx c (uint64 k)) s' tot' c)
             k _ _ p (bump e)).
    + simpl. by rewrite length_insert.
    + exact Hk'.
    + simpl. apply list_lookup_insert_eq. by eapply lookup_lt_Some.
  - destruct (bump_fields e) as (_ & _ & _ & _ & _ & _ & -> & _). done.
Qed.
End WriteRead.

Section WriteReadAny.
Context {V : Type} `{!Env V}.
Implicit Types (c : s3fifo V) (s : shard V).


(** On a well-formed engine, [set(k, v, exp)] on a key whose entry is on
    death row, then [get(k)]: the read resurrects the entry and returns [v],
    whatever [exp] is. *)
Lemma set_get_death_row c k v exp now :
  engine_inv c → on_death_row c k = true →
  ∃ c1 c2, set c k v exp = Some c1 ∧ engine_inv c1
    ∧ get c1 k now = Some (v, true, c2) ∧ engine_inv c2.
Proof.
  intros Hc Hdr.
  destruct (set_ok c k v exp Hc) as (c1 & Hset & Hc1).
  destruct (get_ok c1 k now Hc1) as (v2 & ok2 & c2 & Hget & Hc2).
  exists c1, c2. split; [done|]. split; [done|]. split; [|done].
  destruct (shard_lookup c k Hc) as (s & Hs & xs & ms & Hinv).
  pose proof (lookup_lt_Some _ _ _ Hs) as Hlt.
  unfold on_death_row in Hdr. rewrite Hs in Hdr.
  destruct (entries s !! k) as [p|] eqn:Hk; [|done].
  destruct (heap s !! p) as [e|] eqn:He; [simpl in Hdr|done].
  unfold set in Hset. rewrite Hs in Hset. simpl in Hset.
  rewrite (setWithHash_update _ _ _ _ _ _ _ _ _ Hk He) in Hset.
  simpl in Hset. injection Hset as <-.
  destruct (bump_fields (set_expiryNano exp (set_value v e)))
    as (_ & Hbv & _ & _ & _ & _ & Hbo & _).
  set (e1 := bump (set_expiryNano exp (set_value v e))) in *.
  set (s1 := set_heap (<[p := e1]> (heap s)) s) in *.
  assert (heap s1 !! p = Some e1) as He1
    by (apply list_lookup_insert_eq; by eapply lookup_lt_Some).
  destruct (setWithHash_existing (s3fifo_capacity c) k v exp 0 s (totalEntries c)
              _ _ _ _ Hinv Hk (dat_lookup _ _ _ He)) as (s' & Hset' & Hinv' & _).
  rewrite (setWithHash_update _ _ _ _ _ _ _ _ _ Hk He) in Hset'.
  injection Hset' as <-. fold e1 s1 in Hinv'.
  destruct (resurrect_ok k s1 (totalEntries c) _ _ _ _ Hinv' Hk (dat_lookup _ _ _ He1))
    as (s2 & Hres & _); [exact (eq_trans Hbo Hdr)|].
  assert (value (strip e1) = v) as Hv1 by exact Hbv. rewrite Hv1 in Hres.
  revert Hget. unfold get. simpl. fold (shardIdx c (uint64 k)).
  rewrite list_lookup_insert_eq by done. simpl.
  unfold shard_get. change (entries s1) with (entries s). rewrite Hk, He1. simpl.
  assert (onDeathRow e1 = true) as -> by exact (eq_trans Hbo Hdr).
  change (entries s) with (entries s1). rewrite Hres. simpl.
  intros [= <- <- <-]. done.
Qed.

(** On a well-formed engine, [set(k, v, exp)] then [get(k)] at a time at
    which [exp] has not passed returns [v], wherever the entry of [k] was. *)
Lemma set_get_live c k v exp now :
  engine_inv c → expired_at exp now = false →
  ∃ c1 c2, set c k v exp = Some c1 ∧ engine_inv c1
    ∧ get c1 k now = Some (v, true, c2) ∧ engine_inv c2.
Proof.
  intros Hc Hexp. destruct (on_death_row c k) eqn:Hdr.
  - by apply set_get_death_row.
  - destruct (set_get_at c k v exp now Hc Hdr) as (c1 & Hset & Hc1 & _ & Hget).
    rewrite Hexp in Hget. destruct Hget as (c2 & Hget & Hc2 & _). eauto 10.
Qed.
End WriteReadAny.

(** * MemoryCache and TieredCache *)

Section Expiry.


End Expiry.

Section MemoryCacheLaws.
Context {V : Type} `{!Env V}.
Implicit Types (c : sfcache.MemoryCache V).

End MemoryCacheLaws.

Section TieredCacheLaws.
Context {St V Err : Type} `{!Env V} `{!persist.Store St V Err}.
Implicit Types (c : sfcache.TieredCache St V).

(** Read-through: when the memory layer misses, the key is valid and the
    store finds a value, [TieredCache.Get] returns that value and sets it
    in memory with the expiry the store gave; as long as that expiry has
    not passed, the next [Get] is served from memory and does not touch
    the store. *)
Theorem TieredCache_get_reads_through c k now z m st1 st2 val exp now' :
  engine_inv (sfcache.memory c) →
  get (sfcache.memory c) k now = Some (z, false, m) →
  persist.ValidateKey (sfcache.Store c) k = (st1, None) →
  persist.Get st1 k = (st2, (val, exp, true, None)) →
  expired_at (timeToNano exp) now' = false →
  ∃ c1 c2, sfcache.tc_Get c k now = Some (val, true, None, c1)
    ∧ sfcache.Store c1 = st2 ∧ engine_inv (sfcache.memory c1)
    ∧ sfcache.tc_Get c1 k now' = Some (val, true, None, c2)
    ∧ sfcache.Store c2 = st2 ∧ engine_inv (sfcache.memory c2).
Proof.
  intros Hc Hget Hval Hload Hlive.
  destruct (get_miss _ _ _ _ _ Hget) as (-> & _).
  destruct (set_get_live (sfcache.memory c) k val (timeToNano exp) now' Hc Hlive)
    as (m1 & m2 & Hset & Hm1 & Hget' & Hm2).
  exists (sfcache.MkTieredCache st2 m1 (sfcache.tc_defaultTTL c)),
         (sfcache.MkTieredCache st2 m2 (sfcache.tc_defaultTTL c)).
  split_and!; [|done|done| |done|done].
  - unfold sfcache.tc_Get. rewrite Hget. simpl. rewrite Hval, Hload. simpl.
    by rewrite Hset.
  - unfold sfcache.tc_Get. simpl. by rewrite Hget'.
Qed.


(** A key that the store refuses never reaches the store's [Get], [Set] or
    [Delete].  [Set] returns the validation error as it is and leaves the
    memory layer alone; [Get], after a miss in memory, returns it wrapped;
    [Delete] has already removed the key from memory when it validates, and
    returns the error wrapped. *)
Theorem TieredCache_invalid_key c k st1 err :
  persist.ValidateKey (sfcache.Store c) k = (st1, Some err) →
  (∀ v ttl now,
     sfcache.tc_Set c k v ttl now
     = Some (Some (sfcache.Raw err),
             sfcache.MkTieredCache st1 (sfcache.memory c) (sfcache.tc_defaultTTL c)))
  ∧ (∀ now z m, get (sfcache.memory c) k now = Some (z, false, m) →
       sfcache.tc_Get c k now
       = Some (zero, false, Some (sfcache.Wrapped "invalid key" err),
               sfcache.MkTieredCache st1 (sfcache.memory c) (sfcache.tc_defaultTTL c)))
  ∧ (engine_inv (sfcache.memory c) → on_death_row (sfcache.memory c) k = false →
     ∃ m, sfcache.tc_Delete c k
          = Some (Some (sfcache.Wrapped "invalid key" err),
                  sfcache.MkTieredCache st1 m (sfcache.tc_defaultTTL c))
       ∧ engine_inv m ∧ ∀ now, get m k now = Some (zero, false, m)).
Proof.
  intros Hval. split_and!.
  - intros v ttl now. unfold sfcache.tc_Set. by rewrite Hval.
  - intros now z m Hget. destruct (get_miss _ _ _ _ _ Hget) as (-> & _).
    unfold sfcache.tc_Get. rewrite Hget. simpl. by rewrite Hval.
  - intros Hc Hdr.
    destruct (del_then_get _ k Hc Hdr) as (m & Hdel & Hm & Hmiss).
    exists m. split; [|done]. unfold sfcache.tc_Delete. rewrite Hdel. simpl.
    by rewrite Hval.
Qed.

(** [TieredCache.Flush] empties the memory layer whatever the store
    answers.  It returns the number of keys memory held plus the number the
    store removed, or, when the store fails, the memory count alone with the
    wrapped error. *)
Theorem TieredCache_flush c st1 n err :
  engine_inv (sfcache.memory c) →
  persist.Flush (sfcache.Store c) = (st1, (n, err)) →
  ∃ c', sfcache.tc_Flush c
        = (match err with
           | Some _ => len (sfcache.memory c)
           | None => len (sfcache.memory c) + n
           end,
           match err with
           | Some e => Some (sfcache.Wrapped "persistence flush" e)
           | None => None
           end, c')
    ∧ sfcache.Store c' = st1
    ∧ engine_inv (sfcache.memory c') ∧ sfcache.tc_Len c' = 0
    ∧ ∀ k now, get (sfcache.memory c') k now = Some (zero, false, sfcache.memory c').
Proof.
  intros Hc Hflush.
  destruct (flush_empties_engine _ Hc) as (Hn & Hc' & Hlen & _ & Hmiss).
  exists (sfcache.MkTieredCache st1 (flush (sfcache.memory c)).2 (sfcache.tc_defaultTTL c)).
  split_and!; [|done..].
  unfold sfcache.tc_Flush. rewrite Hflush, Hn. by destruct err.
Qed.
End TieredCacheLaws.

(** * Rounds of eviction *)

Section Rounds.
Context {V : Type} `{!Env V}.
Implicit Types (s : shard V) (xs ms : list ptr).




(** The map after [sendToDeathRow]: the key of the entry that held the
    slot at the ring's position, if there was one, is gone. *)
Lemma sendToDeathRow_entries e s tot s' tot' :
  sendToDeathRow e s tot = Some (s', tot') →
  entries s' = match deathRow s !! deathRowPos s with
               | Some (Some o) =>
                   from_option (λ oe, delete (key oe) (entries s)) (entries s) (heap s !! o)
               | _ => entries s
               end.
Proof.
  unfold sendToDeathRow.
  destruct (deathRow s !! deathRowPos s) as [[o|]|]; simpl; [| |done].
  - destruct (heap s !! o) as [oe|]; simpl; [|done].
    set (s1 := addToGhost _ _ _).
    assert (entries s1 = delete (key oe) (entries s)) as He1.
    { pose proof (addToGhost_core (hash oe) (peakFreq oe)
                    (set_entries (delete (key oe) (entries s)) s)) as Hc.
      fold s1 in Hc. unfold core in Hc. by injection Hc. }
    unfold modify_entry.
    destruct (modify o _ (heap s1)) as [h1|]; simpl; [|done].
    destruct (modify e _ h1) as [h2|]; simpl; [|done].
    intros [= <- _]. done.
  - unfold modify_entry.
    destruct (modify e _ (heap s)) as [h2|]; simpl; [|done].
    intros [= <- _]. done.
Qed.

(** One iteration of [evictFromSmall] on a well-formed shard.  A head of
    small with a frequency below 2 goes to the death-row slot at the ring's
    position: the counter is one less, the entry keeps its key in the map,
    and the key of the entry that held the slot leaves the map.  A head with
    a frequency of 2 or more is promoted: it goes to the tail of main with
    frequency 0 and in_small clear, main is trimmed by [evictFromMain] when
    it is longer than nine tenths of the shard's capacity, and the loop goes
    on. *)
Theorem evictFromSmall_head fuel s tot e (ent : entry V) :
  shard_wf s → entryList.head (small s) = Some e → heap s !! e = Some ent →
  ∃ xs0 ms, dll (heap s) (small s) (e :: xs0) ∧ dll (heap s) (main s) ms ∧
    ((freq ent < 2)%N →
     ∃ s', evictFromSmall_loop (S fuel) s tot = Some (s', tot - 1)
       ∧ dll (heap s') (small s') xs0 ∧ dll (heap s') (main s') ms
       ∧ deathRow s' = <[deathRowPos s := Some e]> (deathRow s)
       ∧ entries s' = match deathRow s !! deathRowPos s with
                      | Some (Some o) =>
                          from_option (λ oe, delete (key oe) (entries s)) (entries s)
                                      (heap s !! o)
                      | _ => entries s
                      end
       ∧ entries s' !! key ent = Some e
       ∧ shard_wf s') ∧
    ((2 ≤ freq ent)%N →
     ∃ s4 ent4, dll (heap s4) (small s4) xs0 ∧ dll (heap s4) (main s4) (ms ++ [e])
       ∧ heap s4 !! e = Some ent4 ∧ freq ent4 = 0%N ∧ inSmall ent4 = false
       ∧ onDeathRow ent4 = false ∧ value ent4 = value ent
       ∧ entries s4 = entries s ∧ deathRow s4 = deathRow s ∧ shard_wf s4
       ∧ evictFromSmall_loop (S fuel) s tot
         = '(s5, tot5) ← (if Z.quot (capacity s * 9) 10 <? entryList.len (main s4)
                          then evictFromMain s4 tot else Some (s4, tot));
           evictFromSmall_loop fuel s5 tot5).
Proof.
  intros (xs & ms & Hinv) Hhd Hent.
  rewrite (dll_head _ _ _ (inv_small _ _ _ _ Hinv)) in Hhd.
  destruct xs as [|e' xs0]; [done|]. simpl in Hhd. injection Hhd as ->.
  exists xs0, ms. split; [apply Hinv|]. split; [apply Hinv|].
  pose proof (dll_len _ _ _ (inv_small _ _ _ _ Hinv)) as Hlen.
  pose proof (dll_head _ _ _ (inv_small _ _ _ _ Hinv)) as Hhd. simpl in Hlen, Hhd.
  pose proof (dat_lookup _ _ _ Hent) as Hd.
  destruct (inv_queue_dat _ _ _ _ Small e Hinv) as (ent0 & Hent0 & _ & Hfl & Hdr); [by left|].
  rewrite Hent in Hent0. injection Hent0 as <-.
  destruct (inv_q_remove _ Small _ _ _ [] e xs0 Hinv eq_refl)
    as (s1 & Hrem & Hinv1 & Hdat1 & Hrest1). simpl in Hinv1.
  assert (evictFromSmall_loop (S fuel) s tot
          = if (freq ent <? 2)%N then sendToDeathRow e s1 tot
            else s2 ← modify_entry e (set_freq 0) s1;
                 s3 ← modify_entry e (set_inSmall false) s2;
                 s4 ← q_pushBack Main e s3;
                 '(s5, tot5) ← (if Z.quot (capacity s * 9) 10 <? entryList.len (main s4)
                                then evictFromMain s4 tot else Some (s4, tot));
                 evictFromSmall_loop fuel s5 tot5) as Hstep.
  { simpl.
    assert ((0 <? entryList.len (small s)) = true) as -> by (apply Z.ltb_lt; lia).
    rewrite Hhd. simpl. rewrite Hent. simpl. rewrite Hrem. simpl. done. }
  split.
  - intros Hf. rewrite Hstep, (proj2 (N.ltb_lt _ _) Hf).
    destruct (send_finish s (e :: xs0) ms tot Small e xs0 s1)
      as (s2 & Hsend & Hinv2 & _ & Hdr2); try done.
    exists s2. split; [done|]. split; [apply Hinv2|]. split; [apply Hinv2|].
    split; [done|].
    assert (entries s2 = match deathRow s !! deathRowPos s with
                         | Some (Some o) =>
                             from_option (λ oe, delete (key oe) (entries s)) (entries s)
                                         (heap s !! o)
                         | _ => entries s
                         end) as Hen.
    { rewrite (sendToDeathRow_entries _ _ _ _ _ Hsend).
      rewrite (rest_deathRow _ _ Hrest1), (rest_entries _ _ Hrest1),
        (f_equal (λ r, r.1.1.1.2) Hrest1 : deathRowPos s1 = deathRowPos s).
      destruct (deathRow s !! deathRowPos s) as [[o|]|]; [|done..].
      pose proof (Hdat1 o) as Ho. unfold dat in Ho.
      destruct (heap s1 !! o) as [x|], (heap s !! o) as [y|]; simpl in *; try done.
      apply (inj Some) in Ho. apply strip_fields in Ho as (Hko & _). by rewrite Hko. }
    split; [done|]. split; [|by exists xs0, ms].
    assert (e ∈ occupants (deathRow s2)) as Hocc.
    { rewrite Hdr2. apply elem_of_occupants, list_elem_of_lookup.
      exists (deathRowPos s). apply list_lookup_insert_eq.
      rewrite (inv_dr_len _ _ _ _ Hinv). apply Hinv. }
    destruct (inv_member _ _ _ _ Hinv2 e) as (d2 & Hd2 & Hk2); [unfold members; set_solver|].
    destruct (inv_member _ _ _ _ Hinv e) as (d0 & Hd0 & Hk0); [unfold members; set_solver|].
    rewrite Hd in Hd0. injection Hd0 as <-.
    assert (key d2 = key ent) as <-; [|done].
    destruct (inv_sendToDeathRow _ _ _ _ _ tot Hinv1) as (s2' & Hsend' & _ & _ & _ & Hfl2 & _).
    rewrite Hsend in Hsend'. injection Hsend' as <-.
    specialize (Hfl2 e). rewrite Hd2, Hdat1, Hd in Hfl2. simpl in Hfl2.
    apply (inj Some) in Hfl2. exact (f_equal key Hfl2).
  - intros Hf. rewrite Hstep, (proj2 (N.ltb_ge _ _) Hf).
    assert (dat (heap s1) e = Some (strip ent)) as Hd1 by by rewrite Hdat1.
    destruct (inv_modify_float _ _ _ _ _ (set_freq 0) _ Hinv1 Hd1)
      as (s2 & -> & Hinv2 & Hdat2 & Hrest2); [apply data_fn_set_freq|]. simpl.
    assert (dat (heap s2) e = Some (set_freq 0 (strip ent))) as Hd2
      by (rewrite Hdat2; by rewrite decide_True).
    destruct (inv_modify_float _ _ _ _ _ (set_inSmall false) _ Hinv2 Hd2)
      as (s3 & -> & Hinv3 & Hdat3 & Hrest3); [apply data_fn_set_inSmall|]. simpl.
    assert (dat (heap s3) e = Some (set_inSmall false (set_freq 0 (strip ent)))) as Hd3
      by (rewrite Hdat3; by rewrite decide_True).
    destruct (inv_q_pushBack _ Main _ _ _ _ _ Hinv3 Hd3)
      as (s4 & -> & Hinv4 & Hdat4 & Hrest4); [done|by destruct ent|]. simpl in *.
    assert (dat (heap s4) e = Some (set_inSmall false (set_freq 0 (strip ent)))) as Hd4
      by by rewrite Hdat4.
    destruct (dat_Some _ _ _ Hd4) as (ent4 & Hent4 & Hst4).
    assert (rest s4 = rest s) as Hrest by congruence.
    exists s4, ent4. split; [apply Hinv4|]. split; [apply Hinv4|]. split; [done|].
    split; [exact (eq_sym (f_equal freq Hst4))|].
    split; [exact (eq_sym (f_equal inSmall Hst4))|].
    split; [exact (eq_trans (eq_sym (f_equal onDeathRow Hst4)) Hdr)|].
    split; [exact (eq_sym (f_equal value Hst4))|].
    split; [by apply rest_entries|]. split; [by apply rest_deathRow|].
    split; [by exists xs0, (ms ++ [e])|]. done.
Qed.
End Rounds.

(** * The constructor and the ghost ring *)

Section Constructor.
Context {V : Type} `{!Env V}.

End Constructor.

Section RingLaws.
Local Arguments Nat.modulo : simpl never.

Lemma scan_present hs fs h :
  length fs = length hs → h ∈ hs →
  ∃ i f, hs !! i = Some h ∧ (∀ j, (j < i)%nat → hs !! j ≠ Some h)
    ∧ fs !! i = Some f ∧ ring.scan hs fs h = (f, true).
Proof.
  revert fs. induction hs as [|x hs IH]; intros fs Hlen Hin; [by apply elem_of_nil in Hin|].
  destruct fs as [|f0 fs]; [done|]. simpl.
  destruct (decide (x = h)) as [->|Hne].
  - exists 0%nat, f0. rewrite bool_decide_true by done. split_and!; [done| |done|done].
    intros j Hj. lia.
  - rewrite bool_decide_false by done.
    destruct (IH fs) as (i & f & Hi & Hfirst & Hf & Hscan); [simpl in Hlen; lia| |].
    { apply elem_of_cons in Hin as [->|?]; done. }
    exists (S i), f. split_and!; [done| |done|done].
    intros [|j] Hj; simpl; [congruence|]. apply Hfirst. lia.
Qed.

(** [add] then [lookup] on the ghost frequency ring: the ring keeps its 256
    slots and its cursor stays below 256, wrapping after slot 255; the hash
    just added is always reported present, and its frequency is the one
    added unless a slot before the cursor already held the same hash, in
    which case [lookup] returns that older frequency. *)
Theorem ring_add_then_lookup (r : ghostFreqRing) (h : Z) (f : N) :
  length (hashes r) = 256%nat → length (freqs r) = 256%nat → (pos r < 256)%nat →
  let r' := ring.add r h f in
  length (hashes r') = 256%nat ∧ length (freqs r') = 256%nat
  ∧ (pos r' < 256)%nat ∧ pos r' = (if decide (pos r = 255%nat) then 0%nat else S (pos r))
  ∧ ∃ f', ring.lookup r' h = (f', true)
      ∧ ((∀ j, (j < pos r)%nat → hashes r !! j ≠ Some h) → f' = f)
      ∧ (∀ j g, (j < pos r)%nat → hashes r !! j = Some h
              → (∀ i, (i < j)%nat → hashes r !! i ≠ Some h)
              → freqs r !! j = Some g → f' = g).
Proof.
  intros Hh Hf Hp r'. unfold r', ring.add, ring.lookup. simpl.
  rewrite !length_insert.
  assert (((pos r + 1) mod 256)%nat = if decide (pos r = 255%nat) then 0%nat else S (pos r))
    as Hpos.
  { case_decide as Hc; [by rewrite Hc|]. rewrite Nat.mod_small by lia. lia. }
  split; [done|]. split; [done|]. split; [rewrite Hpos; case_decide; lia|].
  split; [done|].
  assert (<[pos r := h]> (hashes r) !! pos r = Some h) as Hat
    by (apply list_lookup_insert_eq; lia).
  assert (<[pos r := f]> (freqs r) !! pos r = Some f) as Hfat
    by (apply list_lookup_insert_eq; lia).
  destruct (scan_present (<[pos r := h]> (hashes r)) (<[pos r := f]> (freqs r)) h)
    as (i & f' & Hi & Hfirst & Hfi & Hscan).
  { by rewrite !length_insert, Hf, Hh. }
  { by eapply list_elem_of_lookup_2. }
  exists f'. split; [done|].
  assert (i ≤ pos r)%nat as Hle.
  { destruct (decide (i ≤ pos r)%nat); [done|]. exfalso. apply (Hfirst (pos r)); [lia|done]. }
  split.
  - intros Hnone. destruct (decide (i = pos r)) as [->|Hne]; [congruence|].
    exfalso. apply (Hnone i); [lia|]. by rewrite list_lookup_insert_ne in Hi.
  - intros j g Hj Hjh Hjfirst Hg.
    assert (i = j) as ->.
    { destruct (Nat.lt_trichotomy i j) as [Hlt|[->|Hgt]]; [|done|].
      - exfalso. apply (Hjfirst i Hlt). rewrite list_lookup_insert_ne in Hi by lia. done.
      - exfalso. apply (Hfirst j Hgt). rewrite list_lookup_insert_ne by lia. done. }
    rewrite list_lookup_insert_ne in Hfi by lia. congruence.
Qed.
End RingLaws.

(** * Frequency counters *)

Section Counters.
Context {V : Type} `{!Env V}.
Implicit Types (s : shard V) (h : list (entry V)).

Lemma modify_freq_ok p (g : entry V → entry V) h h' :
  modify p g h = Some h' → (∀ x, freq_ok x → freq_ok (g x)) →
  Forall freq_ok h → Forall freq_ok h'.
Proof.
  intros (e & He & ->)%modify_inv Hg Hh. apply Forall_insert; [done|].
  apply Hg. by eapply Forall_lookup_1.
Qed.

Lemma pushBack_freq_ok h l e h' l' :
  entryList.pushBack h l e = Some (h', l') → Forall freq_ok h → Forall freq_ok h'.
Proof.
  unfold entryList.pushBack. intros H Hh.
  apply bind_Some in H as (h1 & H1 & H). apply bind_Some in H as (h2 & H2 & H).
  apply bind_Some in H as ([h3 hd] & H3 & H). injection H as <- _.
  apply (modify_freq_ok _ _ _ _ H1) in Hh; [|done].
  apply (modify_freq_ok _ _ _ _ H2) in Hh; [|done].
  destruct (entryList.tail l) as [t|].
  - apply bind_Some in H3 as (h4 & H4 & [= <- _]).
    by apply (modify_freq_ok _ _ _ _ H4) in Hh.
  - by injection H3 as <- _.
Qed.

Lemma remove_freq_ok h l e h' l' :
  entryList.remove h l e = Some (h', l') → Forall freq_ok h → Forall freq_ok h'.
Proof.
  unfold entryList.remove. intros H Hh.
  apply bind_Some in H as (e0 & _ & H). apply bind_Some in H as ([h1 hd] & H1 & H).
  apply bind_Some in H as (e1 & _ & H). apply bind_Some in H as ([h2 tl] & H2 & H).
  apply bind_Some in H as (h3 & H3 & H). apply bind_Some in H as (h4 & H4 & H).
  injection H as <- _.
  assert (Forall freq_ok h1) as Hh1.
  { destruct (prev e0).
    - apply bind_Some in H1 as (x & Hx & [= <- _]). by apply (modify_freq_ok _ _ _ _ Hx).
    - by injection H1 as <- _. }
  assert (Forall freq_ok h2) as Hh2.
  { destruct (next e1).
    - apply bind_Some in H2 as (x & Hx & [= <- _]). by apply (modify_freq_ok _ _ _ _ Hx).
    - by injection H2 as <- _. }
  apply (modify_freq_ok _ _ _ _ H3) in Hh2; [|done].
  by apply (modify_freq_ok _ _ _ _ H4) in Hh2.
Qed.

Lemma modify_entry_counters p (g : entry V → entry V) s s' :
  modify_entry p g s = Some s' → (∀ x, freq_ok x → freq_ok (g x)) →
  counters_ok s → counters_ok s'.
Proof.
  unfold modify_entry. intros (h1 & H1 & [= <-])%bind_Some Hg [Hh Hr].
  split; [|done]. simpl. by eapply modify_freq_ok.
Qed.

Lemma q_pushBack_counters q e s s' :
  q_pushBack q e s = Some s' → counters_ok s → counters_ok s'.
Proof.
  unfold q_pushBack. intros ([h1 l1] & H1 & [= <-])%bind_Some [Hh Hr].
  split; [|by destruct q]. destruct q; simpl; by eapply pushBack_freq_ok.
Qed.

Lemma q_remove_counters q e s s' :
  q_remove q e s = Some s' → counters_ok s → counters_ok s'.
Proof.
  unfold q_remove. intros ([h1 l1] & H1 & [= <-])%bind_Some [Hh Hr].
  split; [|by destruct q]. destruct q; simpl; by eapply remove_freq_ok.
Qed.

Lemma q_remove_strip q e s s' :
  q_remove q e s = Some s' → ∀ p, strip <$> (heap s' !! p) = strip <$> (heap s !! p).
Proof.
  unfold q_remove. intros ([h1 l1] & H1 & [= <-])%bind_Some p.
  destruct q; simpl; by eapply remove_strip.
Qed.

Lemma ring_add_counters (r : ghostFreqRing) hsh (f : N) :
  (f ≤ maxFreq)%N → Forall (λ f, (f ≤ maxFreq)%N) (freqs r) →
  Forall (λ f, (f ≤ maxFreq)%N) (freqs (ring.add r hsh f)).
Proof.
  intros Hf Hr. unfold ring.add. simpl.
  destruct (decide (pos r < length (freqs r))%nat).
  - by apply Forall_insert.
  - by rewrite list_insert_ge by lia.
Qed.

Lemma addToGhost_counters hsh (pk : N) s :
  (pk ≤ maxFreq)%N → counters_ok s → counters_ok (addToGhost hsh pk s).
Proof.
  intros Hpk [Hh Hr]. unfold addToGhost.
  set (s1 := if negb _ then _ else s).
  assert (counters_ok s1) as [Hh1 Hr1].
  { unfold s1. destruct (negb _); [|done]. split; [done|]. simpl.
    destruct (2 <=? pk)%N; [by apply ring_add_counters|done]. }
  by destruct (_ <=? _).
Qed.

Lemma sendToDeathRow_counters e s tot s' tot' :
  sendToDeathRow e s tot = Some (s', tot') → counters_ok s → counters_ok s'.
Proof.
  unfold sendToDeathRow. intros H Hs.
  apply bind_Some in H as (old & _ & H). apply bind_Some in H as (s1 & H1 & H).
  apply bind_Some in H as (s2 & H2 & H). injection H as <- _.
  assert (counters_ok s1) as Hs1.
  { destruct old as [o|]; [|by injection H1 as <-].
    apply bind_Some in H1 as (oe & Hoe & H1).
    eapply modify_entry_counters; [done| |].
    - intros x Hx. by destruct x.
    - apply addToGhost_counters.
      + by destruct (Forall_lookup_1 _ _ _ _ (proj1 Hs) Hoe).
      + done. }
  apply (modify_entry_counters _ _ _ _ H2) in Hs1; [|intros x Hx; by destruct x].
  done.
Qed.

Lemma freq_ok_set_freq (x : entry V) (f : N) :
  freq_ok x → (f ≤ peakFreq x)%N → freq_ok (set_freq f x).
Proof. intros [? ?] ?. by destruct x. Qed.

Lemma evictFromMain_loop_counters fuel s tot s' tot' :
  evictFromMain_loop fuel s tot = Some (s', tot') → counters_ok s → counters_ok s'.
Proof.
  revert s tot. induction fuel as [|fuel IH]; intros s tot H Hs; [done|].
  simpl in H. destruct (0 <? entryList.len (main s)); [|by injection H as <- _].
  apply bind_Some in H as (e & _ & H). apply bind_Some in H as (ent & Hent & H).
  pose proof (Forall_lookup_1 _ _ _ _ (proj1 Hs) Hent) as [Hf Hp].
  destruct (freq ent =? 0)%N eqn:Hz.
  - apply bind_Some in H as (s1 & H1 & H). apply bind_Some in H as (ent1 & Hent1 & H).
    apply (q_remove_counters _ _ _ _ H1) in Hs.
    destruct (4 <=? peakFreq ent1)%N eqn:Hpk.
    + apply bind_Some in H as (s2 & H2 & H). apply bind_Some in H as (s3 & H3 & H).
      apply bind_Some in H as (s4 & H4 & H). injection H as <- _.
      eapply q_pushBack_counters; [done|].
      eapply modify_entry_counters; [done|intros x Hx; by destruct x|].
      assert (heap s2 = <[e := set_freq 1 ent1]> (heap s1)) as Hh2.
      { unfold modify_entry in H2. apply bind_Some in H2 as (h2 & Hm & [= <-]).
        apply modify_inv in Hm as (x & Hx & ->). simpl. congruence. }
      destruct Hs as [Hh Hr]. split.
      * rewrite Hh2. apply Forall_insert; [done|].
        pose proof (Forall_lookup_1 _ _ _ _ Hh Hent1) as [? ?].
        apply N.leb_le in Hpk. apply freq_ok_set_freq; [done|lia].
      * unfold modify_entry in H2. apply bind_Some in H2 as (h2 & _ & [= <-]). done.
    + by eapply sendToDeathRow_counters.
  - apply bind_Some in H as (s1 & H1 & H). apply bind_Some in H as (s2 & H2 & H).
    apply bind_Some in H as (s3 & H3 & H).
    apply (q_remove_counters _ _ _ _ H1) in Hs.
    eapply IH; [done|]. eapply q_pushBack_counters; [done|].
    assert (∃ x, heap s1 !! e = Some x ∧ heap s2 = <[e := set_freq (freq ent - 1) x]> (heap s1)
                 ∧ ghostFreqRng s2 = ghostFreqRng s1) as (x & Hx & Hh2 & Hr2).
    { unfold modify_entry in H2. apply bind_Some in H2 as (h2 & Hm & [= <-]).
      apply modify_inv in Hm as (x & Hx & ->). eauto. }
    destruct Hs as [Hh Hr]. split; [|by rewrite Hr2].
    rewrite Hh2. apply Forall_insert; [done|].
    pose proof (Forall_lookup_1 _ _ _ _ Hh Hx) as [? ?].
    assert (strip x = strip ent) as Hst.
    { pose proof (q_remove_strip _ _ _ _ H1 e) as Hs1.
      rewrite Hx, Hent in Hs1. simpl in Hs1. by apply (inj Some) in Hs1. }
    apply strip_fields in Hst as (_ & _ & _ & _ & Hfx & Hpx & _).
    apply freq_ok_set_freq; [done|lia].
Qed.

Lemma evictFromSmall_loop_counters fuel s tot s' tot' :
  evictFromSmall_loop fuel s tot = Some (s', tot') → counters_ok s → counters_ok s'.
Proof.
  revert s tot. induction fuel as [|fuel IH]; intros s tot H Hs; [done|].
  simpl in H. destruct (0 <? entryList.len (small s)); [|by injection H as <- _].
  apply bind_Some in H as (e & _ & H). apply bind_Some in H as (ent & Hent & H).
  destruct (freq ent <? 2)%N.
  - apply bind_Some in H as (s1 & H1 & H).
    apply (q_remove_counters _ _ _ _ H1) in Hs. by eapply sendToDeathRow_counters.
  - apply bind_Some in H as (s1 & H1 & H). apply bind_Some in H as (s2 & H2 & H).
    apply bind_Some in H as (s3 & H3 & H). apply bind_Some in H as (s4 & H4 & H).
    apply bind_Some in H as ([s5 tot5] & H5 & H).
    apply (q_remove_counters _ _ _ _ H1) in Hs.
    apply (modify_entry_counters _ _ _ _ H2) in Hs;
      [|intros x [? ?]; destruct x; split; simpl in *; lia].
    apply (modify_entry_counters _ _ _ _ H3) in Hs; [|intros x Hx; by destruct x].
    apply (q_pushBack_counters _ _ _ _ H4) in Hs.
    eapply IH; [done|].
    destruct (_ <? _); [|by injection H5 as <- _].
    by eapply evictFromMain_loop_counters.
Qed.

Lemma scan_elem hs fs x (f : N) : ring.scan hs fs x = (f, true) → f ∈ fs.
Proof.
  revert fs. induction hs as [|y hs IH]; intros [|g fs]; simpl; try done.
  case_bool_decide.
  - intros [= ->]. by left.
  - intros ?. right. by apply IH.
Qed.

Lemma bump_freq_ok (x : entry V) : freq_ok x → freq_ok (bump x).
Proof.
  intros [Hf Hp]. unfold freq_ok, bump, maxFreq in *.
  destruct (freq x <? 7)%N eqn:Hlt; [|done]. apply N.ltb_lt in Hlt.
  assert (((freq x + 1) mod 2 ^ 32)%N = (freq x + 1)%N) as ->.
  { apply N.mod_small. change (2 ^ 32)%N with 4294967296%N. lia. }
  simpl. destruct (peakFreq x <? freq x + 1)%N eqn:Hpk.
  - split; simpl; lia.
  - apply N.ltb_ge in Hpk. split; simpl; [lia|done].
Qed.

Lemma setWithHash_counters pcap k v exp (hash0 : Z) s tot s' tot' :
  setWithHash pcap k v exp hash0 s tot = Some (s', tot') → counters_ok s → counters_ok s'.
Proof.
  unfold setWithHash. intros H Hs. destruct (entries s !! k) as [p|].
  - apply bind_Some in H as (s1 & H1 & H). apply bind_Some in H as (s2 & H2 & H).
    apply bind_Some in H as (s3 & H3 & H). injection H as <- _.
    apply (modify_entry_counters _ _ _ _ H1) in Hs; [|intros x Hx; by destruct x].
    apply (modify_entry_counters _ _ _ _ H2) in Hs; [|intros x Hx; by destruct x].
    by apply (modify_entry_counters _ _ _ _ H3) in Hs; [|apply bump_freq_ok].
  - cbv beta iota zeta in H. unfold alloc in H. cbv beta iota zeta in H.
    set (hv := if hash0 =? 0 then hashInt64 k else hash0) in *.
    set (ent := length (heap s)) in *.
    set (s0 := set_heap (heap s ++ [set_hash hv (new_entry k v exp)]) s) in *.
    assert (counters_ok s0) as Hs0.
    { destruct Hs as [Hh Hr]. split; [|done]. simpl. apply Forall_app. split; [done|].
      apply Forall_singleton. split; simpl; unfold maxFreq; lia. }
    destruct (negb (warmupComplete s0) && negb (pcap <=? tot)).
    + apply bind_Some in H as (s1 & H1 & H). apply bind_Some in H as (s2 & H2 & H).
      injection H as <- _.
      apply (modify_entry_counters _ _ _ _ H1) in Hs0; [|intros x Hx; by destruct x].
      by apply (q_pushBack_counters _ _ _ _ H2) in Hs0.
    + apply bind_Some in H as ([s4 tot4] & H4 & H).
      apply bind_Some in H as (e & He & H). apply bind_Some in H as (s5 & H5 & H).
      injection H as <- _.
      assert (counters_ok s4) as Hs4.
      { assert (counters_ok (set_warmupComplete true s0)) as Hs1 by done.
        revert H4. generalize dependent (set_warmupComplete true s0). intros s1 Hs1 H4.
        destruct (pcap <=? tot).
        - apply bind_Some in H4 as (s2 & H2 & H4). apply bind_Some in H4 as (s3 & H3 & H4).
          apply (modify_entry_counters _ _ _ _ H2) in Hs1; [|intros x Hx; by destruct x].
          assert (counters_ok s3) as Hs3.
          { destruct (_ || _); [|by injection H3 as <-].
            destruct (ring.lookup (ghostFreqRng s2) hv) as [peak [|]] eqn:Hlk;
              [|by injection H3 as <-].
            apply bind_Some in H3 as (sa & Ha & H3).
            assert (peak ≤ maxFreq)%N as Hpk.
            { apply scan_elem in Hlk.
              by apply (proj1 (Forall_forall _ _) (proj2 Hs1)) in Hlk. }
            destruct Hs1 as [Hh Hr].
            unfold modify_entry in Ha, H3.
            apply bind_Some in Ha as (ha & Hma & [= <-]).
            apply bind_Some in H3 as (hb & Hmb & [= <-]). simpl in *.
            apply modify_inv in Hma as (x & Hx & ->).
            apply modify_inv in Hmb as (y & Hy & ->).
            rewrite list_lookup_insert_eq in Hy by (by eapply lookup_lt_Some).
            injection Hy as <-. split; [|done]. simpl.
            rewrite list_insert_insert_eq. apply Forall_insert; [done|].
            split; simpl; [by destruct x|by destruct x]. }
          destruct (_ && _); [by eapply evictFromMain_loop_counters|].
          destruct (_ <? _); [by eapply evictFromSmall_loop_counters|].
          by injection H4 as <- _.
        - apply bind_Some in H4 as (s2 & H2 & [= <- _]).
          by apply (modify_entry_counters _ _ _ _ H2) in Hs1; [|intros x Hx; by destruct x]. }
      destruct (inSmall e); by apply (q_pushBack_counters _ _ _ _ H5) in Hs4.
Qed.

Lemma resurrect_counters k s tot v ok s' tot' :
  resurrectFromDeathRow k s tot = Some (v, ok, s', tot') → counters_ok s → counters_ok s'.
Proof.
  unfold resurrectFromDeathRow. intros H Hs.
  destruct (entries s !! k) as [p|]; [|by injection H as _ _ <- _].
  apply bind_Some in H as (ent & _ & H).
  destruct (negb (onDeathRow ent)); [by injection H as _ _ <- _|].
  apply bind_Some in H as (s2 & H2 & H). apply bind_Some in H as (s3 & H3 & H).
  apply bind_Some in H as (s4 & H4 & H). apply bind_Some in H as (s5 & H5 & H).
  apply bind_Some in H as (s6 & H6 & H). apply bind_Some in H as (e' & _ & H).
  injection H as _ _ <- _.
  assert (counters_ok (set_deathRow (clear_slot p (deathRow s)) (deathRowPos s) s)) as Hs1
    by done.
  apply (modify_entry_counters _ _ _ _ H2) in Hs1; [|intros x Hx; by destruct x].
  apply (modify_entry_counters _ _ _ _ H3) in Hs1; [|intros x Hx; by destruct x].
  assert (counters_ok s5) as Hs5.
  { unfold modify_entry in H4, H5.
    apply bind_Some in H4 as (ha & Hma & [= <-]).
    apply bind_Some in H5 as (hb & Hmb & [= <-]). simpl in *.
    apply modify_inv in Hma as (x & Hx & ->).
    apply modify_inv in Hmb as (y & Hy & ->).
    rewrite list_lookup_insert_eq in Hy by (by eapply lookup_lt_Some).
    injection Hy as <-. destruct Hs1 as [Hh Hr]. split; [|done]. simpl.
    rewrite list_insert_insert_eq. apply Forall_insert; [done|].
    split; simpl; unfold maxFreq; lia. }
  by apply (q_pushBack_counters _ _ _ _ H6) in Hs5.
Qed.

Lemma shard_get_counters k now s tot v ok s' tot' :
  shard_get k now s tot = Some (v, ok, s', tot') → counters_ok s → counters_ok s'.
Proof.
  unfold shard_get. intros H Hs.
  destruct (entries s !! k) as [p|]; [|by injection H as _ _ <- _].
  apply bind_Some in H as (ent & _ & H).
  destruct (onDeathRow ent); [by eapply resurrect_counters|].
  destruct (_ && _); [by injection H as _ _ <- _|].
  apply bind_Some in H as (s1 & H1 & H). apply bind_Some in H as (e' & _ & H).
  injection H as _ _ <- _.
  by apply (modify_entry_counters _ _ _ _ H1) in Hs; [|apply bump_freq_ok].
Qed.

Lemma shard_delete_counters k s tot s' tot' :
  shard_delete k s tot = Some (s', tot') → counters_ok s → counters_ok s'.
Proof.
  unfold shard_delete. intros H Hs.
  destruct (entries s !! k) as [p|]; [|by injection H as <- _].
  apply bind_Some in H as (ent & _ & H). apply bind_Some in H as (s1 & H1 & H).
  injection H as <- _.
  destruct (inSmall ent); by apply (q_remove_counters _ _ _ _ H1) in Hs.
Qed.

Lemma shard_flush_counters s : counters_ok s → counters_ok (shard_flush s).2.
Proof.
  intros [Hh Hr]. split; [done|].
  refine (Forall_replicate (λ f, (f ≤ maxFreq)%N) 256 0%N _). unfold maxFreq. lia.
Qed.

Lemma with_shard_counters (c : s3fifo V) i s' tot :
  Forall counters_ok (shards c) → counters_ok s' →
  Forall counters_ok (shards (with_shard i s' tot c)).
Proof.
  intros Hc Hs'. simpl. destruct (decide (i < length (shards c))%nat).
  - by apply Forall_insert.
  - by rewrite list_insert_ge by lia.
Qed.

Lemma get_counters (c : s3fifo V) k now v ok c' :
  get c k now = Some (v, ok, c') →
  Forall counters_ok (shards c) → Forall counters_ok (shards c').
Proof.
  unfold get. intros H Hc.
  apply bind_Some in H as (s & Hs & H). apply bind_Some in H as ([[[v1 ok1] s1] tot1] & H1 & H).
  injection H as _ _ <-. apply with_shard_counters; [done|].
  eapply shard_get_counters; [done|]. by eapply Forall_lookup_1.
Qed.

Lemma set_counters (c : s3fifo V) k v exp c' :
  set c k v exp = Some c' →
  Forall counters_ok (shards c) → Forall counters_ok (shards c').
Proof.
  unfold set. intros H Hc.
  apply bind_Some in H as (s & Hs & H). apply bind_Some in H as ([s1 tot1] & H1 & H).
  injection H as <-. apply with_shard_counters; [done|].
  eapply setWithHash_counters; [done|]. by eapply Forall_lookup_1.
Qed.

Lemma del_counters (c : s3fifo V) k c' :
  del c k = Some c' →
  Forall counters_ok (shards c) → Forall counters_ok (shards c').
Proof.
  unfold del. intros H Hc.
  apply bind_Some in H as (s & Hs & H). apply bind_Some in H as ([s1 tot1] & H1 & H).
  injection H as <-. apply with_shard_counters; [done|].
  eapply shard_delete_counters; [done|]. by eapply Forall_lookup_1.
Qed.

Lemma flush_counters (c : s3fifo V) :
  Forall counters_ok (shards c) → Forall counters_ok (shards (flush c).2).
Proof.
  intros Hc. simpl. apply Forall_fmap. eapply Forall_impl; [done|].
  intros s Hs. by apply shard_flush_counters.
Qed.

Lemma newS3FIFO_counters sz procs :
  Forall counters_ok (shards (newS3FIFO (V:=V) sz procs)).
Proof.
  unfold newS3FIFO. simpl. apply Forall_replicate. split; [by apply Forall_nil|].
  refine (Forall_replicate (λ f, (f ≤ maxFreq)%N) 256 0%N _). unfold maxFreq. lia.
Qed.
End Counters.

Section CountersCache.
Context {V E : Type} `{!Env V}.
Implicit Types (c : Cache V E).

Lemma SetTTL_counters c k v ttl now c' :
  SetTTL c k v ttl now = Some c' →
  Forall counters_ok (shards (memory c)) → Forall counters_ok (shards (memory c')).
Proof.
  unfold SetTTL. intros (m & Hm & [= <-])%bind_Some Hc. simpl. by eapply set_counters.
Qed.

Lemma getSet_counters c k loader ttl now r c' :
  getSet c k loader ttl now = Some (r, c') →
  Forall counters_ok (shards (memory c)) → Forall counters_ok (shards (memory c')).
Proof.
  unfold getSet. intros H Hc.
  apply bind_Some in H as ([ro c1] & Henter & H).
  assert (Forall counters_ok (shards (memory c1))) as Hc1.
  { unfold getSet_enter in Henter.
    apply bind_Some in Henter as ([[v1 ok1] m1] & Hg & Henter).
    apply (get_counters _ _ _ _ _ _ Hg) in Hc.
    destruct ok1; [by injection Henter as _ <-|].
    simpl in Henter. destruct (flights c !! k); by injection Henter as _ <-. }
  destruct ro as [v1|call|call].
  - by injection H as _ <-.
  - unfold getSet_leader in H.
    apply bind_Some in H as ([[v2 ok2] m2] & Hg & H).
    apply (get_counters _ _ _ _ _ _ Hg) in Hc1.
    assert (∀ (cx cy : Cache V E) f, modify_call call f cx = Some cy →
              memory cy = memory cx) as Hmc.
    { intros cx cy f (fc & _ & [= <-])%bind_Some. done. }
    assert (∀ (cx cy : Cache V E), finish k call cx = Some cy → memory cy = memory cx)
      as Hfin.
    { intros cx cy Hf. unfold finish in Hf. by apply Hmc in Hf. }
    destruct ok2.
    + apply bind_Some in H as (c2 & H2 & H). apply bind_Some in H as (c3 & H3 & H).
      injection H as _ <-. by rewrite (Hfin _ _ H3), (Hmc _ _ _ H2).
    + destruct loader as [lv le|]; [|by injection H as _ <-].
      apply bind_Some in H as (c2 & H2 & H). apply bind_Some in H as (c3 & H3 & H).
      apply bind_Some in H as (c4 & H4 & H). injection H as _ <-.
      rewrite (Hfin _ _ H4), (Hmc _ _ _ H3).
      destruct le; [by injection H2 as <-|].
      unfold Set_ in H2. destruct (ttl <=? 0); by apply SetTTL_counters in H2.
  - apply bind_Some in H as (res & _ & [= _ <-]). done.
Qed.

Lemma step_counters (o : op (V:=V) (E:=E)) c c' :
  step o c = Some c' →
  Forall counters_ok (shards (memory c)) → Forall counters_ok (shards (memory c')).
Proof.
  destruct o as [k v exp|k now|k|k ttl loader now|]; simpl; intros H Hc.
  - apply bind_Some in H as (m & Hm & [= <-]). by eapply set_counters.
  - apply bind_Some in H as ([[v ok] m] & Hm & [= <-]). by eapply get_counters.
  - apply bind_Some in H as (m & Hm & [= <-]). by eapply del_counters.
  - apply bind_Some in H as ([r c1] & Hg & [= <-]). by eapply getSet_counters.
  - injection H as <-. by apply flush_counters.
Qed.

Lemma run_counters (ops : list (op (V:=V) (E:=E))) c c' :
  run ops c = Some c' →
  Forall counters_ok (shards (memory c)) → Forall counters_ok (shards (memory c')).
Proof.
  revert c. induction ops as [|o ops IH]; intros c; simpl.
  - by intros [= <-].
  - intros (c1 & H1 & H)%bind_Some Hc. eapply IH; [done|]. by eapply step_counters.
Qed.

(** After any run of operations, including the deletes of death-row keys,
    the frequency of every entry is at most its peak frequency and neither
    exceeds [maxFreq] = 7, and the ghost ring holds no frequency above 7:
    the 32-bit counters never wrap around and the decrement of
    [evictFromMain] never goes below 0. *)
Theorem frequencies_stay_within_maxFreq sz procs ttl (ops : list (op (V:=V) (E:=E))) c
    (s : shard V) :
  run ops (New sz procs ttl) = Some c → s ∈ shards (memory c) →
  (∀ p e, heap s !! p = Some e → (freq e ≤ peakFreq e ∧ peakFreq e ≤ 7)%N)
  ∧ (∀ i f, freqs (ghostFreqRng s) !! i = Some f → (f ≤ 7)%N).
Proof.
  intros Hrun Hs.
  pose proof (run_counters _ _ _ Hrun (newS3FIFO_counters sz procs)) as Hc.
  destruct (proj1 (Forall_forall _ _) Hc s Hs) as [Hh Hr].
  split.
  - intros p e He. exact (Forall_lookup_1 _ _ _ _ Hh He).
  - intros i f Hf. exact (Forall_lookup_1 _ _ _ _ Hr Hf).
Qed.
End CountersCache.

(** * hashString *)

Section HashString.
Implicit Types (s t : list Byte.byte).

Lemma load_ext w s t i j :
  (∀ d, (d < w)%nat → s !! (i + d)%nat = t !! (j + d)%nat) → load w s i = load w t j.
Proof.
  revert i j. induction w as [|w IH]; intros i j H; [done|].
  cbn [load]. f_equal.
  - unfold byte_at. specialize (H 0%nat ltac:(lia)). rewrite !Nat.add_0_r in H.
    by rewrite H.
  - f_equal. apply IH. intros d Hd. specialize (H (S d) ltac:(lia)).
    by rewrite <- !Nat.add_succ_comm in H.
Qed.

(** A string longer than eight bytes is hashed from its length, its first
    eight bytes and its last eight bytes only: two strings of the same length
    that agree on both ends have the same hash, whatever lies between. *)
Theorem hashString_reads_ends_only s t :
  length s = length t →
  (8 < length s)%nat →
  take 8 s = take 8 t →
  drop (length s - 8) s = drop (length s - 8) t →
  hashString s = hashString t.
Proof.
  intros Hlen Hn Hhead Htail.
  assert (load 8 s 0 = load 8 t 0) as Ha.
  { apply load_ext. intros d Hd. simpl.
    rewrite <- (lookup_take_lt s 8 d), <- (lookup_take_lt t 8 d) by done.
    by rewrite Hhead. }
  assert (load 8 s (length s - 8) = load 8 t (length s - 8)) as Hb.
  { apply load_ext. intros d Hd.
    rewrite <- !lookup_drop. by rewrite Htail. }
  unfold hashString. rewrite <- Hlen.
  destruct (decide (length s = 0%nat)); [lia|].
  destruct (decide (length s ≤ 8)%nat); [lia|].
  by rewrite Ha, Hb.
Qed.

(** Two keys of 17 bytes that differ in their ninth byte only. *)
Lemma hashString_reads_ends_only_witness :
  long_key_a ≠ long_key_b ∧ hashString long_key_a = hashString long_key_b.
Proof.
  split; [discriminate|].
  apply (hashString_reads_ends_only long_key_a long_key_b);
    [reflexivity|vm_compute; lia|reflexivity|reflexivity].
Defined.
End HashString.

(** * Fetch *)

Section FetchLaws.
Context {V E : Type} `{!Env V}.
Implicit Types (c : Cache V E).

Lemma set_memory_id c : set_memory (memory c) c = c.
Proof. by destruct c. Qed.


End FetchLaws.

(** * The laws at concrete inputs *)

Lemma demo_heap_empty_list : dll demo_heap entryList.empty [].
Proof. split_and!; [reflexivity..|constructor|exact I]. Qed.

(** The first entry pushed on the empty list. *)
Lemma entryList_pushBack_then_remove_witness :
  dll demo_heap entryList.empty [] ∧ (0%nat ∉ ([] : list ptr)) ∧ is_Some (demo_heap !! 0%nat)
  ∧ ∃ h1 l1, entryList.pushBack demo_heap entryList.empty 0%nat = Some (h1, l1)
      ∧ dll h1 l1 ([] ++ [0%nat])
      ∧ entryList.len l1 = entryList.len entryList.empty + 1
      ∧ ∀ (ys : list ptr) x (zs : list ptr), [] ++ [0%nat] = ys ++ x :: zs →
          ∃ h2 l2 ex, entryList.remove h1 l1 x = Some (h2, l2)
            ∧ dll h2 l2 (ys ++ zs)
            ∧ entryList.len l2 = entryList.len entryList.empty
            ∧ h2 !! x = Some ex ∧ prev ex = None ∧ next ex = None.
Proof.
  split; [apply demo_heap_empty_list|]. split; [apply not_elem_of_nil|].
  split; [vm_compute; eauto|].
  apply (entryList_pushBack_then_remove demo_heap entryList.empty [] 0%nat);
    [apply demo_heap_empty_list|apply not_elem_of_nil|vm_compute; eauto].
Defined.

(** A read at 9 ns of the key set with an expiry of 5 ns. *)
Lemma get_miss_changes_nothing_witness :
  ∃ c s, run expiring_ops (demo_cache 4) = Some c
    ∧ shards (memory c) !! shardIdx (memory c) (uint64 1) = Some s
    ∧ match entries s !! 1 with
      | None => True
      | Some p => ∃ e, heap s !! p = Some e ∧ onDeathRow e = false
                       ∧ expiryNano e ≠ 0 ∧ expiryNano e < 9
      end
    ∧ get (memory c) 1 9 = Some (zero, false, memory c)
    ∧ ∀ now', 9 ≤ now' → get (memory c) 1 now' = Some (zero, false, memory c).
Proof.
  destruct (run expiring_ops (demo_cache 4)) as [c|] eqn:Hrun;
    [|vm_compute in Hrun; discriminate].
  destruct (shards (memory c) !! shardIdx (memory c) (uint64 1)) as [s|] eqn:Hs;
    [|vm_compute in Hrun; injection Hrun as <-; vm_compute in Hs; discriminate].
  assert (match entries s !! 1 with
          | None => True
          | Some p => ∃ e, heap s !! p = Some e ∧ onDeathRow e = false
                           ∧ expiryNano e ≠ 0 ∧ expiryNano e < 9
          end) as Hexp.
  { vm_compute in Hrun. injection Hrun as <-. vm_compute in Hs. injection Hs as <-.
    vm_compute. eexists. split; [reflexivity|]. split; [reflexivity|].
    split; [discriminate|reflexivity]. }
  exists c, s. split; [reflexivity|]. split; [exact Hs|]. split; [exact Hexp|].
  exact (get_miss_changes_nothing (memory c) 1 9 s Hs Hexp).
Defined.

(** A read of key 1 in a cache that holds keys 1 and 2 without expiry. *)
Lemma get_hit_bumps_frequency_witness :
  ∃ c s p e, run (demo_sets [1; 2]) (demo_cache 4) = Some c
    ∧ shards (memory c) !! shardIdx (memory c) (uint64 1) = Some s
    ∧ entries s !! 1 = Some p ∧ heap s !! p = Some e ∧ onDeathRow e = false
    ∧ (expiryNano e = 0 ∨ 3 ≤ expiryNano e)
    ∧ let e' := bump e in
      let s' := set_heap (<[p := e']> (heap s)) s in
      let c' := with_shard (shardIdx (memory c) (uint64 1)) s'
                  (totalEntries (memory c)) (memory c) in
      get (memory c) 1 3 = Some (value e, true, c')
      ∧ freq e' = (if (freq e <? maxFreq)%N then freq e + 1 else freq e)%N
      ∧ ((freq e ≤ maxFreq)%N → (freq e' ≤ maxFreq)%N)
      ∧ value e' = value e ∧ expiryNano e' = expiryNano e
      ∧ len c' = len (memory c).
Proof.
  destruct (run (demo_sets [1; 2]) (demo_cache 4)) as [c|] eqn:Hrun;
    [|vm_compute in Hrun; discriminate].
  destruct (shards (memory c) !! shardIdx (memory c) (uint64 1)) as [s|] eqn:Hs;
    [|vm_compute in Hrun; injection Hrun as <-; vm_compute in Hs; discriminate].
  destruct (entries s !! 1) as [p|] eqn:Hk;
    [|vm_compute in Hrun; injection Hrun as <-; vm_compute in Hs; injection Hs as <-;
      vm_compute in Hk; discriminate].
  destruct (heap s !! p) as [e|] eqn:He;
    [|vm_compute in Hrun; injection Hrun as <-; vm_compute in Hs; injection Hs as <-;
      vm_compute in Hk; injection Hk as <-; vm_compute in He; discriminate].
  assert (onDeathRow e = false ∧ (expiryNano e = 0 ∨ 3 ≤ expiryNano e)) as [Hdr Hexp].
  { vm_compute in Hrun. injection Hrun as <-. vm_compute in Hs. injection Hs as <-.
    vm_compute in Hk. injection Hk as <-. vm_compute in He. injection He as <-.
    split; [reflexivity|left; reflexivity]. }
  exists c, s, p, e. split; [reflexivity|]. split; [exact Hs|]. split; [exact Hk|].
  split; [exact He|]. split; [exact Hdr|]. split; [exact Hexp|].
  exact (get_hit_bumps_frequency (memory c) 1 3 s p e Hs Hk He Hdr Hexp).
Defined.

(** The delete of key 1 from a cache that holds keys 1 and 2. *)
Lemma del_removes_queued_key_witness :
  ∃ c s, run_adm (demo_sets [1; 2]) (New 4 1 0) = Some c
    ∧ engine_inv (memory c)
    ∧ shards (memory c) !! shardIdx (memory c) (uint64 1) = Some s
    ∧ on_death_row (memory c) 1 = false
    ∧ ∃ c', del (memory c) 1 = Some c' ∧ engine_inv c'
        ∧ (∀ now, get c' 1 now = Some (zero, false, c'))
        ∧ match entries s !! 1 with
          | Some _ => len c' = len (memory c) - 1
                      ∧ totalEntries c' = totalEntries (memory c) - 1
          | None => c' = memory c
          end.
Proof.
  destruct (run_adm (demo_sets [1; 2]) (New 4 1 0)) as [c|] eqn:Hrun;
    [|vm_compute in Hrun; discriminate].
  destruct (run_adm_inv _ _ _ (New_inv 4 1 0) Hrun) as [Hinv _].
  destruct (shards (memory c) !! shardIdx (memory c) (uint64 1)) as [s|] eqn:Hs;
    [|vm_compute in Hrun; injection Hrun as <-; vm_compute in Hs; discriminate].
  assert (on_death_row (memory c) 1 = false) as Hdr.
  { vm_compute in Hrun. injection Hrun as <-. vm_compute. reflexivity. }
  exists c, s. split; [reflexivity|]. split; [exact Hinv|]. split; [exact Hs|].
  split; [exact Hdr|].
  exact (del_removes_queued_key (memory c) 1 s Hinv Hs Hdr).
Defined.


Lemma demo_tiered_inv : engine_inv (sfcache.memory demo_tiered).
Proof. apply newS3FIFO_inv. Qed.


(** Key 7 is in the store and not in memory. *)
Lemma TieredCache_get_reads_through_witness :
  engine_inv (sfcache.memory demo_tiered)
  ∧ get (sfcache.memory demo_tiered) 7 0 = Some (0, false, sfcache.memory demo_tiered)
  ∧ persist.ValidateKey (sfcache.Store demo_tiered) 7 = (sfcache.Store demo_tiered, None)
  ∧ persist.Get (sfcache.Store demo_tiered) 7
    = (sfcache.Store demo_tiered, (70, None, true, None))
  ∧ expired_at (timeToNano None) 5 = false
  ∧ ∃ c1 c2, sfcache.tc_Get demo_tiered 7 0 = Some (70, true, None, c1)
      ∧ sfcache.Store c1 = sfcache.Store demo_tiered ∧ engine_inv (sfcache.memory c1)
      ∧ sfcache.tc_Get c1 7 5 = Some (70, true, None, c2)
      ∧ sfcache.Store c2 = sfcache.Store demo_tiered ∧ engine_inv (sfcache.memory c2).
Proof.
  split; [apply demo_tiered_inv|]. split; [vm_compute; reflexivity|].
  split; [reflexivity|]. split; [vm_compute; reflexivity|]. split; [reflexivity|].
  apply (TieredCache_get_reads_through demo_tiered 7 0 0 (sfcache.memory demo_tiered)
           (sfcache.Store demo_tiered) (sfcache.Store demo_tiered) 70 None 5);
    [apply demo_tiered_inv|vm_compute; reflexivity|reflexivity|vm_compute; reflexivity
    |reflexivity].
Defined.


(** The store refuses the key -1. *)
Lemma TieredCache_invalid_key_witness :
  persist.ValidateKey (sfcache.Store demo_tiered) (-1)
  = (sfcache.Store demo_tiered, Some 1)
  ∧ (∀ v ttl now,
       sfcache.tc_Set demo_tiered (-1) v ttl now
       = Some (Some (sfcache.Raw 1),
               sfcache.MkTieredCache (sfcache.Store demo_tiered)
                 (sfcache.memory demo_tiered) (sfcache.tc_defaultTTL demo_tiered)))
  ∧ (∀ now z m, get (sfcache.memory demo_tiered) (-1) now = Some (z, false, m) →
       sfcache.tc_Get demo_tiered (-1) now
       = Some (zero, false, Some (sfcache.Wrapped "invalid key" 1),
               sfcache.MkTieredCache (sfcache.Store demo_tiered)
                 (sfcache.memory demo_tiered) (sfcache.tc_defaultTTL demo_tiered)))
  ∧ (engine_inv (sfcache.memory demo_tiered) →
     on_death_row (sfcache.memory demo_tiered) (-1) = false →
     ∃ m, sfcache.tc_Delete demo_tiered (-1)
          = Some (Some (sfcache.Wrapped "invalid key" 1),
                  sfcache.MkTieredCache (sfcache.Store demo_tiered) m
                    (sfcache.tc_defaultTTL demo_tiered))
       ∧ engine_inv m ∧ ∀ now, get m (-1) now = Some (zero, false, m)).
Proof.
  split; [reflexivity|].
  apply (TieredCache_invalid_key demo_tiered (-1) (sfcache.Store demo_tiered) 1).
  reflexivity.
Defined.

(** A flush of the cache whose store holds one key. *)
Lemma TieredCache_flush_witness :
  engine_inv (sfcache.memory demo_tiered)
  ∧ persist.Flush (sfcache.Store demo_tiered) = (∅, (1, None))
  ∧ ∃ c', sfcache.tc_Flush demo_tiered = (len (sfcache.memory demo_tiered) + 1, None, c')
      ∧ sfcache.Store c' = ∅
      ∧ engine_inv (sfcache.memory c') ∧ sfcache.tc_Len c' = 0
      ∧ ∀ k now, get (sfcache.memory c') k now = Some (zero, false, sfcache.memory c').
Proof.
  split; [apply demo_tiered_inv|]. split; [vm_compute; reflexivity|].
  apply (TieredCache_flush demo_tiered ∅ 1 None);
    [apply demo_tiered_inv|vm_compute; reflexivity].
Defined.


(** One iteration of [evictFromSmall] on a shard whose small queue starts
    with the entry of key 1, of frequency 0. *)
Lemma evictFromSmall_head_witness :
  ∃ c s ent, run_adm (demo_sets [1; 2]) (New 4 1 0) = Some c ∧ shard0 c = Some s
    ∧ shard_wf s ∧ entryList.head (small s) = Some 0%nat ∧ heap s !! 0%nat = Some ent
    ∧ ∃ xs0 ms, dll (heap s) (small s) (0%nat :: xs0) ∧ dll (heap s) (main s) ms ∧
      ((freq ent < 2)%N →
       ∃ s', evictFromSmall_loop 1 s (totalEntries (memory c))
             = Some (s', totalEntries (memory c) - 1)
         ∧ dll (heap s') (small s') xs0 ∧ dll (heap s') (main s') ms
         ∧ deathRow s' = <[deathRowPos s := Some 0%nat]> (deathRow s)
         ∧ entries s' = match deathRow s !! deathRowPos s with
                        | Some (Some o) =>
                            from_option (λ oe, delete (key oe) (entries s)) (entries s)
                                        (heap s !! o)
                        | _ => entries s
                        end
         ∧ entries s' !! key ent = Some 0%nat
         ∧ shard_wf s') ∧
      ((2 ≤ freq ent)%N →
       ∃ s4 ent4, dll (heap s4) (small s4) xs0 ∧ dll (heap s4) (main s4) (ms ++ [0%nat])
         ∧ heap s4 !! 0%nat = Some ent4 ∧ freq ent4 = 0%N ∧ inSmall ent4 = false
         ∧ onDeathRow ent4 = false ∧ value ent4 = value ent
         ∧ entries s4 = entries s ∧ deathRow s4 = deathRow s ∧ shard_wf s4
         ∧ evictFromSmall_loop 1 s (totalEntries (memory c))
           = '(s5, tot5) ← (if Z.quot (capacity s * 9) 10 <? entryList.len (main s4)
                            then evictFromMain s4 (totalEntries (memory c))
                            else Some (s4, totalEntries (memory c)));
             evictFromSmall_loop 0 s5 tot5).
Proof.
  destruct (run_adm (demo_sets [1; 2]) (New 4 1 0)) as [c|] eqn:Hrun;
    [|vm_compute in Hrun; discriminate].
  destruct (run_adm_inv _ _ _ (New_inv 4 1 0) Hrun) as [(Hwf & _) _].
  destruct (shard0 c) as [s|] eqn:Hs;
    [|vm_compute in Hrun; injection Hrun as <-; vm_compute in Hs; discriminate].
  pose proof (Forall_lookup_1 _ _ _ _ Hwf Hs) as Hs_wf.
  destruct (heap s !! 0%nat) as [ent|] eqn:Hent;
    [|vm_compute in Hrun; injection Hrun as <-; vm_compute in Hs; injection Hs as <-;
      vm_compute in Hent; discriminate].
  assert (entryList.head (small s) = Some 0%nat) as Hhd.
  { vm_compute in Hrun. injection Hrun as <-. vm_compute in Hs. injection Hs as <-.
    reflexivity. }
  exists c, s, ent. split; [reflexivity|]. split; [exact Hs|]. split; [exact Hs_wf|].
  split; [exact Hhd|]. split; [exact Hent|].
  exact (evictFromSmall_head 0 s (totalEntries (memory c)) 0%nat ent Hs_wf Hhd Hent).
Defined.


(** The hash 5 added, with frequency 3, to an empty ring. *)
Lemma ring_add_then_lookup_witness :
  length (hashes ghostFreqRing_zero) = 256%nat
  ∧ length (freqs ghostFreqRing_zero) = 256%nat
  ∧ (pos ghostFreqRing_zero < 256)%nat
  ∧ let r := ghostFreqRing_zero in
    let r' := ring.add r 5 3 in
    length (hashes r') = 256%nat ∧ length (freqs r') = 256%nat
    ∧ (pos r' < 256)%nat ∧ pos r' = (if decide (pos r = 255%nat) then 0%nat else S (pos r))
    ∧ ∃ f', ring.lookup r' 5 = (f', true)
        ∧ ((∀ j, (j < pos r)%nat → hashes r !! j ≠ Some 5) → f' = 3%N)
        ∧ (∀ j g, (j < pos r)%nat → hashes r !! j = Some 5
                → (∀ i, (i < j)%nat → hashes r !! i ≠ Some 5)
                → freqs r !! j = Some g → f' = g).
Proof.
  split; [reflexivity|]. split; [reflexivity|]. split; [vm_compute; lia|].
  apply (ring_add_then_lookup ghostFreqRing_zero 5 3);
    [reflexivity|reflexivity|vm_compute; lia].
Defined.

(** The counters after key 1 is read four times and promoted. *)
Lemma frequencies_stay_within_maxFreq_witness :
  ∃ c s, run (promote_ops 4) (New 20 1 0) = Some c ∧ s ∈ shards (memory c)
    ∧ (∀ p e, heap s !! p = Some e → (freq e ≤ peakFreq e ∧ peakFreq e ≤ 7)%N)
    ∧ (∀ i f, freqs (ghostFreqRng s) !! i = Some f → (f ≤ 7)%N).
Proof.
  destruct (run (promote_ops 4) (New 20 1 0)) as [c|] eqn:Hrun;
    [|vm_compute in Hrun; discriminate].
  destruct (shard0 c) as [s|] eqn:Hs;
    [|vm_compute in Hrun; injection Hrun as <-; vm_compute in Hs; discriminate].
  assert (s ∈ shards (memory c)) as Hin by (by eapply list_elem_of_lookup_2).
  exists c, s. split; [reflexivity|]. split; [exact Hin|].
  exact (frequencies_stay_within_maxFreq 20 1 0 (promote_ops 4) c s Hrun Hin).
Defined.


